(** * Request-lifecycle pipeline of the Gemini client (lib/ai)

    A shallow embedding of [lib/ai/utils.ts], [lib/ai/errors.ts] and
    [lib/ai/gemini-client.ts]: token estimation, prompt sanitising, error
    classification, bounded retry, the request client and usage statistics.

    Conventions of the model.
    - A JavaScript string is the list of its UTF-16 code units ([jsstring]);
      [text.length] is the length of that list.
    - JavaScript numbers that hold counts, lengths, token budgets and HTTP
      status codes are integers ([Z]).  Where the source divides, the model
      uses exact rationals ([Q]): in [estimateTokens] the rounded result is
      the one of the doubles of the source (see there); in
      [calculateUsageStats] the averages are the exact quotients, which the
      source rounds to doubles.
    - Wall-clock time is an input: [timerReading] is what the timer of a
      request reads; time stamps and the random jitter added to a backoff
      are not part of the model.
    - Built-in functions are modelled by what ECMAScript specifies for them:
      [toLowerCase] by the case mappings of the Unicode Character Database
      (version 14.0), reading a property of [undefined] or [null] by the
      [TypeError] it throws, with the message text of V8. *)

From Stdlib Require Import String Ascii DecimalString.
From Stdlib Require Import List ZArith QArith Qround Lia Bool Permutation.
Import ListNotations.

Local Open Scope Z_scope.

(* ================================================================= *)
(** ** JavaScript strings *)

Definition jsstring := list Z.

(** Code units of an ASCII literal. *)
Definition js (s : string) : jsstring :=
  map (fun a => Z.of_N (N_of_ascii a)) (list_ascii_of_string s).

Definition jslength (s : jsstring) : Z := Z.of_nat (length s).

Definition TAB : Z := 9.
Definition LF : Z := 10.
Definition CR : Z := 13.
Definition SP : Z := 32.

(** [String.prototype.substring(start, end)]: both indices are clamped to
    [0, length] and swapped when [start > end]. *)
Definition clamp (s : jsstring) (i : Z) : Z := Z.max 0 (Z.min i (jslength s)).

Definition substring (s : jsstring) (start stop : Z) : jsstring :=
  let a := clamp s start in
  let b := clamp s stop in
  let lo := Z.min a b in
  let hi := Z.max a b in
  firstn (Z.to_nat (hi - lo)) (skipn (Z.to_nat lo) s).

(** [a.startsWith(b)] and [a.includes(b)] on code units. *)
Fixpoint startsWith (s p : jsstring) : bool :=
  match p, s with
  | [], _ => true
  | _ :: _, [] => false
  | b :: p', a :: s' => (a =? b) && startsWith s' p'
  end.

Fixpoint includes (s sub : jsstring) : bool :=
  startsWith s sub ||
  match s with
  | [] => false
  | _ :: s' => includes s' sub
  end.

(** [String.prototype.toLowerCase]: the string is read as code points, the
    code points are mapped by the locale-insensitive lower-case mappings of
    the Unicode Character Database (the mappings to one code point and the
    two of [SpecialCasing.txt] that need no locale: U+0130 and the capital
    sigma, whose form depends on its place in the word), and the result is
    written back as code units.  The tables are those of version 14.0;
    a later version differs on code points that this one leaves
    unassigned. *)

(** [StringToCodePoints]: a lead surrogate followed by a trail surrogate is
    one code point, any other code unit stands for itself. *)
Definition isLeadSurrogate (c : Z) : bool := (0xD800 <=? c) && (c <=? 0xDBFF).

Definition isTrailSurrogate (c : Z) : bool := (0xDC00 <=? c) && (c <=? 0xDFFF).

Fixpoint codePoints (s : jsstring) : list Z :=
  match s with
  | [] => []
  | a :: tl =>
      match tl with
      | b :: rest =>
          if isLeadSurrogate a && isTrailSurrogate b
          then (0x10000 + (a - 0xD800) * 0x400 + (b - 0xDC00)) :: codePoints rest
          else a :: codePoints tl
      | [] => [a]
      end
  end.

(** [UTF16EncodeCodePoint] *)
Definition codeUnits (point : Z) : jsstring :=
  if point <? 0x10000 then [point]
  else [0xD800 + (point - 0x10000) / 0x400; 0xDC00 + (point - 0x10000) mod 0x400].

(** The letters A-Z. *)
Definition lowerAscii (c : Z) : Z :=
  if (0x41 <=? c) && (c <=? 0x5A) then c + 32 else c.

(** Look-up in a table of progressions. *)
Fixpoint lowerIn (table : list (Z * Z * Z * Z)) (c : Z) : Z :=
  match table with
  | [] => c
  | (first, last, step, offset) :: rest =>
      if c <? first then c
      else if (c <=? last) && ((c - first) mod step =? 0) then c + offset
      else lowerIn rest c
  end.

(** Look-up in a table of ranges. *)
Fixpoint inRanges (table : list (Z * Z)) (c : Z) : bool :=
  match table with
  | [] => false
  | (first, last) :: rest =>
      if c <? first then false
      else (c <=? last) || inRanges rest c
  end.

(** The code points beyond ASCII with a lower-case form of one code point
    (Lowercase_Mapping of the Unicode Character Database, version 14.0), as
    progressions [(first, last, step, offset)] in increasing order: the code
    points [first], [first + step], ... up to [last] map to themselves plus
    [offset]. *)
Definition lowerBeyondAscii : list (Z * Z * Z * Z) :=
  [(0xC0, 0xD6, 1, 32); (0xD8, 0xDE, 1, 32); (0x100, 0x12E, 2, 1);
   (0x132, 0x136, 2, 1); (0x139, 0x147, 2, 1); (0x14A, 0x176, 2, 1);
   (0x178, 0x178, 1, (-121)); (0x179, 0x17D, 2, 1); (0x181, 0x181, 1, 210);
   (0x182, 0x184, 2, 1); (0x186, 0x186, 1, 206); (0x187, 0x187, 1, 1);
   (0x189, 0x18A, 1, 205); (0x18B, 0x18B, 1, 1); (0x18E, 0x18E, 1, 79);
   (0x18F, 0x18F, 1, 202); (0x190, 0x190, 1, 203); (0x191, 0x191, 1, 1);
   (0x193, 0x193, 1, 205); (0x194, 0x194, 1, 207); (0x196, 0x196, 1, 211);
   (0x197, 0x197, 1, 209); (0x198, 0x198, 1, 1); (0x19C, 0x19C, 1, 211);
   (0x19D, 0x19D, 1, 213); (0x19F, 0x19F, 1, 214); (0x1A0, 0x1A4, 2, 1);
   (0x1A6, 0x1A6, 1, 218); (0x1A7, 0x1A7, 1, 1); (0x1A9, 0x1A9, 1, 218);
   (0x1AC, 0x1AC, 1, 1); (0x1AE, 0x1AE, 1, 218); (0x1AF, 0x1AF, 1, 1);
   (0x1B1, 0x1B2, 1, 217); (0x1B3, 0x1B5, 2, 1); (0x1B7, 0x1B7, 1, 219);
   (0x1B8, 0x1B8, 1, 1); (0x1BC, 0x1BC, 1, 1); (0x1C4, 0x1C4, 1, 2);
   (0x1C5, 0x1C5, 1, 1); (0x1C7, 0x1C7, 1, 2); (0x1C8, 0x1C8, 1, 1);
   (0x1CA, 0x1CA, 1, 2); (0x1CB, 0x1DB, 2, 1); (0x1DE, 0x1EE, 2, 1);
   (0x1F1, 0x1F1, 1, 2); (0x1F2, 0x1F4, 2, 1); (0x1F6, 0x1F6, 1, (-97));
   (0x1F7, 0x1F7, 1, (-56)); (0x1F8, 0x21E, 2, 1); (0x220, 0x220, 1, (-130));
   (0x222, 0x232, 2, 1); (0x23A, 0x23A, 1, 10795); (0x23B, 0x23B, 1, 1);
   (0x23D, 0x23D, 1, (-163)); (0x23E, 0x23E, 1, 10792); (0x241, 0x241, 1, 1);
   (0x243, 0x243, 1, (-195)); (0x244, 0x244, 1, 69); (0x245, 0x245, 1, 71);
   (0x246, 0x24E, 2, 1); (0x370, 0x372, 2, 1); (0x376, 0x376, 1, 1);
   (0x37F, 0x37F, 1, 116); (0x386, 0x386, 1, 38); (0x388, 0x38A, 1, 37);
   (0x38C, 0x38C, 1, 64); (0x38E, 0x38F, 1, 63); (0x391, 0x3A1, 1, 32);
   (0x3A4, 0x3AB, 1, 32); (0x3CF, 0x3CF, 1, 8); (0x3D8, 0x3EE, 2, 1);
   (0x3F4, 0x3F4, 1, (-60)); (0x3F7, 0x3F7, 1, 1); (0x3F9, 0x3F9, 1, (-7));
   (0x3FA, 0x3FA, 1, 1); (0x3FD, 0x3FF, 1, (-130)); (0x400, 0x40F, 1, 80);
   (0x410, 0x42F, 1, 32); (0x460, 0x480, 2, 1); (0x48A, 0x4BE, 2, 1);
   (0x4C0, 0x4C0, 1, 15); (0x4C1, 0x4CD, 2, 1); (0x4D0, 0x52E, 2, 1);
   (0x531, 0x556, 1, 48); (0x10A0, 0x10C5, 1, 7264);
   (0x10C7, 0x10C7, 1, 7264); (0x10CD, 0x10CD, 1, 7264);
   (0x13A0, 0x13EF, 1, 38864); (0x13F0, 0x13F5, 1, 8);
   (0x1C90, 0x1CBA, 1, (-3008)); (0x1CBD, 0x1CBF, 1, (-3008));
   (0x1E00, 0x1E94, 2, 1); (0x1E9E, 0x1E9E, 1, (-7615));
   (0x1EA0, 0x1EFE, 2, 1); (0x1F08, 0x1F0F, 1, (-8));
   (0x1F18, 0x1F1D, 1, (-8)); (0x1F28, 0x1F2F, 1, (-8));
   (0x1F38, 0x1F3F, 1, (-8)); (0x1F48, 0x1F4D, 1, (-8));
   (0x1F59, 0x1F5F, 2, (-8)); (0x1F68, 0x1F6F, 1, (-8));
   (0x1F88, 0x1F8F, 1, (-8)); (0x1F98, 0x1F9F, 1, (-8));
   (0x1FA8, 0x1FAF, 1, (-8)); (0x1FB8, 0x1FB9, 1, (-8));
   (0x1FBA, 0x1FBB, 1, (-74)); (0x1FBC, 0x1FBC, 1, (-9));
   (0x1FC8, 0x1FCB, 1, (-86)); (0x1FCC, 0x1FCC, 1, (-9));
   (0x1FD8, 0x1FD9, 1, (-8)); (0x1FDA, 0x1FDB, 1, (-100));
   (0x1FE8, 0x1FE9, 1, (-8)); (0x1FEA, 0x1FEB, 1, (-112));
   (0x1FEC, 0x1FEC, 1, (-7)); (0x1FF8, 0x1FF9, 1, (-128));
   (0x1FFA, 0x1FFB, 1, (-126)); (0x1FFC, 0x1FFC, 1, (-9));
   (0x2126, 0x2126, 1, (-7517)); (0x212A, 0x212A, 1, (-8383));
   (0x212B, 0x212B, 1, (-8262)); (0x2132, 0x2132, 1, 28);
   (0x2160, 0x216F, 1, 16); (0x2183, 0x2183, 1, 1); (0x24B6, 0x24CF, 1, 26);
   (0x2C00, 0x2C2F, 1, 48); (0x2C60, 0x2C60, 1, 1);
   (0x2C62, 0x2C62, 1, (-10743)); (0x2C63, 0x2C63, 1, (-3814));
   (0x2C64, 0x2C64, 1, (-10727)); (0x2C67, 0x2C6B, 2, 1);
   (0x2C6D, 0x2C6D, 1, (-10780)); (0x2C6E, 0x2C6E, 1, (-10749));
   (0x2C6F, 0x2C6F, 1, (-10783)); (0x2C70, 0x2C70, 1, (-10782));
   (0x2C72, 0x2C72, 1, 1); (0x2C75, 0x2C75, 1, 1);
   (0x2C7E, 0x2C7F, 1, (-10815)); (0x2C80, 0x2CE2, 2, 1);
   (0x2CEB, 0x2CED, 2, 1); (0x2CF2, 0x2CF2, 1, 1); (0xA640, 0xA66C, 2, 1);
   (0xA680, 0xA69A, 2, 1); (0xA722, 0xA72E, 2, 1); (0xA732, 0xA76E, 2, 1);
   (0xA779, 0xA77B, 2, 1); (0xA77D, 0xA77D, 1, (-35332));
   (0xA77E, 0xA786, 2, 1); (0xA78B, 0xA78B, 1, 1);
   (0xA78D, 0xA78D, 1, (-42280)); (0xA790, 0xA792, 2, 1);
   (0xA796, 0xA7A8, 2, 1); (0xA7AA, 0xA7AA, 1, (-42308));
   (0xA7AB, 0xA7AB, 1, (-42319)); (0xA7AC, 0xA7AC, 1, (-42315));
   (0xA7AD, 0xA7AD, 1, (-42305)); (0xA7AE, 0xA7AE, 1, (-42308));
   (0xA7B0, 0xA7B0, 1, (-42258)); (0xA7B1, 0xA7B1, 1, (-42282));
   (0xA7B2, 0xA7B2, 1, (-42261)); (0xA7B3, 0xA7B3, 1, 928);
   (0xA7B4, 0xA7C2, 2, 1); (0xA7C4, 0xA7C4, 1, (-48));
   (0xA7C5, 0xA7C5, 1, (-42307)); (0xA7C6, 0xA7C6, 1, (-35384));
   (0xA7C7, 0xA7C9, 2, 1); (0xA7D0, 0xA7D0, 1, 1); (0xA7D6, 0xA7D8, 2, 1);
   (0xA7F5, 0xA7F5, 1, 1); (0xFF21, 0xFF3A, 1, 32); (0x10400, 0x10427, 1, 40);
   (0x104B0, 0x104D3, 1, 40); (0x10570, 0x1057A, 1, 39);
   (0x1057C, 0x1058A, 1, 39); (0x1058C, 0x10592, 1, 39);
   (0x10594, 0x10595, 1, 39); (0x10C80, 0x10CB2, 1, 64);
   (0x118A0, 0x118BF, 1, 32); (0x16E40, 0x16E5F, 1, 32);
   (0x1E900, 0x1E921, 1, 34)].

(** The property [Cased], as ranges [(first, last)] in increasing order. *)
Definition casedRanges : list (Z * Z) :=
  [(0x41, 0x5A); (0x61, 0x7A); (0xAA, 0xAA); (0xB5, 0xB5); (0xBA, 0xBA);
   (0xC0, 0xD6); (0xD8, 0xF6); (0xF8, 0x1BA); (0x1BC, 0x1BF); (0x1C4, 0x293);
   (0x295, 0x2B8); (0x2C0, 0x2C1); (0x2E0, 0x2E4); (0x345, 0x345);
   (0x370, 0x373); (0x376, 0x377); (0x37A, 0x37D); (0x37F, 0x37F);
   (0x386, 0x386); (0x388, 0x38A); (0x38C, 0x38C); (0x38E, 0x3A1);
   (0x3A3, 0x3F5); (0x3F7, 0x481); (0x48A, 0x52F); (0x531, 0x556);
   (0x560, 0x588); (0x10A0, 0x10C5); (0x10C7, 0x10C7); (0x10CD, 0x10CD);
   (0x10D0, 0x10FA); (0x10FD, 0x10FF); (0x13A0, 0x13F5); (0x13F8, 0x13FD);
   (0x1C80, 0x1C88); (0x1C90, 0x1CBA); (0x1CBD, 0x1CBF); (0x1D00, 0x1DBF);
   (0x1E00, 0x1F15); (0x1F18, 0x1F1D); (0x1F20, 0x1F45); (0x1F48, 0x1F4D);
   (0x1F50, 0x1F57); (0x1F59, 0x1F59); (0x1F5B, 0x1F5B); (0x1F5D, 0x1F5D);
   (0x1F5F, 0x1F7D); (0x1F80, 0x1FB4); (0x1FB6, 0x1FBC); (0x1FBE, 0x1FBE);
   (0x1FC2, 0x1FC4); (0x1FC6, 0x1FCC); (0x1FD0, 0x1FD3); (0x1FD6, 0x1FDB);
   (0x1FE0, 0x1FEC); (0x1FF2, 0x1FF4); (0x1FF6, 0x1FFC); (0x2071, 0x2071);
   (0x207F, 0x207F); (0x2090, 0x209C); (0x2102, 0x2102); (0x2107, 0x2107);
   (0x210A, 0x2113); (0x2115, 0x2115); (0x2119, 0x211D); (0x2124, 0x2124);
   (0x2126, 0x2126); (0x2128, 0x2128); (0x212A, 0x212D); (0x212F, 0x2134);
   (0x2139, 0x2139); (0x213C, 0x213F); (0x2145, 0x2149); (0x214E, 0x214E);
   (0x2160, 0x217F); (0x2183, 0x2184); (0x24B6, 0x24E9); (0x2C00, 0x2CE4);
   (0x2CEB, 0x2CEE); (0x2CF2, 0x2CF3); (0x2D00, 0x2D25); (0x2D27, 0x2D27);
   (0x2D2D, 0x2D2D); (0xA640, 0xA66D); (0xA680, 0xA69D); (0xA722, 0xA787);
   (0xA78B, 0xA78E); (0xA790, 0xA7CA); (0xA7D0, 0xA7D1); (0xA7D3, 0xA7D3);
   (0xA7D5, 0xA7D9); (0xA7F5, 0xA7F6); (0xA7F8, 0xA7FA); (0xAB30, 0xAB5A);
   (0xAB5C, 0xAB68); (0xAB70, 0xABBF); (0xFB00, 0xFB06); (0xFB13, 0xFB17);
   (0xFF21, 0xFF3A); (0xFF41, 0xFF5A); (0x10400, 0x1044F); (0x104B0, 0x104D3);
   (0x104D8, 0x104FB); (0x10570, 0x1057A); (0x1057C, 0x1058A);
   (0x1058C, 0x10592); (0x10594, 0x10595); (0x10597, 0x105A1);
   (0x105A3, 0x105B1); (0x105B3, 0x105B9); (0x105BB, 0x105BC);
   (0x10780, 0x10780); (0x10783, 0x10785); (0x10787, 0x107B0);
   (0x107B2, 0x107BA); (0x10C80, 0x10CB2); (0x10CC0, 0x10CF2);
   (0x118A0, 0x118DF); (0x16E40, 0x16E7F); (0x1D400, 0x1D454);
   (0x1D456, 0x1D49C); (0x1D49E, 0x1D49F); (0x1D4A2, 0x1D4A2);
   (0x1D4A5, 0x1D4A6); (0x1D4A9, 0x1D4AC); (0x1D4AE, 0x1D4B9);
   (0x1D4BB, 0x1D4BB); (0x1D4BD, 0x1D4C3); (0x1D4C5, 0x1D505);
   (0x1D507, 0x1D50A); (0x1D50D, 0x1D514); (0x1D516, 0x1D51C);
   (0x1D51E, 0x1D539); (0x1D53B, 0x1D53E); (0x1D540, 0x1D544);
   (0x1D546, 0x1D546); (0x1D54A, 0x1D550); (0x1D552, 0x1D6A5);
   (0x1D6A8, 0x1D6C0); (0x1D6C2, 0x1D6DA); (0x1D6DC, 0x1D6FA);
   (0x1D6FC, 0x1D714); (0x1D716, 0x1D734); (0x1D736, 0x1D74E);
   (0x1D750, 0x1D76E); (0x1D770, 0x1D788); (0x1D78A, 0x1D7A8);
   (0x1D7AA, 0x1D7C2); (0x1D7C4, 0x1D7CB); (0x1DF00, 0x1DF09);
   (0x1DF0B, 0x1DF1E); (0x1E900, 0x1E943); (0x1F130, 0x1F149);
   (0x1F150, 0x1F169); (0x1F170, 0x1F189)].

(** The property [Case_Ignorable], as ranges in increasing order. *)
Definition caseIgnorableRanges : list (Z * Z) :=
  [(0x27, 0x27); (0x2E, 0x2E); (0x3A, 0x3A); (0x5E, 0x5E); (0x60, 0x60);
   (0xA8, 0xA8); (0xAD, 0xAD); (0xAF, 0xAF); (0xB4, 0xB4); (0xB7, 0xB8);
   (0x2B0, 0x36F); (0x374, 0x375); (0x37A, 0x37A); (0x384, 0x385);
   (0x387, 0x387); (0x483, 0x489); (0x559, 0x559); (0x55F, 0x55F);
   (0x591, 0x5BD); (0x5BF, 0x5BF); (0x5C1, 0x5C2); (0x5C4, 0x5C5);
   (0x5C7, 0x5C7); (0x5F4, 0x5F4); (0x600, 0x605); (0x610, 0x61A);
   (0x61C, 0x61C); (0x640, 0x640); (0x64B, 0x65F); (0x670, 0x670);
   (0x6D6, 0x6DD); (0x6DF, 0x6E8); (0x6EA, 0x6ED); (0x70F, 0x70F);
   (0x711, 0x711); (0x730, 0x74A); (0x7A6, 0x7B0); (0x7EB, 0x7F5);
   (0x7FA, 0x7FA); (0x7FD, 0x7FD); (0x816, 0x82D); (0x859, 0x85B);
   (0x888, 0x888); (0x890, 0x891); (0x898, 0x89F); (0x8C9, 0x902);
   (0x93A, 0x93A); (0x93C, 0x93C); (0x941, 0x948); (0x94D, 0x94D);
   (0x951, 0x957); (0x962, 0x963); (0x971, 0x971); (0x981, 0x981);
   (0x9BC, 0x9BC); (0x9C1, 0x9C4); (0x9CD, 0x9CD); (0x9E2, 0x9E3);
   (0x9FE, 0x9FE); (0xA01, 0xA02); (0xA3C, 0xA3C); (0xA41, 0xA42);
   (0xA47, 0xA48); (0xA4B, 0xA4D); (0xA51, 0xA51); (0xA70, 0xA71);
   (0xA75, 0xA75); (0xA81, 0xA82); (0xABC, 0xABC); (0xAC1, 0xAC5);
   (0xAC7, 0xAC8); (0xACD, 0xACD); (0xAE2, 0xAE3); (0xAFA, 0xAFF);
   (0xB01, 0xB01); (0xB3C, 0xB3C); (0xB3F, 0xB3F); (0xB41, 0xB44);
   (0xB4D, 0xB4D); (0xB55, 0xB56); (0xB62, 0xB63); (0xB82, 0xB82);
   (0xBC0, 0xBC0); (0xBCD, 0xBCD); (0xC00, 0xC00); (0xC04, 0xC04);
   (0xC3C, 0xC3C); (0xC3E, 0xC40); (0xC46, 0xC48); (0xC4A, 0xC4D);
   (0xC55, 0xC56); (0xC62, 0xC63); (0xC81, 0xC81); (0xCBC, 0xCBC);
   (0xCBF, 0xCBF); (0xCC6, 0xCC6); (0xCCC, 0xCCD); (0xCE2, 0xCE3);
   (0xD00, 0xD01); (0xD3B, 0xD3C); (0xD41, 0xD44); (0xD4D, 0xD4D);
   (0xD62, 0xD63); (0xD81, 0xD81); (0xDCA, 0xDCA); (0xDD2, 0xDD4);
   (0xDD6, 0xDD6); (0xE31, 0xE31); (0xE34, 0xE3A); (0xE46, 0xE4E);
   (0xEB1, 0xEB1); (0xEB4, 0xEBC); (0xEC6, 0xEC6); (0xEC8, 0xECD);
   (0xF18, 0xF19); (0xF35, 0xF35); (0xF37, 0xF37); (0xF39, 0xF39);
   (0xF71, 0xF7E); (0xF80, 0xF84); (0xF86, 0xF87); (0xF8D, 0xF97);
   (0xF99, 0xFBC); (0xFC6, 0xFC6); (0x102D, 0x1030); (0x1032, 0x1037);
   (0x1039, 0x103A); (0x103D, 0x103E); (0x1058, 0x1059); (0x105E, 0x1060);
   (0x1071, 0x1074); (0x1082, 0x1082); (0x1085, 0x1086); (0x108D, 0x108D);
   (0x109D, 0x109D); (0x10FC, 0x10FC); (0x135D, 0x135F); (0x1712, 0x1714);
   (0x1732, 0x1733); (0x1752, 0x1753); (0x1772, 0x1773); (0x17B4, 0x17B5);
   (0x17B7, 0x17BD); (0x17C6, 0x17C6); (0x17C9, 0x17D3); (0x17D7, 0x17D7);
   (0x17DD, 0x17DD); (0x180B, 0x180F); (0x1843, 0x1843); (0x1885, 0x1886);
   (0x18A9, 0x18A9); (0x1920, 0x1922); (0x1927, 0x1928); (0x1932, 0x1932);
   (0x1939, 0x193B); (0x1A17, 0x1A18); (0x1A1B, 0x1A1B); (0x1A56, 0x1A56);
   (0x1A58, 0x1A5E); (0x1A60, 0x1A60); (0x1A62, 0x1A62); (0x1A65, 0x1A6C);
   (0x1A73, 0x1A7C); (0x1A7F, 0x1A7F); (0x1AA7, 0x1AA7); (0x1AB0, 0x1ACE);
   (0x1B00, 0x1B03); (0x1B34, 0x1B34); (0x1B36, 0x1B3A); (0x1B3C, 0x1B3C);
   (0x1B42, 0x1B42); (0x1B6B, 0x1B73); (0x1B80, 0x1B81); (0x1BA2, 0x1BA5);
   (0x1BA8, 0x1BA9); (0x1BAB, 0x1BAD); (0x1BE6, 0x1BE6); (0x1BE8, 0x1BE9);
   (0x1BED, 0x1BED); (0x1BEF, 0x1BF1); (0x1C2C, 0x1C33); (0x1C36, 0x1C37);
   (0x1C78, 0x1C7D); (0x1CD0, 0x1CD2); (0x1CD4, 0x1CE0); (0x1CE2, 0x1CE8);
   (0x1CED, 0x1CED); (0x1CF4, 0x1CF4); (0x1CF8, 0x1CF9); (0x1D2C, 0x1D6A);
   (0x1D78, 0x1D78); (0x1D9B, 0x1DFF); (0x1FBD, 0x1FBD); (0x1FBF, 0x1FC1);
   (0x1FCD, 0x1FCF); (0x1FDD, 0x1FDF); (0x1FED, 0x1FEF); (0x1FFD, 0x1FFE);
   (0x200B, 0x200F); (0x2018, 0x2019); (0x2024, 0x2024); (0x2027, 0x2027);
   (0x202A, 0x202E); (0x2060, 0x2064); (0x2066, 0x206F); (0x2071, 0x2071);
   (0x207F, 0x207F); (0x2090, 0x209C); (0x20D0, 0x20F0); (0x2C7C, 0x2C7D);
   (0x2CEF, 0x2CF1); (0x2D6F, 0x2D6F); (0x2D7F, 0x2D7F); (0x2DE0, 0x2DFF);
   (0x2E2F, 0x2E2F); (0x3005, 0x3005); (0x302A, 0x302D); (0x3031, 0x3035);
   (0x303B, 0x303B); (0x3099, 0x309E); (0x30FC, 0x30FE); (0xA015, 0xA015);
   (0xA4F8, 0xA4FD); (0xA60C, 0xA60C); (0xA66F, 0xA672); (0xA674, 0xA67D);
   (0xA67F, 0xA67F); (0xA69C, 0xA69F); (0xA6F0, 0xA6F1); (0xA700, 0xA721);
   (0xA770, 0xA770); (0xA788, 0xA78A); (0xA7F2, 0xA7F4); (0xA7F8, 0xA7F9);
   (0xA802, 0xA802); (0xA806, 0xA806); (0xA80B, 0xA80B); (0xA825, 0xA826);
   (0xA82C, 0xA82C); (0xA8C4, 0xA8C5); (0xA8E0, 0xA8F1); (0xA8FF, 0xA8FF);
   (0xA926, 0xA92D); (0xA947, 0xA951); (0xA980, 0xA982); (0xA9B3, 0xA9B3);
   (0xA9B6, 0xA9B9); (0xA9BC, 0xA9BD); (0xA9CF, 0xA9CF); (0xA9E5, 0xA9E6);
   (0xAA29, 0xAA2E); (0xAA31, 0xAA32); (0xAA35, 0xAA36); (0xAA43, 0xAA43);
   (0xAA4C, 0xAA4C); (0xAA70, 0xAA70); (0xAA7C, 0xAA7C); (0xAAB0, 0xAAB0);
   (0xAAB2, 0xAAB4); (0xAAB7, 0xAAB8); (0xAABE, 0xAABF); (0xAAC1, 0xAAC1);
   (0xAADD, 0xAADD); (0xAAEC, 0xAAED); (0xAAF3, 0xAAF4); (0xAAF6, 0xAAF6);
   (0xAB5B, 0xAB5F); (0xAB69, 0xAB6B); (0xABE5, 0xABE5); (0xABE8, 0xABE8);
   (0xABED, 0xABED); (0xFB1E, 0xFB1E); (0xFBB2, 0xFBC2); (0xFE00, 0xFE0F);
   (0xFE13, 0xFE13); (0xFE20, 0xFE2F); (0xFE52, 0xFE52); (0xFE55, 0xFE55);
   (0xFEFF, 0xFEFF); (0xFF07, 0xFF07); (0xFF0E, 0xFF0E); (0xFF1A, 0xFF1A);
   (0xFF3E, 0xFF3E); (0xFF40, 0xFF40); (0xFF70, 0xFF70); (0xFF9E, 0xFF9F);
   (0xFFE3, 0xFFE3); (0xFFF9, 0xFFFB); (0x101FD, 0x101FD); (0x102E0, 0x102E0);
   (0x10376, 0x1037A); (0x10780, 0x10785); (0x10787, 0x107B0);
   (0x107B2, 0x107BA); (0x10A01, 0x10A03); (0x10A05, 0x10A06);
   (0x10A0C, 0x10A0F); (0x10A38, 0x10A3A); (0x10A3F, 0x10A3F);
   (0x10AE5, 0x10AE6); (0x10D24, 0x10D27); (0x10EAB, 0x10EAC);
   (0x10F46, 0x10F50); (0x10F82, 0x10F85); (0x11001, 0x11001);
   (0x11038, 0x11046); (0x11070, 0x11070); (0x11073, 0x11074);
   (0x1107F, 0x11081); (0x110B3, 0x110B6); (0x110B9, 0x110BA);
   (0x110BD, 0x110BD); (0x110C2, 0x110C2); (0x110CD, 0x110CD);
   (0x11100, 0x11102); (0x11127, 0x1112B); (0x1112D, 0x11134);
   (0x11173, 0x11173); (0x11180, 0x11181); (0x111B6, 0x111BE);
   (0x111C9, 0x111CC); (0x111CF, 0x111CF); (0x1122F, 0x11231);
   (0x11234, 0x11234); (0x11236, 0x11237); (0x1123E, 0x1123E);
   (0x112DF, 0x112DF); (0x112E3, 0x112EA); (0x11300, 0x11301);
   (0x1133B, 0x1133C); (0x11340, 0x11340); (0x11366, 0x1136C);
   (0x11370, 0x11374); (0x11438, 0x1143F); (0x11442, 0x11444);
   (0x11446, 0x11446); (0x1145E, 0x1145E); (0x114B3, 0x114B8);
   (0x114BA, 0x114BA); (0x114BF, 0x114C0); (0x114C2, 0x114C3);
   (0x115B2, 0x115B5); (0x115BC, 0x115BD); (0x115BF, 0x115C0);
   (0x115DC, 0x115DD); (0x11633, 0x1163A); (0x1163D, 0x1163D);
   (0x1163F, 0x11640); (0x116AB, 0x116AB); (0x116AD, 0x116AD);
   (0x116B0, 0x116B5); (0x116B7, 0x116B7); (0x1171D, 0x1171F);
   (0x11722, 0x11725); (0x11727, 0x1172B); (0x1182F, 0x11837);
   (0x11839, 0x1183A); (0x1193B, 0x1193C); (0x1193E, 0x1193E);
   (0x11943, 0x11943); (0x119D4, 0x119D7); (0x119DA, 0x119DB);
   (0x119E0, 0x119E0); (0x11A01, 0x11A0A); (0x11A33, 0x11A38);
   (0x11A3B, 0x11A3E); (0x11A47, 0x11A47); (0x11A51, 0x11A56);
   (0x11A59, 0x11A5B); (0x11A8A, 0x11A96); (0x11A98, 0x11A99);
   (0x11C30, 0x11C36); (0x11C38, 0x11C3D); (0x11C3F, 0x11C3F);
   (0x11C92, 0x11CA7); (0x11CAA, 0x11CB0); (0x11CB2, 0x11CB3);
   (0x11CB5, 0x11CB6); (0x11D31, 0x11D36); (0x11D3A, 0x11D3A);
   (0x11D3C, 0x11D3D); (0x11D3F, 0x11D45); (0x11D47, 0x11D47);
   (0x11D90, 0x11D91); (0x11D95, 0x11D95); (0x11D97, 0x11D97);
   (0x11EF3, 0x11EF4); (0x13430, 0x13438); (0x16AF0, 0x16AF4);
   (0x16B30, 0x16B36); (0x16B40, 0x16B43); (0x16F4F, 0x16F4F);
   (0x16F8F, 0x16F9F); (0x16FE0, 0x16FE1); (0x16FE3, 0x16FE4);
   (0x1AFF0, 0x1AFF3); (0x1AFF5, 0x1AFFB); (0x1AFFD, 0x1AFFE);
   (0x1BC9D, 0x1BC9E); (0x1BCA0, 0x1BCA3); (0x1CF00, 0x1CF2D);
   (0x1CF30, 0x1CF46); (0x1D167, 0x1D169); (0x1D173, 0x1D182);
   (0x1D185, 0x1D18B); (0x1D1AA, 0x1D1AD); (0x1D242, 0x1D244);
   (0x1DA00, 0x1DA36); (0x1DA3B, 0x1DA6C); (0x1DA75, 0x1DA75);
   (0x1DA84, 0x1DA84); (0x1DA9B, 0x1DA9F); (0x1DAA1, 0x1DAAF);
   (0x1E000, 0x1E006); (0x1E008, 0x1E018); (0x1E01B, 0x1E021);
   (0x1E023, 0x1E024); (0x1E026, 0x1E02A); (0x1E130, 0x1E13D);
   (0x1E2AE, 0x1E2AE); (0x1E2EC, 0x1E2EF); (0x1E8D0, 0x1E8D6);
   (0x1E944, 0x1E94B); (0x1F3FB, 0x1F3FF); (0xE0001, 0xE0001);
   (0xE0020, 0xE007F); (0xE0100, 0xE01EF)].

(** The lower-case form of a code point, when it is one code point. *)
Definition lowerPoint (c : Z) : Z :=
  if c <? 0x80 then lowerAscii c else lowerIn lowerBeyondAscii c.

Definition isCased (c : Z) : bool := inRanges casedRanges c.

Definition isCaseIgnorable (c : Z) : bool := inRanges caseIgnorableRanges c.

(** Whether the first of the code points that is not case-ignorable is a
    cased letter. *)
Fixpoint casedLetterNext (points : list Z) : bool :=
  match points with
  | [] => false
  | c :: rest => if isCaseIgnorable c then casedLetterNext rest else isCased c
  end.

(** The condition [Final_Sigma]: a cased letter comes before, and none
    after, case-ignorable code points aside.  [before] holds the code
    points before the sigma, nearest first. *)
Definition finalSigma (before after : list Z) : bool :=
  casedLetterNext before && negb (casedLetterNext after).

Fixpoint lowerPoints (before points : list Z) : list Z :=
  match points with
  | [] => []
  | c :: after =>
      (if c =? 0x3A3 then [if finalSigma before after then 0x3C2 else 0x3C3]
       else if c =? 0x130 then [0x69; 0x307]
       else [lowerPoint c]) ++ lowerPoints (c :: before) after
  end.

Definition toLowerCase (s : jsstring) : jsstring :=
  flat_map codeUnits (lowerPoints [] (codePoints s)).

(** Number to decimal string, as a template literal prints an integer. *)
Definition numberToString (n : Z) : jsstring :=
  js (NilZero.string_of_int (Z.to_int n)).

(* ================================================================= *)
(** ** utils.ts: token estimation *)

(** The character class [[가-힣]]: U+AC00 .. U+D7A3. *)
Definition isHangulSyllable (c : Z) : bool := (0xAC00 <=? c) && (c <=? 0xD7A3).

Definition koreanCount (text : jsstring) : Z :=
  Z.of_nat (length (filter isHangulSyllable text)).

(** [estimateTokens].  [!text] holds for the empty string only.  The sum
    [koreanChars / 2.5 + englishChars / 4] is a multiple of 1/20: when it is
    an integer both quotients are exact doubles, otherwise it is at least
    1/20 away from an integer, far more than the rounding error of a double,
    so [Math.ceil] of the double is the ceiling of the exact rational. *)
Definition estimateTokens (text : jsstring) : Z :=
  match text with
  | [] => 0
  | _ =>
      let koreanChars := koreanCount text in
      let englishChars := jslength text - koreanChars in
      let estimatedTokens :=
        Qceiling (inject_Z koreanChars / (5 # 2) + inject_Z englishChars / (4 # 1)) in
      Z.max 1 estimatedTokens
  end.

Definition validateTokenLimit (inputTokens maxTokens reservedTokens : Z) : bool :=
  inputTokens <=? maxTokens - reservedTokens.

Record TokenValidation := {
  isValid : bool;
  adjustedText : option jsstring;
  estimatedTokens : Z
}.

(** [validateAndAdjustTokens].  [Math.floor (a / b)] on integers with
    [b > 0] is [a / b] of [Z]; [b = 0] only happens for the empty text, where
    the source computes [NaN], which [substring] reads as [0], the value of
    [a / 0] in [Z]. *)
Definition validateAndAdjustTokens (text : jsstring) (maxTokens : Z) : TokenValidation :=
  let estimatedTokens := estimateTokens text in
  let reservedTokens := 2000 in
  let maxInputTokens := maxTokens - reservedTokens in
  if estimatedTokens <=? maxInputTokens then
    {| isValid := true; adjustedText := None; estimatedTokens := estimatedTokens |}
  else
    let targetLength := (jslength text * maxInputTokens) / estimatedTokens in
    let adjusted := substring text 0 targetLength ++ js "..." in
    {| isValid := false;
       adjustedText := Some adjusted;
       estimatedTokens := estimateTokens adjusted |}.

(** Code units of the sample texts. *)
Definition hello : jsstring := js "Hello".
(** "안녕하세요" *)
Definition annyeong : jsstring := [0xC548; 0xB155; 0xD558; 0xC138; 0xC694].

(* ================================================================= *)
(** ** utils.ts: text sanitising *)

(** The class [\s], which is also what [trim] strips: WhiteSpace and
    LineTerminator of ECMAScript. *)
Definition is_ws (c : Z) : bool :=
  ((9 <=? c) && (c <=? 13)) || (c =? 32) || (c =? 0xA0) || (c =? 0x1680) ||
  ((0x2000 <=? c) && (c <=? 0x200A)) || (c =? 0x2028) || (c =? 0x2029) ||
  (c =? 0x202F) || (c =? 0x205F) || (c =? 0x3000) || (c =? 0xFEFF).

Fixpoint takeWhile (p : Z -> bool) (s : jsstring) : jsstring :=
  match s with
  | [] => []
  | c :: rest => if p c then c :: takeWhile p rest else []
  end.

Fixpoint dropWhile (p : Z -> bool) (s : jsstring) : jsstring :=
  match s with
  | [] => []
  | c :: rest => if p c then dropWhile p rest else s
  end.

Definition trimStart (s : jsstring) : jsstring := dropWhile is_ws s.
Fixpoint trimEnd (s : jsstring) : jsstring :=
  match s with
  | [] => []
  | c :: rest =>
      match trimEnd rest with
      | [] => if is_ws c then [] else [c]
      | kept => c :: kept
      end
  end.
Definition trim (s : jsstring) : jsstring := trimEnd (trimStart s).

(** [text.replace(/re/g, replacement)] for a pattern that never matches the
    empty string.  [matchAt t] is the length of the match of the pattern at
    the start of [t], if there is one.  The scan goes left to right; after a
    match it resumes behind the match ([skip] counts the code units of the
    match still to be passed over). *)
Section Replace.
Variable matchAt : jsstring -> option nat.
Variable replacement : jsstring.

Fixpoint scan (skip : nat) (s : jsstring) : jsstring :=
  match s with
  | [] => []
  | c :: rest =>
      match skip with
      | S k => scan k rest
      | O =>
          match matchAt s with
          | Some (S n) => replacement ++ scan n rest
          | _ => c :: scan O rest
          end
      end
  end.

Definition replaceAll (s : jsstring) : jsstring := scan O s.
End Replace.

(** [/\r\n/] *)
Definition match_crlf (t : jsstring) : option nat :=
  match t with
  | a :: b :: _ => if (a =? CR) && (b =? LF) then Some 2%nat else None
  | _ => None
  end.

(** [/\t/] *)
Definition match_tab (t : jsstring) : option nat :=
  match t with
  | a :: _ => if a =? TAB then Some 1%nat else None
  | [] => None
  end.

(** Number of code units of the longest prefix of [run] that ends in a line
    feed. *)
Fixpoint lastLineFeed (run : jsstring) : option nat :=
  match run with
  | [] => None
  | c :: run' =>
      match lastLineFeed run' with
      | Some n => Some (S n)
      | None => if c =? LF then Some 1%nat else None
      end
  end.

(** [/\s+\n/].  [\s+] is greedy and needs one unit at least; it first takes
    the whole run of white space, then gives units back until the next unit
    is a line feed.  A line feed is itself in [\s], so the match is the
    first unit followed by the longest part of the run that ends in a line
    feed. *)
Definition match_ws_nl (t : jsstring) : option nat :=
  match t with
  | c :: rest =>
      if is_ws c then option_map S (lastLineFeed (takeWhile is_ws rest)) else None
  | [] => None
  end.

(** [/\n{3,}/]: a greedy run of three line feeds or more. *)
Definition match_nl3 (t : jsstring) : option nat :=
  let n := length (takeWhile (fun c => c =? LF) t) in
  if (3 <=? n)%nat then Some n else None.

Definition MAX_TEXT_LENGTH : Z := 100000.

(** The chain of [sanitizeText] before the final [substring]. *)
Definition normalizeText (text : jsstring) : jsstring :=
  replaceAll match_nl3 [LF; LF]
    (replaceAll match_ws_nl [LF]
      (replaceAll match_tab [SP; SP]
        (replaceAll match_crlf [LF]
          (trim text)))).

Definition sanitizeText (text : jsstring) : jsstring :=
  match text with
  | [] => []
  | _ => substring (normalizeText text) 0 MAX_TEXT_LENGTH
  end.

(** The sample of the documentation: "a\r\nb\t\tc\n\n\n\nd". *)
Definition sample_text : jsstring :=
  js "a" ++ [CR; LF] ++ js "b" ++ [TAB; TAB] ++ js "c" ++ [LF; LF; LF; LF] ++ js "d".

(** 99999 letters "a", a space and the letter "b": 100001 code units. *)
Definition long_text : jsstring :=
  repeat 97 (Z.to_nat 99999) ++ [SP; 98].

Definition jsstring_eqb (a b : jsstring) : bool :=
  if list_eq_dec Z.eq_dec a b then true else false.

(* ================================================================= *)
(** ** errors.ts: error kinds and classification *)

Inductive GeminiErrorType :=
| API_KEY_INVALID
| QUOTA_EXCEEDED
| TIMEOUT
| CONTENT_FILTERED
| NETWORK_ERROR
| RATE_LIMIT_EXCEEDED
| TOKEN_LIMIT_EXCEEDED
| INVALID_REQUEST
| SERVICE_UNAVAILABLE
| UNKNOWN.

Definition GeminiErrorType_eq_dec (a b : GeminiErrorType) : {a = b} + {a <> b}.
Proof. decide equality. Defined.

Definition GeminiErrorType_eqb (a b : GeminiErrorType) : bool :=
  if GeminiErrorType_eq_dec a b then true else false.

(** [array.includes(kind)] *)
Definition kindIn (kinds : list GeminiErrorType) (k : GeminiErrorType) : bool :=
  existsb (GeminiErrorType_eqb k) kinds.

(** A value that can be thrown and caught ([unknown] in the source).
    - [Falsy]: [undefined], [null], [0], the empty string, [false], [NaN];
    - [Value]: any other value that is not an [Error]; [message] is the
      property when it is a string, [status] / [statusCode] the properties
      when they are numbers;
    - [ErrorObj]: an [Error] that is not a [GeminiError];
    - [GeminiErr]: an instance of the class [GeminiError].
    [shown] is what [String(value)] yields for the first two; a value
    that cannot be converted to a string is outside the model. *)
#[warnings="-register-all"]
Inductive thrown :=
| Falsy (shown : jsstring)
| Value (shown : jsstring) (message : option jsstring) (status statusCode : option Z)
| ErrorObj (name message : jsstring) (status statusCode : option Z)
| GeminiErr (type : GeminiErrorType) (message : jsstring)
            (originalError : option thrown) (retryable : bool).

(** [new GeminiError(type, message)] and [new GeminiError(type, message,
    originalError)]: the fourth parameter defaults to [false]. *)
Definition newGeminiError2 (type : GeminiErrorType) (message : jsstring) : thrown :=
  GeminiErr type message None false.

Definition newGeminiError3 (type : GeminiErrorType) (message : jsstring)
           (originalError : thrown) : thrown :=
  GeminiErr type message (Some originalError) false.

Definition truthy (e : thrown) : bool :=
  match e with
  | Falsy _ => false
  | _ => true
  end.

Definition instanceofError (e : thrown) : bool :=
  match e with
  | ErrorObj _ _ _ _ | GeminiErr _ _ _ _ => true
  | _ => false
  end.

Definition instanceofGeminiError (e : thrown) : bool :=
  match e with
  | GeminiErr _ _ _ _ => true
  | _ => false
  end.

Definition errorName (e : thrown) : jsstring :=
  match e with
  | ErrorObj name _ _ _ => name
  | GeminiErr _ _ _ _ => js "GeminiError"
  | _ => []
  end.

(** [typeof errorObj?.message === 'string' ? errorObj.message : ''] *)
Definition messageOf (e : thrown) : jsstring :=
  match e with
  | Falsy _ => []
  | Value _ (Some m) _ _ => m
  | Value _ None _ _ => []
  | ErrorObj _ m _ _ => m
  | GeminiErr _ m _ _ => m
  end.

(** [status] when it is a number, else [statusCode] when it is a number. *)
Definition statusOf (e : thrown) : option Z :=
  match e with
  | Value _ _ (Some s) _ | ErrorObj _ _ (Some s) _ => Some s
  | Value _ _ None sc | ErrorObj _ _ None sc => sc
  | _ => None
  end.

(** [String(error)], as a template literal computes it;
    [Error.prototype.toString] for the two kinds of [Error]. *)
Definition errorToString (name message : jsstring) : jsstring :=
  match name, message with
  | [], _ => message
  | _, [] => name
  | _, _ => name ++ js ": " ++ message
  end.

Definition toStringJS (e : thrown) : jsstring :=
  match e with
  | Falsy shown => shown
  | Value shown _ _ _ => shown
  | ErrorObj name m _ _ => errorToString name m
  | GeminiErr _ m _ _ => errorToString (js "GeminiError") m
  end.

(** [undefined] and [null]: the values of which no property can be
    read. *)
Definition isNullish (value : thrown) : bool :=
  match value with
  | Falsy shown =>
      jsstring_eqb shown (js "undefined") || jsstring_eqb shown (js "null")
  | _ => false
  end.

(** The [TypeError] that reading [value.message] throws when [value] is
    [undefined] or [null], in the wording of V8. *)
Definition cannotReadMessage (value : thrown) : thrown :=
  ErrorObj (js "TypeError")
           (js "Cannot read properties of " ++ toStringJS value ++
            js " (reading 'message')")
           None None.

Definition statusIs (status : option Z) (code : Z) : bool :=
  match status with
  | Some s => s =? code
  | None => false
  end.

Definition statusAtLeast (status : option Z) (code : Z) : bool :=
  match status with
  | Some s => code <=? s
  | None => false
  end.

Definition inferErrorType (error : thrown) : GeminiErrorType :=
  if negb (truthy error) then UNKNOWN
  else
    let message := toLowerCase (messageOf error) in
    let status := statusOf error in
    if statusIs status 401 ||
       includes message (js "unauthorized") ||
       includes message (js "api key")
    then API_KEY_INVALID
    else if statusIs status 429 ||
            includes message (js "quota") ||
            includes message (js "rate limit")
    then (if includes message (js "quota")
          then QUOTA_EXCEEDED
          else RATE_LIMIT_EXCEEDED)
    else if statusIs status 400 || includes message (js "invalid")
    then INVALID_REQUEST
    else if statusAtLeast status 500 ||
            includes message (js "service unavailable") ||
            includes message (js "internal server")
    then SERVICE_UNAVAILABLE
    else if includes message (js "timeout") || includes message (js "timed out")
    then TIMEOUT
    else if includes message (js "content") && includes message (js "filter")
    then CONTENT_FILTERED
    else if includes message (js "network") || includes message (js "connection")
    then NETWORK_ERROR
    else if includes message (js "token") && includes message (js "limit")
    then TOKEN_LIMIT_EXCEEDED
    else UNKNOWN.

(** [GeminiError.prototype.isRetryable] *)
Definition isRetryable (type : GeminiErrorType) (retryable : bool) : bool :=
  retryable && kindIn [TIMEOUT; NETWORK_ERROR; SERVICE_UNAVAILABLE] type.

Definition isNonRetryableError (error : thrown) : bool :=
  match error with
  | GeminiErr type _ _ retryable => negb (isRetryable type retryable)
  | _ =>
      let errorType := inferErrorType error in
      kindIn [API_KEY_INVALID; CONTENT_FILTERED; TOKEN_LIMIT_EXCEEDED; INVALID_REQUEST]
             errorType
  end.

(* ================================================================= *)
(** ** Effects: state and exceptions *)

Inductive completion (A : Type) :=
| Normal (a : A)
| Throw (e : thrown).

Arguments Normal {A} a.
Arguments Throw {A} e.

(** A computation over a state of type [St]: it ends normally or throws,
    and leaves a state. *)
Definition M (St A : Type) : Type := St -> completion A * St.

Definition ret {St A} (a : A) : M St A := fun s => (Normal a, s).

Definition throw {St A} (e : thrown) : M St A := fun s => (Throw e, s).

Definition bind {St A B} (c : M St A) (k : A -> M St B) : M St B :=
  fun s =>
    match c s with
    | (Normal a, s') => k a s'
    | (Throw e, s') => (Throw e, s')
    end.

(** [try { body } catch (error) { handler }] *)
Definition tryCatch {St A} (body : M St A) (handler : thrown -> M St A) : M St A :=
  fun s =>
    match body s with
    | (Normal a, s') => (Normal a, s')
    | (Throw e, s') => handler e s'
    end.

Notation "x <- c ;; k" := (bind c (fun x => k))
  (at level 61, c at next level, right associativity).
Notation "c ;;; k" := (bind c (fun _ => k))
  (at level 61, right associativity).

(* ================================================================= *)
(** ** utils.ts: retry with exponential backoff *)

Section Retry.
Context {St T : Type}.
Variable operation : M St T.
Variable maxRetries : Z.
Variable baseBackoffMs : Z.

(** [await sleep(ms)] only lets time pass. *)
Definition sleep (ms : Z) : M St unit := ret tt.

(** [console.warn(`[Retry ...] ...`, { error: lastError.message,
    nextAttemptIn: ... })]: the argument is built first, and reading
    [message] of [undefined] or [null] throws; otherwise the line is
    printed. *)
Definition warnRetry (lastError : thrown) : M St unit :=
  if isNullish lastError then throw (cannotReadMessage lastError) else ret tt.

(** The [for] loop of [withRetry], from the iteration with counter
    [attempt] on.  [lastError] is the variable of the source; [fuel]
    bounds the number of iterations, and once it is used up the loop
    condition is false (see [retryLoop_fuel]).  What the [catch] block
    throws leaves [withRetry]: nothing encloses it. *)
Fixpoint retryLoop (fuel : nat) (attempt : Z) (lastError : thrown) : M St T :=
  match fuel with
  | O => throw lastError
  | S fuel' =>
      if attempt <=? maxRetries then
        tryCatch operation (fun error =>
          if isNonRetryableError error then throw error
          else if attempt >=? maxRetries then throw error
          else
            let backoffMs := baseBackoffMs * 2 ^ (attempt - 1) in
            sleep backoffMs ;;;
            warnRetry error ;;;
            retryLoop fuel' (attempt + 1) error)
      else throw lastError
  end.

Definition withRetry : M St T :=
  retryLoop (Z.to_nat maxRetries) 1 (Falsy (js "undefined")).
End Retry.

(** An operation together with a count of its invocations. *)
Definition counted {St T} (operation : M St T) : M (St * nat) T :=
  fun '(s, n) =>
    let (r, s') := operation s in (r, (s', S n)).

(** The state in which the [k]-th invocation of [operation] runs, counting
    from 0, when all invocations before it are made in a row. *)
Fixpoint stateBefore {St T} (operation : M St T) (k : nat) (s : St) : St :=
  match k with
  | O => s
  | S k' => stateBefore operation k' (snd (operation s))
  end.

(** Number of invocations counted at the end of a run. *)
Definition callsOf {St T} (run : completion T * (St * nat)) : nat := snd (snd run).

(* ================================================================= *)
(** ** types.ts and config.ts *)

Record AIConfig := {
  apiKey : jsstring;
  model : jsstring;
  maxTokens : Z;
  timeout : Z;
  debug : bool;
  rateLimitPerMinute : Z
}.

Record GeminiRequestOptions := {
  prompt : jsstring;
  optMaxTokens : option Z;
  temperature : option Q;
  topP : option Q;
  stopSequences : option (list jsstring)
}.

Record SafetyRating := {
  category : jsstring;
  probability : jsstring
}.

Record TokenUsage := {
  input : Z;
  output : Z;
  total : Z
}.

Record GeminiResponse := {
  text : jsstring;
  tokens : TokenUsage;
  finishReason : jsstring;
  safetyRatings : option (list SafetyRating)
}.

(** [APIUsageLog] without its [timestamp]. *)
Record APIUsageLog := {
  logModel : jsstring;
  inputTokens : Z;
  outputTokens : Z;
  latencyMs : Z;
  success : bool;
  error : option jsstring
}.

(** [a || b] on an optional number, an optional rational and on strings. *)
Definition orNumber (a : option Z) (b : Z) : Z :=
  match a with
  | Some n => if n =? 0 then b else n
  | None => b
  end.

Definition orRational (a : option Q) (b : Q) : Q :=
  match a with
  | Some q => if Qeq_bool q 0 then b else q
  | None => b
  end.

Definition orString (a : option jsstring) (b : jsstring) : jsstring :=
  match a with
  | Some (c :: s) => c :: s
  | _ => b
  end.

Fixpoint join (sep : jsstring) (parts : list jsstring) : jsstring :=
  match parts with
  | [] => []
  | [p] => p
  | p :: rest => p ++ sep ++ join sep rest
  end.

(** The checks of [validateConfig], in order. *)
Definition configErrors (config : AIConfig) : list jsstring :=
  (match apiKey config with
   | [] => [js "GEMINI_API_KEY is required"]
   | _ => []
   end) ++
  (if (maxTokens config <=? 0) || (50000 <? maxTokens config)
   then [js "GEMINI_MAX_TOKENS must be between 1 and 50000"] else []) ++
  (if (timeout config <=? 0) || (60000 <? timeout config)
   then [js "GEMINI_TIMEOUT_MS must be between 1 and 60000"] else []) ++
  (if (rateLimitPerMinute config <=? 0) || (1000 <? rateLimitPerMinute config)
   then [js "GEMINI_RATE_LIMIT must be between 1 and 1000"] else []).

(* ================================================================= *)
(** ** gemini-client.ts *)

(** What [generateContent] is called with. *)
Record ApiRequest := {
  reqModel : jsstring;
  reqText : jsstring;
  max_output_tokens : Z;
  reqTemperature : Q;
  top_p : Q;
  stop_sequences : option (list jsstring)
}.

(** What one call of [generateContent] does: it resolves with a response
    whose [text] may be missing, or it rejects. *)
Inductive TransportOutcome :=
| Resolved (responseText : option jsstring)
| Rejected (reason : thrown).

Record GeminiClient := {
  config : AIConfig;
  initialized : bool
}.

(** Everything outside the client.
    - [remote k request]: the outcome of the call of [generateContent] made
      after [k] earlier calls;
    - [sent]: the requests made so far, latest first;
    - [usage]: the logs handed to [logAPIUsage], latest first;
    - [timerReading]: what [timer.stop()] reads;
    - [environment]: the configuration that the environment variables hold,
      numbers already parsed;
    - [clientInstance]: the module-level singleton. *)
Record World := {
  remote : nat -> ApiRequest -> TransportOutcome;
  sent : list ApiRequest;
  usage : list APIUsageLog;
  timerReading : Z;
  environment : AIConfig;
  clientInstance : option GeminiClient
}.

Definition withSent (requests : list ApiRequest) (w : World) : World :=
  {| remote := remote w;
     sent := requests;
     usage := usage w;
     timerReading := timerReading w;
     environment := environment w;
     clientInstance := clientInstance w |}.

Definition withUsage (logs : list APIUsageLog) (w : World) : World :=
  {| remote := remote w;
     sent := sent w;
     usage := logs;
     timerReading := timerReading w;
     environment := environment w;
     clientInstance := clientInstance w |}.

Definition withClient (client : GeminiClient) (w : World) : World :=
  {| remote := remote w;
     sent := sent w;
     usage := usage w;
     timerReading := timerReading w;
     environment := environment w;
     clientInstance := Some client |}.

Definition generateContent (request : ApiRequest) : M World (option jsstring) :=
  fun w =>
    let w' := withSent (request :: sent w) w in
    match remote w (length (sent w)) request with
    | Resolved responseText => (Normal responseText, w')
    | Rejected reason => (Throw reason, w')
    end.

Definition logAPIUsage (log : APIUsageLog) : M World unit :=
  fun w => (Normal tt, withUsage (log :: usage w) w).

Definition timerStop : M World Z := fun w => (Normal (timerReading w), w).

Definition getGeminiConfig : M World AIConfig :=
  fun w =>
    let config := environment w in
    match configErrors config with
    | [] => (Normal config, w)
    | errors =>
        (Throw (ErrorObj (js "Error")
                         (js "Gemini configuration errors:" ++ [LF] ++ join [LF] errors)
                         None None), w)
    end.

(** [logConfigInfo] prints and returns. *)
Definition logConfigInfo (config : AIConfig) : M World unit := ret tt.

(** [new GeminiClient()]: the constructor, with [init] inlined.  Creating
    the transport object ([new GoogleGenAI]) is taken not to throw. *)
Definition newGeminiClient : M World GeminiClient :=
  config <- getGeminiConfig ;;
  tryCatch
    (logConfigInfo config ;;;
     ret {| config := config; initialized := true |})
    (fun error =>
       throw (newGeminiError3 API_KEY_INVALID
                (js "Failed to initialize Gemini client") error)).

Definition getGeminiClient : M World GeminiClient :=
  fun w =>
    match clientInstance w with
    | Some client => (Normal client, w)
    | None =>
        match newGeminiClient w with
        | (Normal client, w') => (Normal client, withClient client w')
        | (Throw e, w') => (Throw e, w')
        end
    end.

Record ApiCallResult := {
  resText : jsstring;
  resFinishReason : jsstring;
  resSafetyRatings : option (list SafetyRating)
}.

Definition isEmptyText (text : option jsstring) : bool :=
  match text with
  | Some (_ :: _) => false
  | _ => true
  end.

(** The argument of [generateContent] in [makeAPICall]. *)
Definition buildRequest (this : GeminiClient) (prompt : jsstring)
           (options : GeminiRequestOptions) : ApiRequest :=
  {| reqModel := model (config this);
     reqText := prompt;
     max_output_tokens := orNumber (optMaxTokens options) (maxTokens (config this));
     reqTemperature := orRational (temperature options) (7 # 10);
     top_p := orRational (topP options) (8 # 10);
     stop_sequences := stopSequences options |}.

Definition noTextMessage : jsstring :=
  js "No text generated - content may have been filtered".

Definition timeoutMessage (this : GeminiClient) : jsstring :=
  js "Request timed out after " ++ numberToString (timeout (config this)) ++ js "ms".

(** [error instanceof Error && error.name === 'AbortError'] *)
Definition isAbortError (error : thrown) : bool :=
  instanceofError error && jsstring_eqb (errorName error) (js "AbortError").

(** [makeAPICall].  The abort controller is created and its timer armed and
    cleared, but its signal is not handed to [generateContent]: the timer
    has no effect on the call, and [TIMEOUT] is raised only for a rejection
    whose [name] is [AbortError]. *)
Definition makeAPICall (this : GeminiClient) (prompt : jsstring)
           (options : GeminiRequestOptions) : M World ApiCallResult :=
  tryCatch
    (response <- generateContent (buildRequest this prompt options) ;;
     if isEmptyText response then
       throw (newGeminiError2 CONTENT_FILTERED noTextMessage)
     else
       ret {| resText := orString response [];
              resFinishReason := js "STOP";
              resSafetyRatings := None |})
    (fun error =>
       if isAbortError error then
         throw (newGeminiError2 TIMEOUT (timeoutMessage this))
       else throw error).

(** [finalPrompt] of [generateText]: the sanitised prompt, cut to the token
    budget when it is over it. *)
Definition finalPromptOf (this : GeminiClient) (options : GeminiRequestOptions) : jsstring :=
  let sanitizedPrompt := sanitizeText (prompt options) in
  let tokenValidation :=
    validateAndAdjustTokens sanitizedPrompt
      (orNumber (optMaxTokens options) (maxTokens (config this))) in
  orString (adjustedText tokenValidation) sanitizedPrompt.

Definition generateText (this : GeminiClient) (options : GeminiRequestOptions)
  : M World GeminiResponse :=
  if negb (initialized this) then
    throw (newGeminiError2 API_KEY_INVALID (js "Client not initialized"))
  else
    let finalPrompt := finalPromptOf this options in
    let inputTokens := estimateTokens finalPrompt in
    tryCatch
      (response <- withRetry (makeAPICall this finalPrompt options) 3 1000 ;;
       let outputTokens := estimateTokens (resText response) in
       latencyMs <- timerStop ;;
       logAPIUsage {| logModel := model (config this);
                      inputTokens := inputTokens;
                      outputTokens := outputTokens;
                      latencyMs := latencyMs;
                      success := true;
                      error := None |} ;;;
       ret {| text := resText response;
              tokens := {| input := inputTokens;
                           output := outputTokens;
                           total := inputTokens + outputTokens |};
              finishReason := orString (Some (resFinishReason response)) (js "STOP");
              safetyRatings := resSafetyRatings response |})
      (fun error =>
         latencyMs <- timerStop ;;
         logAPIUsage {| logModel := model (config this);
                        inputTokens := inputTokens;
                        outputTokens := 0;
                        latencyMs := latencyMs;
                        success := false;
                        error := Some (if instanceofError error
                                       then messageOf error
                                       else toStringJS error) |} ;;;
         if instanceofGeminiError error then throw error
         else
           let errorType := inferErrorType error in
           throw (newGeminiError3 errorType
                    (js "API call failed: " ++ toStringJS error) error)).

(** [healthCheck] around any probe; the client's own probe is below. *)
Definition healthCheckWith (probe : M World GeminiResponse) : M World bool :=
  tryCatch
    (result <- probe ;;
     ret (0 <? jslength (text result)))
    (fun error => ret false).

Definition healthProbe : GeminiRequestOptions :=
  {| prompt := js "Hello";
     optMaxTokens := Some 10;
     temperature := None;
     topP := None;
     stopSequences := None |}.

Definition healthCheck (this : GeminiClient) : M World bool :=
  healthCheckWith (generateText this healthProbe).

Definition checkGeminiHealth : M World bool :=
  tryCatch
    (client <- getGeminiClient ;;
     healthCheck client)
    (fun error => ret false).

(* ================================================================= *)
(** ** utils.ts: usage statistics *)

Record UsageStats := {
  totalRequests : Z;
  successRate : Q;
  averageLatency : Q;
  totalTokens : Z;
  averageTokensPerRequest : Q
}.

Definition calculateUsageStats (logs : list APIUsageLog) : UsageStats :=
  match logs with
  | [] =>
      {| totalRequests := 0;
         successRate := 0;
         averageLatency := 0;
         totalTokens := 0;
         averageTokensPerRequest := 0 |}
  | _ =>
      let successfulRequests := filter success logs in
      let totalTokens :=
        fold_left (fun sum log => sum + inputTokens log + outputTokens log) logs 0 in
      let totalLatency := fold_left (fun sum log => sum + latencyMs log) logs 0 in
      {| totalRequests := Z.of_nat (length logs);
         successRate :=
           (inject_Z (Z.of_nat (length successfulRequests)) /
            inject_Z (Z.of_nat (length logs))) * inject_Z 100;
         averageLatency := inject_Z totalLatency / inject_Z (Z.of_nat (length logs));
         totalTokens := totalTokens;
         averageTokensPerRequest :=
           inject_Z totalTokens / inject_Z (Z.of_nat (length logs)) |}
  end.

(* ================================================================= *)
(** ** Sample values *)

Definition defaultConfig : AIConfig :=
  {| apiKey := js "test-key";
     model := js "gemini-2.0-flash-001";
     maxTokens := 8192;
     timeout := 10000;
     debug := false;
     rateLimitPerMinute := 60 |}.

Definition readyClient : GeminiClient :=
  {| config := defaultConfig; initialized := true |}.

Definition promptOnly (p : jsstring) : GeminiRequestOptions :=
  {| prompt := p;
     optMaxTokens := None;
     temperature := None;
     topP := None;
     stopSequences := None |}.

(** A world whose transport behaves as [behaviour] says and in which
    nothing has happened yet. *)
Definition freshWorld (behaviour : nat -> ApiRequest -> TransportOutcome) : World :=
  {| remote := behaviour;
     sent := [];
     usage := [];
     timerReading := 0;
     environment := defaultConfig;
     clientInstance := None |}.

(** The rejection of an aborted request. *)
Definition abortError : thrown :=
  ErrorObj (js "AbortError") (js "This operation was aborted") None None.

Definition alwaysAborted : World := freshWorld (fun _ _ => Rejected abortError).

Definition alwaysSilent : World := freshWorld (fun _ _ => Resolved None).

(** What the documentation gives as the result for [sample_text]:
    "a\nb    c\n\nd". *)
Definition sample_documented : jsstring :=
  js "a" ++ [LF] ++ js "b    c" ++ [LF; LF] ++ js "d".

(* ================================================================= *)
(** ** Vocabulary of the properties *)

(** Code units outside the class [[가-힣]]. *)
Definition otherCount (text : jsstring) : Z :=
  Z.of_nat (length (filter (fun c => negb (isHangulSyllable c)) text)).

(** A service that is down: every invocation fails with an error that is
    classified as a network error. *)
Definition networkDown : thrown :=
  ErrorObj (js "Error") (js "Network connection lost") None None.

Definition failing : M nat Z := fun hits => (Throw networkDown, S hits).

(** An operation that always rejects with [undefined], as
    [() => Promise.reject(undefined)] does. *)
Definition rejecting : M nat Z := fun hits => (Throw (Falsy (js "undefined")), S hits).

(** The kind that the status code alone selects. *)
Definition statusKind (status : Z) : option GeminiErrorType :=
  if status =? 401 then Some API_KEY_INVALID
  else if status =? 429 then Some RATE_LIMIT_EXCEEDED
  else if status =? 400 then Some INVALID_REQUEST
  else if 500 <=? status then Some SERVICE_UNAVAILABLE
  else None.

(** The kinds of the rules that test the message only, for those that
    match the lower-cased message [m]. *)
Definition messageOnlyKinds (m : jsstring) : list GeminiErrorType :=
  (if includes m (js "timeout") || includes m (js "timed out") then [TIMEOUT] else []) ++
  (if includes m (js "content") && includes m (js "filter")
   then [CONTENT_FILTERED] else []) ++
  (if includes m (js "network") || includes m (js "connection")
   then [NETWORK_ERROR] else []) ++
  (if includes m (js "token") && includes m (js "limit")
   then [TOKEN_LIMIT_EXCEEDED] else []).

(** The keywords tested by the four rules that also test the status. *)
Definition statusRuleKeywords : list jsstring :=
  [js "unauthorized"; js "api key"; js "quota"; js "rate limit"; js "invalid";
   js "service unavailable"; js "internal server"].

Definition mentionsAny (m : jsstring) (keywords : list jsstring) : bool :=
  existsb (includes m) keywords.

(** The rules of the classifier as a table, in the order in which they
    are tried.  A rule fires on a status code, on any one of some keywords
    in the lower-cased message, or on all of some keywords together; the
    first rule that fires gives the kind, and [UNKNOWN] is the kind when
    none does. *)
Record Rule := {
  ruleKind : GeminiErrorType;
  ruleStatus : Z -> bool;
  anyKeyword : list jsstring;
  allKeywords : list jsstring
}.

Definition fires (rule : Rule) (status : option Z) (m : jsstring) : bool :=
  match status with
  | Some s => ruleStatus rule s
  | None => false
  end ||
  existsb (includes m) (anyKeyword rule) ||
  match allKeywords rule with
  | [] => false
  | keywords => forallb (includes m) keywords
  end.

Definition noStatus (s : Z) : bool := false.

Definition rulesInOrder : list Rule :=
  [ {| ruleKind := API_KEY_INVALID;
       ruleStatus := fun s => s =? 401;
       anyKeyword := [js "unauthorized"; js "api key"];
       allKeywords := [] |};
    {| ruleKind := QUOTA_EXCEEDED;
       ruleStatus := noStatus;
       anyKeyword := [js "quota"];
       allKeywords := [] |};
    {| ruleKind := RATE_LIMIT_EXCEEDED;
       ruleStatus := fun s => s =? 429;
       anyKeyword := [js "rate limit"];
       allKeywords := [] |};
    {| ruleKind := INVALID_REQUEST;
       ruleStatus := fun s => s =? 400;
       anyKeyword := [js "invalid"];
       allKeywords := [] |};
    {| ruleKind := SERVICE_UNAVAILABLE;
       ruleStatus := fun s => 500 <=? s;
       anyKeyword := [js "service unavailable"; js "internal server"];
       allKeywords := [] |};
    {| ruleKind := TIMEOUT;
       ruleStatus := noStatus;
       anyKeyword := [js "timeout"; js "timed out"];
       allKeywords := [] |};
    {| ruleKind := CONTENT_FILTERED;
       ruleStatus := noStatus;
       anyKeyword := [];
       allKeywords := [js "content"; js "filter"] |};
    {| ruleKind := NETWORK_ERROR;
       ruleStatus := noStatus;
       anyKeyword := [js "network"; js "connection"];
       allKeywords := [] |};
    {| ruleKind := TOKEN_LIMIT_EXCEEDED;
       ruleStatus := noStatus;
       anyKeyword := [];
       allKeywords := [js "token"; js "limit"] |} ].

Fixpoint firstFiring (rules : list Rule) (status : option Z) (m : jsstring)
  : GeminiErrorType :=
  match rules with
  | [] => UNKNOWN
  | rule :: rest =>
      if fires rule status m then ruleKind rule else firstFiring rest status m
  end.

(** The keywords of the rules that are tried before the rule of kind
    [k]. *)
Fixpoint keywordsBefore (rules : list Rule) (k : GeminiErrorType) : list jsstring :=
  match rules with
  | [] => []
  | rule :: rest =>
      if GeminiErrorType_eqb (ruleKind rule) k then []
      else anyKeyword rule ++ keywordsBefore rest k
  end.

(** An error with status 503 whose message says "invalid" and "timeout". *)
Definition invalidUpstream : thrown :=
  ErrorObj (js "Error") (js "Invalid response: upstream timeout") (Some 503) None.

(** Status 503 with a message that only a message-only rule matches. *)
Definition gatewayTimeout : thrown :=
  ErrorObj (js "Error") (js "Upstream request timeout") (Some 503) None.

(** Status 429 with the message of its own rule. *)
Definition rateLimited : thrown :=
  ErrorObj (js "Error") (js "Rate limit exceeded") (Some 429) None.

Definition quotaRateLimit : thrown :=
  ErrorObj (js "Error") (js "Rate limit hit: quota exhausted") None None.

Definition networkTimeout : thrown :=
  ErrorObj (js "Error") (js "Network timeout") None None.

(** What [makeAPICall] makes of the outcome of the transport. *)
Definition callOutcome (this : GeminiClient) (outcome : TransportOutcome)
  : completion ApiCallResult :=
  match outcome with
  | Resolved responseText =>
      if isEmptyText responseText
      then Throw (newGeminiError2 CONTENT_FILTERED noTextMessage)
      else Normal {| resText := orString responseText [];
                     resFinishReason := js "STOP";
                     resSafetyRatings := None |}
  | Rejected reason =>
      if isAbortError reason
      then Throw (newGeminiError2 TIMEOUT (timeoutMessage this))
      else Throw reason
  end.

(** The log that [generateText] hands over when the request has failed. *)
Definition failureLog (this : GeminiClient) (options : GeminiRequestOptions)
           (w : World) (error : thrown) : APIUsageLog :=
  {| logModel := model (config this);
     inputTokens := estimateTokens (finalPromptOf this options);
     outputTokens := 0;
     latencyMs := timerReading w;
     success := false;
     error := Some (if instanceofError error then messageOf error
                    else toStringJS error) |}.

(** No suffix of [s] starts with a match of the pattern. *)
Fixpoint noMatch (matchAt : jsstring -> option nat) (s : jsstring) : Prop :=
  match s with
  | [] => True
  | _ :: rest => matchAt s = None /\ noMatch matchAt rest
  end.

Definition startsClean (s : jsstring) : Prop :=
  match s with
  | [] => True
  | c :: _ => is_ws c = false
  end.

Definition endsClean (s : jsstring) : Prop :=
  s = [] \/ exists s' c, s = s' ++ [c] /\ is_ws c = false.

(** A pattern whose matches consist of white space. *)
Class WhitePattern (matchAt : jsstring -> option nat) : Prop := {
  white_head : forall c rest, is_ws c = false -> matchAt (c :: rest) = None;
  white_snoc : forall t c, is_ws c = false -> matchAt (t ++ [c]) = matchAt t;
  white_length : forall t n, matchAt t = Some n -> (n <= length t)%nat
}.

(** The text after trimming and the first three replacements. *)
Definition lineEndsDone (text : jsstring) : jsstring :=
  replaceAll match_ws_nl [LF]
    (replaceAll match_tab [SP; SP]
      (replaceAll match_crlf [LF]
        (trim text))).

(** What [generateText] throws for the error that the retry executor
    ended with: the error itself when it is a [GeminiError], else a new
    [GeminiError] of the inferred kind around it. *)
Definition wrapError (error : thrown) : thrown :=
  if instanceofGeminiError error then error
  else newGeminiError3 (inferErrorType error)
         (js "API call failed: " ++ toStringJS error) error.

(** The log that [generateText] hands over when the request has succeeded. *)
Definition successLog (this : GeminiClient) (options : GeminiRequestOptions)
           (w : World) (response : ApiCallResult) : APIUsageLog :=
  {| logModel := model (config this);
     inputTokens := estimateTokens (finalPromptOf this options);
     outputTokens := estimateTokens (resText response);
     latencyMs := timerReading w;
     success := true;
     error := None |}.

(** The response that [generateText] returns for the result of a call. *)
Definition successResponse (this : GeminiClient) (options : GeminiRequestOptions)
           (response : ApiCallResult) : GeminiResponse :=
  {| text := resText response;
     tokens := {| input := estimateTokens (finalPromptOf this options);
                  output := estimateTokens (resText response);
                  total := estimateTokens (finalPromptOf this options) +
                           estimateTokens (resText response) |};
     finishReason := orString (Some (resFinishReason response)) (js "STOP");
     safetyRatings := resSafetyRatings response |}.

(** The request that [generateText] sends. *)
Definition requestOf (this : GeminiClient) (options : GeminiRequestOptions) : ApiRequest :=
  buildRequest this (finalPromptOf this options) options.

(** The transport rejects with an error that [makeAPICall] passes on and
    after which [withRetry] goes on to the next attempt: one that may be
    retried and is not [undefined] or [null]. *)
Definition retriedRejection (outcome : TransportOutcome) : Prop :=
  exists e, outcome = Rejected e /\ isAbortError e = false /\
            isNonRetryableError e = false /\ isNullish e = false.

(** The errors after which [withRetry] makes another attempt, when one is
    left. *)
Definition retriedAgain (e : thrown) : Prop :=
  match e with
  | GeminiErr type _ _ flag =>
      flag = true /\ In type [TIMEOUT; NETWORK_ERROR; SERVICE_UNAVAILABLE]
  | Falsy shown => shown <> js "undefined" /\ shown <> js "null"
  | _ =>
      In (inferErrorType e)
         [QUOTA_EXCEEDED; TIMEOUT; NETWORK_ERROR; RATE_LIMIT_EXCEEDED;
          SERVICE_UNAVAILABLE; UNKNOWN]
  end.

(** A message of ASCII characters. *)
Definition isAscii (s : jsstring) : Prop := Forall (fun c => 0 <= c < 128) s.

(** "API KEY expired", its K written as the Kelvin sign U+212A. *)
Definition kelvinKey : jsstring := js "API " ++ [0x212A] ++ js "EY expired".

(** What [withRetry] makes of the outcome of the invocation it ends with:
    before the last attempt, a thrown [undefined] or [null] gives way to
    the [TypeError] of the warning. *)
Definition settled {T : Type} (lastAttempt : bool) (outcome : completion T)
  : completion T :=
  match outcome with
  | Throw e =>
      if negb lastAttempt && isNullish e then Throw (cannotReadMessage e)
      else outcome
  | Normal _ => outcome
  end.

(** The conditions that [validateConfig] checks, for a configuration whose
    numbers are integers. *)
Definition configValid (c : AIConfig) : Prop :=
  apiKey c <> [] /\
  0 < maxTokens c <= 50000 /\
  0 < timeout c <= 60000 /\
  0 < rateLimitPerMinute c <= 1000.

(** The world with other environment variables. *)
Definition withEnvironment (env : AIConfig) (w : World) : World :=
  {| remote := remote w;
     sent := sent w;
     usage := usage w;
     timerReading := timerReading w;
     environment := env;
     clientInstance := clientInstance w |}.

(** The module-level function [generateText(prompt, maxTokens)]. *)
Definition generateTextOf (prompt : jsstring) (maxTokens : option Z) : M World jsstring :=
  client <- getGeminiClient ;;
  response <- generateText client
                {| prompt := prompt;
                   optMaxTokens := maxTokens;
                   temperature := None;
                   topP := None;
                   stopSequences := None |} ;;
  ret (text response).

(** A configuration without an API key. *)
Definition keylessWorld : World :=
  withEnvironment
    {| apiKey := [];
       model := js "gemini-2.0-flash-001";
       maxTokens := 8192;
       timeout := 10000;
       debug := false;
       rateLimitPerMinute := 60 |}
    alwaysSilent.

(** Two different message lines are told apart by evaluation. *)
Ltac other_line H := vm_compute in H; discriminate H.

(* ================================================================= *)
(** ** errors.ts: messages for the user *)

(** The code units of a literal that holds text outside ASCII: the bytes
    of the literal are UTF-8, a JavaScript string is UTF-16. *)
Fixpoint utf8Units (bytes : list Z) : jsstring :=
  match bytes with
  | [] => []
  | b0 :: rest =>
      if b0 <? 0x80 then b0 :: utf8Units rest
      else if b0 <? 0xE0 then
        match rest with
        | b1 :: rest1 =>
            ((b0 - 0xC0) * 64 + (b1 - 0x80)) :: utf8Units rest1
        | [] => []
        end
      else if b0 <? 0xF0 then
        match rest with
        | b1 :: b2 :: rest2 =>
            ((b0 - 0xE0) * 4096 + (b1 - 0x80) * 64 + (b2 - 0x80)) :: utf8Units rest2
        | _ => []
        end
      else
        match rest with
        | b1 :: b2 :: b3 :: rest3 =>
            let point := (b0 - 0xF0) * 262144 + (b1 - 0x80) * 4096 +
                         (b2 - 0x80) * 64 + (b3 - 0x80) in
            (0xD800 + (point - 0x10000) / 1024) ::
            (0xDC00 + (point - 0x10000) mod 1024) :: utf8Units rest3
        | _ => []
        end
  end.

Definition ko (s : string) : jsstring := utf8Units (js s).

Definition genericMessage : jsstring :=
  ko "AI 처리 중 오류가 발생했습니다. 다시 시도해주세요.".

(** The [switch] of [getErrorMessage]. *)
Definition messageOfKind (type : GeminiErrorType) : jsstring :=
  match type with
  | API_KEY_INVALID => ko "API 키가 유효하지 않습니다. 설정을 확인해주세요."
  | QUOTA_EXCEEDED => ko "API 사용량 한도를 초과했습니다. 잠시 후 다시 시도해주세요."
  | RATE_LIMIT_EXCEEDED => ko "요청 속도 제한을 초과했습니다. 잠시 후 다시 시도해주세요."
  | TIMEOUT => ko "요청 시간이 초과되었습니다. 다시 시도해주세요."
  | CONTENT_FILTERED => ko "콘텐츠가 필터링되었습니다. 다른 내용으로 시도해주세요."
  | TOKEN_LIMIT_EXCEEDED => ko "텍스트가 너무 깁니다. 더 짧은 내용으로 시도해주세요."
  | SERVICE_UNAVAILABLE =>
      ko "AI 서비스를 일시적으로 사용할 수 없습니다. 잠시 후 다시 시도해주세요."
  | _ => genericMessage
  end.

Definition getErrorMessage (error : thrown) : jsstring :=
  match error with
  | GeminiErr type _ _ _ => messageOfKind type
  | _ => genericMessage
  end.

(* ================================================================= *)
(** ** gemini-client.ts: the groups of a batch *)

(** [array.slice(start, end)] for [0 <= start <= end]. *)
Definition slice {A : Type} (items : list A) (start stop : Z) : list A :=
  firstn (Z.to_nat (stop - start)) (skipn (Z.to_nat start) items).

(** The loop of [generateTextBatch], for the groups it forms:
    [requests.slice(i, i + batchSize)] for [i = 0, 5, 10, ...] while
    [i < requests.length].  The requests of a group are started together
    and the groups one after the other; how the requests of a group
    interleave is not part of the model.  The loop ends within
    [requests.length] iterations, which is the fuel. *)
Fixpoint batchesFrom {A : Type} (fuel : nat) (requests : list A) (i : Z) : list (list A) :=
  match fuel with
  | O => []
  | S fuel' =>
      if i <? Z.of_nat (length requests)
      then slice requests i (i + 5) :: batchesFrom fuel' requests (i + 5)
      else []
  end.

Definition batchesOf {A : Type} (requests : list A) : list (list A) :=
  batchesFrom (length requests) requests 0.

(** Two logs, one of a success and one of a failure. *)
Definition okLog : APIUsageLog :=
  {| logModel := js "gemini-2.0-flash-001"; inputTokens := 3; outputTokens := 5;
     latencyMs := 120; success := true; error := None |}.

Definition koLog : APIUsageLog :=
  {| logModel := js "gemini-2.0-flash-001"; inputTokens := 7; outputTokens := 0;
     latencyMs := 900; success := false; error := Some (js "Request timeout") |}.

(* ================================================================= *)
(** * Properties *)

(* ================================================================= *)
(** ** Token estimation *)

Lemma Qceiling_tokens (k e : Z) :
  Qceiling (inject_Z k / (5 # 2) + inject_Z e / (4 # 1)) = (8 * k + 5 * e + 19) / 20.
Proof.
  unfold Qceiling, Qfloor.
  cbv [Qdiv Qinv Qmult Qplus Qopp inject_Z Qnum Qden].
  change (Z.pos (1 * 5 * (1 * 4))) with 20.
  change (Z.pos (1 * 5)) with 5. change (Z.pos (1 * 4)) with 4.
  set (m := 8 * k + 5 * e).
  replace (k * 2 * 4 + e * 1 * 5) with m by lia.
  pose proof (Z.div_mod (- m) 20 ltac:(lia)) as H1.
  pose proof (Z.mod_pos_bound (- m) 20 ltac:(lia)) as H2.
  pose proof (Z.div_mod (m + 19) 20 ltac:(lia)) as H3.
  pose proof (Z.mod_pos_bound (m + 19) 20 ltac:(lia)) as H4.
  lia.
Qed.

Lemma estimateTokens_Z (text : jsstring) :
  text <> [] ->
  estimateTokens text =
  Z.max 1 ((8 * koreanCount text + 5 * (jslength text - koreanCount text) + 19) / 20).
Proof.
  intros Hne. destruct text as [|c rest]; [congruence|].
  unfold estimateTokens. now rewrite Qceiling_tokens.
Qed.

Lemma englishChars_otherCount (text : jsstring) :
  jslength text - koreanCount text = otherCount text.
Proof.
  unfold jslength, koreanCount, otherCount.
  rewrite <- (filter_length isHangulSyllable text). lia.
Qed.

(** C7.  [estimateTokens] is 0 on the empty text.  On a text that is not
    empty it is the sum of the Hangul-syllable code units at 2.5 to the
    token and of all other code units at 4 to the token, rounded up, and at
    least 1: the least integer [r >= 1] with
    [r >= dense / 2.5 + other / 4].  "Hello" and "안녕하세요" both give 2. *)
Theorem estimateTokens_spec :
  estimateTokens [] = 0 /\
  (forall c rest,
      let text := c :: rest in
      let r := estimateTokens text in
      r = Z.max 1 (Qceiling (inject_Z (koreanCount text) / (5 # 2) +
                             inject_Z (otherCount text) / (4 # 1))) /\
      1 <= r /\
      8 * koreanCount text + 5 * otherCount text <= 20 * r /\
      (r = 1 \/ 20 * (r - 1) < 8 * koreanCount text + 5 * otherCount text)) /\
  estimateTokens hello = 2 /\
  estimateTokens annyeong = 2.
Proof.
  split; [reflexivity|]. split; [|split; reflexivity].
  intros c rest text r.
  assert (Hr : r = Z.max 1 ((8 * koreanCount text + 5 * otherCount text + 19) / 20)).
  { unfold r. rewrite estimateTokens_Z by discriminate.
    now rewrite englishChars_otherCount. }
  split.
  - rewrite Qceiling_tokens. exact Hr.
  - set (m := 8 * koreanCount text + 5 * otherCount text) in *.
    pose proof (Z.div_mod (m + 19) 20 ltac:(lia)) as H1.
    pose proof (Z.mod_pos_bound (m + 19) 20 ltac:(lia)) as H2.
    lia.
Qed.

(* ================================================================= *)
(** ** Usage statistics *)

(** C9.  On the empty sequence of logs [calculateUsageStats] returns zero
    in every field: the early return is taken and no division is made.  On
    any other sequence the divisor, the number of logs, is positive. *)
Theorem calculateUsageStats_empty :
  calculateUsageStats [] =
  {| totalRequests := 0;
     successRate := 0;
     averageLatency := 0;
     totalTokens := 0;
     averageTokensPerRequest := 0 |} /\
  (forall log logs,
      let stats := calculateUsageStats (log :: logs) in
      0 < totalRequests stats /\
      totalRequests stats = Z.of_nat (length (log :: logs)) /\
      successRate stats ==
        inject_Z (100 * Z.of_nat (length (filter success (log :: logs)))) /
        inject_Z (totalRequests stats)).
Proof.
  split; [reflexivity|].
  intros log logs stats. unfold stats, calculateUsageStats.
  cbn [totalRequests successRate].
  set (n := Z.of_nat (length (log :: logs))).
  set (k := Z.of_nat (length (filter success (log :: logs)))).
  assert (Hn : 0 < n) by (unfold n; cbn [length]; lia).
  split; [exact Hn|]. split; [reflexivity|].
  rewrite inject_Z_mult. field.
  intros H0. unfold Qeq, inject_Z in H0. cbn [Qnum Qden] in H0. lia.
Qed.

(* ================================================================= *)
(** ** The documented sample of [sanitizeText] *)

(** C2 states that [sanitizeText] maps "a\r\nb\t\tc\n\n\n\nd" to
    "a\nb    c\n\nd", four line feeds becoming two.  The code returns
    "a\nb    c\nd": the four line feeds are matched as a whole by [/\s+\n/]
    and leave one line feed. *)
Theorem sanitizeText_sample :
  sanitizeText sample_text = js "a" ++ [LF] ++ js "b    c" ++ [LF] ++ js "d" /\
  sanitizeText sample_text <> sample_documented.
Proof.
  split; [reflexivity|].
  intros H. vm_compute in H. discriminate H.
Qed.

(** The rule for the end of a line already reduces the run of line feeds. *)
Example four_line_feeds :
  replaceAll match_ws_nl [LF] (js "c" ++ [LF; LF; LF; LF] ++ js "d") =
  js "c" ++ [LF] ++ js "d".
Proof. reflexivity. Qed.

(* ================================================================= *)
(** ** The token budget *)

(** C3 states that a text over the budget [maxTokens - 2000] is adjusted to
    a text whose estimate is within it.  The code, on eight letters against
    [maxTokens = 2001] (one input token allowed): the estimate is 2, the text
    is cut to four letters and the marker, and the estimate of the adjusted
    text is still 2. *)
Theorem validateAndAdjustTokens_over_budget :
  let t := js "aaaaaaaa" in
  let maxTokens := 2001 in
  let v := validateAndAdjustTokens t maxTokens in
  estimateTokens t > maxTokens - 2000 /\
  adjustedText v = Some (js "aaaa...") /\
  estimatedTokens v = 2 /\
  estimatedTokens v > maxTokens - 2000.
Proof. vm_compute. repeat split; reflexivity. Qed.

(** The same with the default [maxTokens = 8192] and 24772 letters. *)
Example over_budget_default :
  let t := repeat 97 (Z.to_nat 24772) in
  let v := validateAndAdjustTokens t 8192 in
  estimateTokens t = 6193 /\
  option_map jslength (adjustedText v) = Some 24771 /\
  estimatedTokens v = 6193 /\
  estimatedTokens v > 8192 - 2000.
Proof. vm_compute. repeat split; reflexivity. Qed.

(** Without a budget ([maxTokens <= 2000]) every text that is over it is
    replaced by the marker alone, whose estimate is 1. *)
Lemma no_budget_marker_only (t : jsstring) (maxTokens : Z) :
  maxTokens <= 2000 ->
  estimateTokens t > maxTokens - 2000 ->
  let v := validateAndAdjustTokens t maxTokens in
  adjustedText v = Some (js "...") /\ estimatedTokens v = 1.
Proof.
  intros Hmax Hover v. unfold v, validateAndAdjustTokens.
  destruct (Z.leb_spec (estimateTokens t) (maxTokens - 2000)) as [Hle|_]; [lia|].
  cbn [adjustedText estimatedTokens].
  assert (Hcut : substring t 0 (jslength t * (maxTokens - 2000) / estimateTokens t) = []).
  { assert (Hq : jslength t * (maxTokens - 2000) / estimateTokens t <= 0).
    { destruct (Z.eq_dec (estimateTokens t) 0) as [->|Hne].
      - rewrite Z.div_0_r. lia.
      - assert (0 < estimateTokens t).
        { destruct t as [|c rest]; [contradiction Hne; reflexivity|].
          rewrite estimateTokens_Z by discriminate. lia. }
        apply Z.div_le_upper_bound; [lia|].
        unfold jslength. nia. }
    set (q := jslength t * (maxTokens - 2000) / estimateTokens t) in *.
    unfold substring, clamp.
    assert (0 <= jslength t) by (unfold jslength; lia).
    replace (Z.max 0 (Z.min 0 (jslength t))) with 0 by lia.
    replace (Z.max 0 (Z.min q (jslength t))) with 0 by lia.
    reflexivity. }
  rewrite Hcut. split; reflexivity.
Qed.

(** The probe of the health check asks for [maxTokens = 10]: the budget is
    negative and the prompt that is sent is the marker alone. *)
Example health_probe_prompt :
  finalPromptOf readyClient healthProbe = js "...".
Proof. reflexivity. Qed.

(* ================================================================= *)
(** ** Retryability of the client's own errors *)

Lemma newGeminiError2_not_retried (type : GeminiErrorType) (message : jsstring) :
  isNonRetryableError (newGeminiError2 type message) = true.
Proof. reflexivity. Qed.

(** C1 states that the [TIMEOUT] error of an expired deadline is retried
    while attempts are left.  The code builds the [TIMEOUT] error of
    [makeAPICall] without the [retryable] flag, so [isNonRetryableError]
    holds for it; when every request is aborted, [withRetry] with three
    attempts allowed makes one request and throws that error. *)
Theorem timeout_error_not_retried :
  (forall this, isNonRetryableError (newGeminiError2 TIMEOUT (timeoutMessage this)) = true) /\
  (let run :=
     withRetry (makeAPICall readyClient (js "Hello") (promptOnly (js "Hello"))) 3 1000
               alwaysAborted in
   fst run = Throw (newGeminiError2 TIMEOUT (js "Request timed out after 10000ms")) /\
   length (sent (snd run)) = 1%nat).
Proof.
  split; [intros; reflexivity|].
  vm_compute. split; reflexivity.
Qed.

(** A rejection that is classified as a timeout by its message alone is
    retried: three requests are made. *)
Example plain_timeout_retried :
  let w := freshWorld (fun _ _ => Rejected (ErrorObj (js "Error") (js "Request timeout") None None)) in
  let run :=
    withRetry (makeAPICall readyClient (js "Hello") (promptOnly (js "Hello"))) 3 1000 w in
  length (sent (snd run)) = 3%nat.
Proof. reflexivity. Qed.

(* ================================================================= *)
(** ** The retry executor *)

Section RetryLoop.
Context {St T : Type}.
Variable operation : M St T.
Variable maxRetries : Z.
Variable baseBackoffMs : Z.

Let loop := retryLoop operation maxRetries baseBackoffMs.

(** One iteration of the loop, by the outcome of the invocation. *)
Lemma retryLoop_step (fuel : nat) (attempt : Z) (lastError : thrown) (s : St) :
  attempt <= maxRetries ->
  loop (S fuel) attempt lastError s =
  match fst (operation s) with
  | Normal v => (Normal v, snd (operation s))
  | Throw e =>
      if isNonRetryableError e then (Throw e, snd (operation s))
      else if attempt >=? maxRetries then (Throw e, snd (operation s))
      else if isNullish e then (Throw (cannotReadMessage e), snd (operation s))
      else loop fuel (attempt + 1) e (snd (operation s))
  end.
Proof.
  intros Hle. unfold loop. cbn [retryLoop].
  apply Z.leb_le in Hle. rewrite Hle.
  unfold tryCatch. destruct (operation s) as [[v|e] s']; cbn [fst snd]; [reflexivity|].
  destruct (isNonRetryableError e); [reflexivity|].
  destruct (attempt >=? maxRetries); [reflexivity|].
  unfold bind, sleep, ret, warnRetry. destruct (isNullish e); reflexivity.
Qed.

Lemma retryLoop_exit (fuel : nat) (attempt : Z) (lastError : thrown) (s : St) :
  maxRetries < attempt ->
  loop fuel attempt lastError s = (Throw lastError, s).
Proof.
  intros Hlt. unfold loop. destruct fuel as [|fuel]; [reflexivity|].
  cbn [retryLoop]. apply Z.leb_gt in Hlt. now rewrite Hlt.
Qed.

(** The fuel of [withRetry] is enough: with more of it the loop does the
    same. *)
Lemma retryLoop_fuel (fuel extra : nat) (attempt : Z) (lastError : thrown) (s : St) :
  maxRetries - attempt + 1 <= Z.of_nat fuel ->
  loop (fuel + extra) attempt lastError s = loop fuel attempt lastError s.
Proof.
  revert attempt lastError s.
  induction fuel as [|fuel IH]; intros attempt lastError s Hfuel.
  - rewrite !retryLoop_exit by lia. reflexivity.
  - destruct (Z_le_gt_dec attempt maxRetries) as [Hle|Hgt].
    + cbn [Nat.add]. rewrite !retryLoop_step by exact Hle.
      destruct (fst (operation s)) as [v|e]; [reflexivity|].
      destruct (isNonRetryableError e); [reflexivity|].
      destruct (attempt >=? maxRetries); [reflexivity|].
      destruct (isNullish e); [reflexivity|].
      apply IH. lia.
    + rewrite !retryLoop_exit by lia. reflexivity.
Qed.

(** A result that is returned is the result of an invocation. *)
Lemma retryLoop_returns (fuel : nat) (attempt : Z) (lastError : thrown)
      (s s' : St) (v : T) :
  loop fuel attempt lastError s = (Normal v, s') ->
  exists s0, operation s0 = (Normal v, s').
Proof.
  revert attempt lastError s.
  induction fuel as [|fuel IH]; intros attempt lastError s H.
  - discriminate H.
  - destruct (Z_le_gt_dec attempt maxRetries) as [Hle|Hgt].
    + rewrite retryLoop_step in H by exact Hle.
      destruct (operation s) as [[v0|e] s1] eqn:Hop; cbn [fst snd] in H.
      * exists s. rewrite Hop. exact H.
      * destruct (isNonRetryableError e); [discriminate H|].
        destruct (attempt >=? maxRetries); [discriminate H|].
        destruct (isNullish e); [discriminate H|].
        exact (IH _ _ _ H).
    + rewrite retryLoop_exit in H by lia. discriminate H.
Qed.

(** When the invocations before the [j]-th throw errors after which the
    loop goes on, and the [j]-th returns or throws an error that must not
    be retried, the loop ends with the [j]-th invocation. *)
Lemma retryLoop_decisive (j fuel : nat) (attempt : Z) (lastError : thrown) (s : St) :
  Z.of_nat fuel = maxRetries - attempt + 1 ->
  (j < fuel)%nat ->
  (forall k, (k < j)%nat ->
     exists e, fst (operation (stateBefore operation k s)) = Throw e /\
               isNonRetryableError e = false /\ isNullish e = false) ->
  match fst (operation (stateBefore operation j s)) with
  | Normal _ => True
  | Throw e => isNonRetryableError e = true
  end ->
  loop fuel attempt lastError s = operation (stateBefore operation j s).
Proof.
  revert fuel attempt lastError s.
  induction j as [|j IH]; intros fuel attempt lastError s Hfuel Hj Hbefore Hlast;
    (destruct fuel as [|fuel]; [lia|]); rewrite retryLoop_step by lia.
  - cbn [stateBefore] in *.
    destruct (operation s) as [[v|e] s']; cbn [fst snd] in *; [reflexivity|].
    now rewrite Hlast.
  - destruct (Hbefore 0%nat ltac:(lia)) as [e [He [Hre Hnn]]]. cbn [stateBefore] in He.
    rewrite He, Hre, Hnn.
    destruct (Z.geb_spec attempt maxRetries) as [Hge|Hlt]; [lia|].
    cbn [stateBefore]. apply IH; [lia|lia| |exact Hlast].
    intros k Hk. apply (Hbefore (S k)). lia.
Qed.

(** When every invocation throws an error that may be retried, and none
    but the last throws [undefined] or [null], the loop uses all the
    attempts that are left and throws the error of the last one. *)
Lemma retryLoop_exhausted (fuel : nat) (attempt : Z) (lastError : thrown) (s : St) :
  Z.of_nat fuel = maxRetries - attempt + 1 ->
  (forall k, (k < fuel)%nat ->
     exists e, fst (operation (stateBefore operation k s)) = Throw e /\
               isNonRetryableError e = false /\
               ((S k < fuel)%nat -> isNullish e = false)) ->
  let run := loop fuel attempt lastError s in
  snd run = stateBefore operation fuel s /\
  match fuel with
  | O => fst run = Throw lastError
  | S last => fst run = fst (operation (stateBefore operation last s))
  end.
Proof.
  revert attempt lastError s.
  induction fuel as [|fuel IH]; intros attempt lastError s Hfuel Hall run.
  - unfold run, loop. cbn. split; reflexivity.
  - unfold run. rewrite retryLoop_step by lia.
    destruct (Hall 0%nat ltac:(lia)) as [e [He [Hre Hnn]]]. cbn [stateBefore] in He.
    rewrite He, Hre.
    destruct (Z.geb_spec attempt maxRetries) as [Hge|Hlt].
    + assert (fuel = 0%nat) by lia. subst fuel.
      cbn. split; [reflexivity|exact (eq_sym He)].
    + rewrite Hnn by lia.
      assert (Hall' : forall k, (k < fuel)%nat ->
               exists e', fst (operation (stateBefore operation k (snd (operation s)))) = Throw e' /\
                          isNonRetryableError e' = false /\
                          ((S k < fuel)%nat -> isNullish e' = false)).
      { intros k Hk. destruct (Hall (S k) ltac:(lia)) as [e' [He' [Hre' Hnn']]].
        exists e'. split; [exact He'|]. split; [exact Hre'|].
        intros Hlt'. apply Hnn'. lia. }
      destruct (IH (attempt + 1) e (snd (operation s)) ltac:(lia) Hall') as [Hs Hl].
      cbn [stateBefore]. split; [exact Hs|].
      destruct fuel as [|last]; [lia|exact Hl].
Qed.

(** An error that is retried but is [undefined] or [null] ends the loop
    when it is thrown before the last attempt: the warning cannot be
    printed. *)
Lemma retryLoop_nullish (fuel : nat) (attempt : Z) (lastError : thrown) (s : St)
      (e : thrown) :
  attempt < maxRetries ->
  fst (operation s) = Throw e ->
  isNonRetryableError e = false ->
  isNullish e = true ->
  loop (S fuel) attempt lastError s = (Throw (cannotReadMessage e), snd (operation s)).
Proof.
  intros Hlt He Hre Hnull. rewrite retryLoop_step by lia.
  rewrite He, Hre, Hnull.
  destruct (Z.geb_spec attempt maxRetries) as [Hge|_]; [lia|reflexivity].
Qed.
End RetryLoop.

(** [withRetry] never runs out of fuel. *)
Corollary withRetry_fuel {St T : Type} (operation : M St T)
          (maxRetries baseBackoffMs : Z) (extra : nat) (s : St) :
  retryLoop operation maxRetries baseBackoffMs (Z.to_nat maxRetries + extra) 1
            (Falsy (js "undefined")) s =
  withRetry operation maxRetries baseBackoffMs s.
Proof. unfold withRetry. apply retryLoop_fuel. lia. Qed.

Section Counted.
Context {St T : Type}.
Variable operation : M St T.

Lemma counted_step (s : St) (n : nat) :
  counted operation (s, n) = (fst (operation s), (snd (operation s), S n)).
Proof. unfold counted. now destruct (operation s). Qed.

Lemma counted_stateBefore (k : nat) (s : St) (n : nat) :
  stateBefore (counted operation) k (s, n) = (stateBefore operation k s, (k + n)%nat).
Proof.
  revert s n. induction k as [|k IH]; intros s n; [reflexivity|].
  cbn [stateBefore]. rewrite counted_step. cbn [snd]. rewrite IH.
  f_equal. lia.
Qed.

Lemma counted_outcome (k : nat) (s : St) (n : nat) :
  fst (counted operation (stateBefore (counted operation) k (s, n))) =
  fst (operation (stateBefore operation k s)).
Proof. rewrite counted_stateBefore, counted_step. reflexivity. Qed.

(** The count grows by one with every iteration of the loop. *)
Lemma retryLoop_calls_bound (maxRetries baseBackoffMs : Z) (fuel : nat)
      (attempt : Z) (lastError : thrown) (s : St) (n : nat) :
  (n <= callsOf (retryLoop (counted operation) maxRetries baseBackoffMs
                           fuel attempt lastError (s, n)) <= n + fuel)%nat.
Proof.
  revert attempt lastError s n.
  induction fuel as [|fuel IH]; intros attempt lastError s n.
  - unfold callsOf. cbn. lia.
  - destruct (Z_le_gt_dec attempt maxRetries) as [Hle|Hgt].
    + rewrite retryLoop_step by exact Hle. rewrite counted_step. cbn [fst snd].
      destruct (fst (operation s)) as [v|e]; [unfold callsOf; cbn; lia|].
      destruct (isNonRetryableError e); [unfold callsOf; cbn; lia|].
      destruct (attempt >=? maxRetries); [unfold callsOf; cbn; lia|].
      destruct (isNullish e); [unfold callsOf; cbn; lia|].
      specialize (IH (attempt + 1) e (snd (operation s)) (S n)). lia.
    + rewrite retryLoop_exit by lia. unfold callsOf. cbn. lia.
Qed.
End Counted.

(** C5 states that when every attempt fails with a retryable error, the
    last observed error is raised after exactly [maxRetries] invocations.
    The values [undefined] and [null] are errors that [isNonRetryableError]
    lets retry; but when an invocation that is not the last attempt rejects
    with one of them, the warning printed before the next attempt reads
    [lastError.message], which throws: [withRetry] ends after this
    invocation with a [TypeError], whatever later attempts would do.  With
    three attempts allowed and an operation that always rejects with
    [undefined], the operation is invoked once. *)
Theorem withRetry_undefined_rejection {St T : Type} (operation : M St T)
        (maxRetries baseBackoffMs : Z) (s : St) (e : thrown) :
  2 <= maxRetries ->
  fst (operation s) = Throw e ->
  isNullish e = true ->
  let run := withRetry (counted operation) maxRetries baseBackoffMs (s, 0%nat) in
  isNonRetryableError e = false /\
  fst run = Throw (cannotReadMessage e) /\
  fst run <> Throw e /\
  callsOf run = 1%nat.
Proof.
  intros Hmax He Hnull run.
  assert (Hre : isNonRetryableError e = false).
  { destruct e; try discriminate Hnull. reflexivity. }
  assert (Hrun : run = (Throw (cannotReadMessage e), (snd (operation s), 1%nat))).
  { unfold run, withRetry.
    destruct (Z.to_nat maxRetries) as [|fuel] eqn:Hfuel; [lia|].
    rewrite (retryLoop_nullish (counted operation) maxRetries baseBackoffMs
               fuel 1 (Falsy (js "undefined")) (s, 0%nat) e).
    - rewrite counted_step. reflexivity.
    - lia.
    - rewrite counted_step. exact He.
    - exact Hre.
    - exact Hnull. }
  rewrite Hrun. cbn [fst].
  split; [exact Hre|]. split; [reflexivity|]. split; [|reflexivity].
  destruct e; try discriminate Hnull. discriminate.
Qed.

Lemma withRetry_undefined_rejection_witness :
  let run := withRetry (counted rejecting) 3 1000 (0%nat, 0%nat) in
  (forall k, fst (rejecting (stateBefore rejecting k 0%nat)) = Throw (Falsy (js "undefined"))) /\
  isNonRetryableError (Falsy (js "undefined")) = false /\
  fst run = Throw (cannotReadMessage (Falsy (js "undefined"))) /\
  callsOf run = 1%nat.
Proof.
  intros run. split; [intros k; reflexivity|].
  destruct (withRetry_undefined_rejection rejecting 3 1000 0%nat (Falsy (js "undefined")))
    as [Hre [Hrun [_ Hcalls]]]; [lia|reflexivity|reflexivity|].
  split; [exact Hre|]. split; [exact Hrun|exact Hcalls].
Defined.

(** With [maxRetries >= 0] attempts allowed, [withRetry] invokes the
    operation at most [maxRetries] times.  When the first attempt succeeds,
    or throws an error that must not be retried, that is the outcome and the
    operation has been invoked once.  When every attempt throws an error
    that may be retried, and none but the last throws [undefined] or
    [null], the operation is invoked [maxRetries] times and the error of
    the last attempt is thrown. *)
Theorem withRetry_bound {St T : Type} (operation : M St T)
        (maxRetries baseBackoffMs : Z) (s : St) :
  0 <= maxRetries ->
  let run := withRetry (counted operation) maxRetries baseBackoffMs (s, 0%nat) in
  Z.of_nat (callsOf run) <= maxRetries /\
  (forall v, 1 <= maxRetries -> fst (operation s) = Normal v ->
     fst run = Normal v /\ callsOf run = 1%nat) /\
  (forall e, 1 <= maxRetries -> fst (operation s) = Throw e ->
     isNonRetryableError e = true ->
     fst run = Throw e /\ callsOf run = 1%nat) /\
  ((forall k, (k < Z.to_nat maxRetries)%nat ->
      exists e, fst (operation (stateBefore operation k s)) = Throw e /\
                isNonRetryableError e = false /\
                ((S k < Z.to_nat maxRetries)%nat -> isNullish e = false)) ->
   Z.of_nat (callsOf run) = maxRetries /\
   (1 <= maxRetries ->
    exists e,
      fst (operation (stateBefore operation (Z.to_nat maxRetries - 1) s)) = Throw e /\
      fst run = Throw e)).
Proof.
  intros Hpos run. unfold run, withRetry.
  split; [|split; [|split]].
  - pose proof (retryLoop_calls_bound operation maxRetries baseBackoffMs
                  (Z.to_nat maxRetries) 1 (Falsy (js "undefined")) s 0) as H.
    lia.
  - intros v H1 Hv.
    rewrite (retryLoop_decisive (counted operation) maxRetries baseBackoffMs 0).
    + cbn [stateBefore]. rewrite counted_step, Hv. split; reflexivity.
    + lia.
    + lia.
    + intros k Hk. lia.
    + rewrite counted_outcome. cbn [stateBefore]. now rewrite Hv.
  - intros e H1 He Hnr.
    rewrite (retryLoop_decisive (counted operation) maxRetries baseBackoffMs 0).
    + cbn [stateBefore]. rewrite counted_step, He. split; reflexivity.
    + lia.
    + lia.
    + intros k Hk. lia.
    + rewrite counted_outcome. cbn [stateBefore]. now rewrite He.
  - intros Hall.
    destruct (retryLoop_exhausted (counted operation) maxRetries baseBackoffMs
                (Z.to_nat maxRetries) 1 (Falsy (js "undefined")) (s, 0%nat)
                ltac:(lia)) as [Hs Hl].
    { intros k Hk. rewrite counted_outcome. exact (Hall k Hk). }
    split.
    + unfold callsOf. rewrite Hs, counted_stateBefore. cbn [snd]. lia.
    + intros H1.
      destruct (Z.to_nat maxRetries) as [|last] eqn:Hfuel; [lia|].
      destruct (Hall last ltac:(lia)) as [e [He _]].
      exists e. replace (S last - 1)%nat with last by lia.
      split; [exact He|]. now rewrite Hl, counted_outcome.
Qed.

Lemma withRetry_bound_witness :
  0 <= 3 /\
  Z.of_nat (callsOf (withRetry (counted failing) 3 1000 (0%nat, 0%nat))) = 3 /\
  fst (withRetry (counted failing) 3 1000 (0%nat, 0%nat)) = Throw networkDown.
Proof.
  assert (Hpos : 0 <= 3) by lia.
  split; [exact Hpos|].
  destruct (withRetry_bound failing 3 1000 0%nat Hpos) as [_ [_ [_ Hlast]]].
  assert (Hall : forall k, (k < Z.to_nat 3)%nat ->
            exists e, fst (failing (stateBefore failing k 0%nat)) = Throw e /\
                      isNonRetryableError e = false /\
                      ((S k < Z.to_nat 3)%nat -> isNullish e = false)).
  { intros k _. exists networkDown. repeat split; reflexivity. }
  destruct (Hlast Hall) as [Hcalls Herr].
  split; [exact Hcalls|].
  destruct (Herr ltac:(lia)) as [e [He Hrun]].
  rewrite Hrun. rewrite <- He. reflexivity.
Defined.

(* ================================================================= *)
(** ** Order of the classification rules *)

Lemma statusOf_truthy (e : thrown) (s : Z) : statusOf e = Some s -> truthy e = true.
Proof. destruct e; cbn; intros H; try discriminate; reflexivity. Qed.

Lemma includes_truthy (e : thrown) (k : jsstring) :
  k <> [] -> includes (toLowerCase (messageOf e)) k = true -> truthy e = true.
Proof.
  intros Hk H. destruct e; try reflexivity.
  cbn in H. destruct k; [congruence|discriminate H].
Qed.

Lemma mentions_status_keywords (m : jsstring) :
  mentionsAny m statusRuleKeywords = false ->
  includes m (js "unauthorized") = false /\
  includes m (js "api key") = false /\
  includes m (js "quota") = false /\
  includes m (js "rate limit") = false /\
  includes m (js "invalid") = false /\
  includes m (js "service unavailable") = false /\
  includes m (js "internal server") = false.
Proof.
  unfold mentionsAny, statusRuleKeywords. cbn [existsb].
  intros H.
  repeat (apply orb_false_iff in H; destruct H as [? H]).
  repeat split; assumption.
Qed.

(** C4, as stated: the status code does not always decide.  Status 503
    selects [SERVICE_UNAVAILABLE] and the message matches the message rule
    of [TIMEOUT]; but the message also says "invalid", a keyword of the
    third rule, and the result is [INVALID_REQUEST]. *)
Lemma status_rule_not_always_first :
  ~ (forall e s k k',
        statusOf e = Some s ->
        statusKind s = Some k ->
        In k' (messageOnlyKinds (toLowerCase (messageOf e))) ->
        k' <> k ->
        inferErrorType e = k).
Proof.
  intros H.
  specialize (H invalidUpstream 503 SERVICE_UNAVAILABLE TIMEOUT).
  assert (Hin : In TIMEOUT (messageOnlyKinds (toLowerCase (messageOf invalidUpstream)))).
  { vm_compute. left. reflexivity. }
  specialize (H eq_refl eq_refl Hin ltac:(discriminate)).
  vm_compute in H. discriminate H.
Qed.

Example invalidUpstream_kind : inferErrorType invalidUpstream = INVALID_REQUEST.
Proof. reflexivity. Qed.

Lemma firstFiring_first (before after : list Rule) (rule : Rule)
      (status : option Z) (m : jsstring) :
  fires rule status m = true ->
  (forall earlier, In earlier before -> fires earlier status m = false) ->
  firstFiring (before ++ rule :: after) status m = ruleKind rule.
Proof.
  intros Hfires. induction before as [|r before IH]; intros Hnone; cbn [app firstFiring].
  - now rewrite Hfires.
  - rewrite (Hnone r (or_introl eq_refl)). apply IH.
    intros earlier Hin. apply Hnone. now right.
Qed.

(** The nested tests of [inferErrorType] are the table: the first rule
    that fires decides. *)
Lemma inferErrorType_table (e : thrown) :
  inferErrorType e =
  if truthy e
  then firstFiring rulesInOrder (statusOf e) (toLowerCase (messageOf e))
  else UNKNOWN.
Proof.
  unfold inferErrorType. destruct (truthy e); [|reflexivity].
  cbn [negb]. cbv zeta.
  set (m := toLowerCase (messageOf e)).
  unfold rulesInOrder, statusIs, statusAtLeast.
  cbn [firstFiring]. unfold fires, noStatus.
  cbn [ruleKind ruleStatus anyKeyword allKeywords existsb forallb].
  destruct (statusOf e) as [s|]; cbn [orb];
    rewrite ?orb_false_r, ?andb_true_r, ?orb_assoc;
    destruct (includes m (js "quota"));
    rewrite ?orb_true_r, ?orb_false_r; cbn [orb]; reflexivity.
Qed.

(** C4, amended.  The rules are tried in the order of the table
    [rulesInOrder] and the first that fires decides; the first five fire on
    their status code or on their keywords.  (1) [inferErrorType] is the
    kind of the first rule of the table that fires.  (2) When the status
    code matches a status rule, the kind it selects is returned exactly
    when the message has no keyword of a rule tried earlier, whatever
    message-only rule (timeout, content filter, network, token limit) the
    message matches: a keyword of an earlier rule wins over the status code
    of a later one.  (3) A message with "quota" gives [QUOTA_EXCEEDED],
    also when it has "rate limit", unless the first rule fires.  (4) A
    message with "timeout" gives [TIMEOUT], also when it names the network
    or the connection, unless one of the first five rules fires. *)
Theorem inferErrorType_priority (e : thrown) :
  let m := toLowerCase (messageOf e) in
  (forall before rule after,
      truthy e = true ->
      rulesInOrder = before ++ rule :: after ->
      fires rule (statusOf e) m = true ->
      (forall earlier, In earlier before -> fires earlier (statusOf e) m = false) ->
      inferErrorType e = ruleKind rule) /\
  ((forall rule, In rule rulesInOrder -> fires rule (statusOf e) m = false) ->
   inferErrorType e = UNKNOWN) /\
  (forall s k,
      statusOf e = Some s ->
      statusKind s = Some k ->
      (inferErrorType e = k <->
       mentionsAny m (keywordsBefore rulesInOrder k) = false)) /\
  (includes m (js "quota") = true ->
   statusIs (statusOf e) 401 = false ->
   includes m (js "unauthorized") = false ->
   includes m (js "api key") = false ->
   inferErrorType e = QUOTA_EXCEEDED) /\
  (includes m (js "timeout") = true ->
   match statusOf e with
   | Some s => statusKind s = None
   | None => True
   end ->
   mentionsAny m statusRuleKeywords = false ->
   inferErrorType e = TIMEOUT).
Proof.
  intros m. split; [|split; [|split; [|split]]].
  - intros before rule after Htruthy Htable Hfires Hnone.
    rewrite inferErrorType_table, Htruthy, Htable.
    now apply firstFiring_first.
  - intros Hnone. rewrite inferErrorType_table.
    destruct (truthy e); [|reflexivity].
    fold m. generalize rulesInOrder Hnone. clear Hnone.
    induction l as [|rule rules IH]; intros Hnone; [reflexivity|].
    cbn [firstFiring]. rewrite (Hnone rule (or_introl eq_refl)).
    apply IH. intros r Hr. apply Hnone. now right.
  - intros s k Hs Hk.
    rewrite inferErrorType_table, (statusOf_truthy e s Hs), Hs. fold m.
    unfold statusKind in Hk.
    assert (Hkeys : keywordsBefore rulesInOrder k =
                    if s =? 401 then []
                    else if s =? 429 then [js "unauthorized"; js "api key"; js "quota"]
                    else if s =? 400
                    then [js "unauthorized"; js "api key"; js "quota"; js "rate limit"]
                    else [js "unauthorized"; js "api key"; js "quota"; js "rate limit";
                          js "invalid"]).
    { destruct (s =? 401); [injection Hk as <-; reflexivity|].
      destruct (s =? 429); [injection Hk as <-; reflexivity|].
      destruct (s =? 400); [injection Hk as <-; reflexivity|].
      destruct (500 <=? s); [injection Hk as <-; reflexivity|discriminate Hk]. }
    rewrite Hkeys. clear Hkeys.
    unfold rulesInOrder, mentionsAny.
    cbn [firstFiring]. unfold fires, noStatus.
    cbn [ruleKind ruleStatus anyKeyword allKeywords existsb forallb].
    destruct (s =? 401);
      [injection Hk as <-; cbn [existsb orb]; split; reflexivity|].
    destruct (s =? 429); [|destruct (s =? 400); [|destruct (500 <=? s); [|discriminate Hk]]];
      injection Hk as <-; cbn [existsb orb];
      generalize (includes m (js "unauthorized")) (includes m (js "api key"))
                 (includes m (js "quota")) (includes m (js "rate limit"))
                 (includes m (js "invalid"));
      intros bu ba bq br bi;
      destruct bu, ba, bq, br, bi; cbn [orb]; split; intros H;
      try reflexivity; discriminate H.
  - intros Hq H401 H1 H2.
    unfold inferErrorType.
    rewrite (includes_truthy e (js "quota") ltac:(discriminate) Hq). cbv zeta.
    fold m. rewrite H401, H1, H2, Hq. cbn [negb orb].
    rewrite orb_true_r. reflexivity.
  - intros Ht Hs Hm.
    apply mentions_status_keywords in Hm.
    destruct Hm as [H1 [H2 [H3 [H4 [H5 [H6 H7]]]]]].
    unfold inferErrorType.
    rewrite (includes_truthy e (js "timeout") ltac:(discriminate) Ht). cbv zeta.
    fold m. rewrite H1, H2, H3, H4, H5, H6, H7, Ht.
    destruct (statusOf e) as [s|]; [|reflexivity].
    unfold statusKind in Hs. cbn [negb statusIs statusAtLeast orb].
    destruct (s =? 401); cbn [orb]; [discriminate Hs|].
    destruct (s =? 429); cbn [orb]; [discriminate Hs|].
    destruct (s =? 400); cbn [orb]; [discriminate Hs|].
    destruct (500 <=? s); cbn [orb]; [discriminate Hs|reflexivity].
Qed.

Lemma inferErrorType_priority_witness :
  inferErrorType gatewayTimeout = SERVICE_UNAVAILABLE /\
  inferErrorType rateLimited = RATE_LIMIT_EXCEEDED /\
  inferErrorType invalidUpstream = INVALID_REQUEST /\
  inferErrorType quotaRateLimit = QUOTA_EXCEEDED /\
  inferErrorType networkTimeout = TIMEOUT.
Proof.
  split; [|split; [|split; [|split]]].
  - apply (proj1 (proj2 (proj2 (inferErrorType_priority gatewayTimeout)))
             503 SERVICE_UNAVAILABLE); reflexivity.
  - apply (proj1 (proj2 (proj2 (inferErrorType_priority rateLimited)))
             429 RATE_LIMIT_EXCEEDED); reflexivity.
  - apply (proj1 (inferErrorType_priority invalidUpstream)
             (firstn 3 rulesInOrder) (nth 3 rulesInOrder (hd (Build_Rule UNKNOWN noStatus [] []) rulesInOrder))
             (skipn 4 rulesInOrder)); try reflexivity.
    intros earlier Hin. cbn [firstn rulesInOrder In] in Hin.
    destruct Hin as [<-|[<-|[<-|[]]]]; reflexivity.
  - apply (proj1 (proj2 (proj2 (proj2 (inferErrorType_priority quotaRateLimit)))));
      reflexivity.
  - apply (proj2 (proj2 (proj2 (proj2 (inferErrorType_priority networkTimeout)))));
      [reflexivity|exact I|reflexivity].
Defined.

(* ================================================================= *)
(** ** The request client *)

Lemma repeat_app_cons {A : Type} (a : A) (k : nat) (l : list A) :
  repeat a k ++ a :: l = a :: repeat a k ++ l.
Proof. induction k as [|k IH]; cbn; [reflexivity|now rewrite IH]. Qed.

Section Client.
Variable this : GeminiClient.
Variable finalPrompt : jsstring.
Variable options : GeminiRequestOptions.

Let request := buildRequest this finalPrompt options.
Let call := makeAPICall this finalPrompt options.

Lemma makeAPICall_run (w : World) :
  call w = (callOutcome this (remote w (length (sent w)) request),
            withSent (request :: sent w) w).
Proof.
  unfold call, makeAPICall, tryCatch, bind, generateContent. fold request.
  destruct (remote w (length (sent w)) request) as [responseText|reason]; cbn.
  - destruct (isEmptyText responseText); reflexivity.
  - destruct (isAbortError reason); reflexivity.
Qed.

Lemma makeAPICall_stateBefore (k : nat) (w : World) :
  stateBefore call k w = withSent (repeat request k ++ sent w) w.
Proof.
  revert w. induction k as [|k IH]; intros w.
  - destruct w; reflexivity.
  - cbn [stateBefore]. rewrite makeAPICall_run. cbn [snd]. rewrite IH.
    unfold withSent. cbn. f_equal. apply repeat_app_cons.
Qed.

Lemma makeAPICall_attempt (k : nat) (w : World) :
  call (stateBefore call k w) =
  (callOutcome this (remote w (k + length (sent w)) request),
   withSent (repeat request (S k) ++ sent w) w).
Proof.
  rewrite makeAPICall_run, makeAPICall_stateBefore.
  unfold withSent. cbn [remote sent]. rewrite length_app, repeat_length.
  reflexivity.
Qed.

Lemma makeAPICall_text (w w' : World) (r : ApiCallResult) :
  call w = (Normal r, w') -> resText r <> [].
Proof.
  rewrite makeAPICall_run. intros H. injection H as H _.
  unfold callOutcome in H.
  destruct (remote w (length (sent w)) request) as [[[|c t]|]|reason];
    cbn in H; try discriminate H.
  - injection H as <-. discriminate.
  - destruct (isAbortError reason); discriminate H.
Qed.
End Client.

Lemma generateText_rethrows (this : GeminiClient) (options : GeminiRequestOptions)
      (w w1 : World) (type : GeminiErrorType) (message : jsstring)
      (cause : option thrown) (flag : bool) :
  initialized this = true ->
  withRetry (makeAPICall this (finalPromptOf this options) options) 3 1000 w =
    (Throw (GeminiErr type message cause flag), w1) ->
  generateText this options w =
    (Throw (GeminiErr type message cause flag),
     withUsage (failureLog this options w1 (GeminiErr type message cause flag)
                  :: usage w1) w1).
Proof.
  intros Hinit Hrun. unfold generateText. rewrite Hinit. cbn [negb].
  unfold tryCatch at 1. unfold bind at 1. rewrite Hrun.
  reflexivity.
Qed.

Lemma generateText_text (this : GeminiClient) (options : GeminiRequestOptions)
      (w w' : World) (r : GeminiResponse) :
  generateText this options w = (Normal r, w') -> text r <> [].
Proof.
  unfold generateText.
  destruct (initialized this); cbn [negb]; [|discriminate].
  unfold tryCatch at 1. unfold bind at 1.
  destruct (withRetry _ 3 1000 w) as [[response|e] w1] eqn:Hrun.
  - intros H. cbn in H. injection H as <- _. cbn [text].
    apply retryLoop_returns in Hrun. destruct Hrun as [s0 Hcall].
    exact (makeAPICall_text _ _ _ _ _ _ Hcall).
  - intros H. cbn in H.
    destruct (instanceofGeminiError e); discriminate H.
Qed.

(** C8.  When a call of the transport resolves with no text (after zero,
    one or two attempts that were rejected with an error after which the
    retry executor goes on: one that is passed on, may be retried and is
    not [undefined] or [null]), [generateText] throws the
    [CONTENT_FILTERED] error, after logging a failure; and whenever
    [generateText] returns, the text is not empty. *)
Theorem empty_output_is_content_filtered :
  (forall this options w j t,
      initialized this = true ->
      (j < 3)%nat ->
      let request := buildRequest this (finalPromptOf this options) options in
      (forall i, (i < j)%nat ->
         exists e, remote w (i + length (sent w)) request = Rejected e /\
                   isAbortError e = false /\
                   isNonRetryableError e = false /\
                   isNullish e = false) ->
      remote w (j + length (sent w)) request = Resolved t ->
      isEmptyText t = true ->
      exists w',
        generateText this options w =
          (Throw (newGeminiError2 CONTENT_FILTERED noTextMessage), w') /\
        length (sent w') = (S j + length (sent w))%nat /\
        option_map success (hd_error (usage w')) = Some false) /\
  (forall this options w r w',
      generateText this options w = (Normal r, w') -> text r <> []).
Proof.
  split; [|intros this options w r w'; apply generateText_text].
  intros this options w j t Hinit Hj request Hbefore Hlast Hempty.
  set (call := makeAPICall this (finalPromptOf this options) options).
  assert (Hrun : withRetry call 3 1000 w = call (stateBefore call j w)).
  { unfold withRetry. change (Z.to_nat 3) with 3%nat.
    apply retryLoop_decisive; [reflexivity|exact Hj| |].
    - intros k Hk. destruct (Hbefore k Hk) as [e [He [Hab Hre]]].
      exists e. unfold call. rewrite makeAPICall_attempt. cbn [fst].
      fold request. rewrite He. cbn [callOutcome]. rewrite Hab. split; [reflexivity|exact Hre].
    - unfold call. rewrite makeAPICall_attempt. cbn [fst].
      fold request. rewrite Hlast. cbn [callOutcome]. rewrite Hempty. reflexivity. }
  unfold call in Hrun at 2. rewrite makeAPICall_attempt in Hrun.
  fold request in Hrun. rewrite Hlast in Hrun. cbn [callOutcome] in Hrun.
  rewrite Hempty in Hrun.
  eexists. split; [|split].
  - apply generateText_rethrows; [exact Hinit|exact Hrun].
  - cbn [withUsage sent withSent]. rewrite length_app, repeat_length. lia.
  - reflexivity.
Qed.

Lemma empty_output_is_content_filtered_witness :
  exists w',
    generateText readyClient (promptOnly hello) alwaysSilent =
      (Throw (newGeminiError2 CONTENT_FILTERED noTextMessage), w') /\
    length (sent w') = 1%nat /\
    option_map success (hd_error (usage w')) = Some false.
Proof.
  apply (proj1 empty_output_is_content_filtered readyClient (promptOnly hello)
               alwaysSilent 0%nat None).
  - reflexivity.
  - lia.
  - intros i Hi. lia.
  - reflexivity.
  - reflexivity.
Defined.

(* ================================================================= *)
(** ** The health check *)

Lemma healthCheckWith_run (probe : M World GeminiResponse) (w : World) :
  healthCheckWith probe w =
  match probe w with
  | (Normal r, w') => (Normal (0 <? jslength (text r)), w')
  | (Throw e, w') => (Normal false, w')
  end.
Proof.
  unfold healthCheckWith, tryCatch, bind, ret.
  destruct (probe w) as [[r|e] w']; reflexivity.
Qed.

Lemma nonempty_length (s : jsstring) : (0 <? jslength s) = true <-> s <> [].
Proof.
  unfold jslength. destruct s as [|c s]; cbn [length].
  - split; [discriminate|congruence].
  - split; [discriminate|]. intros _. apply Z.ltb_lt. lia.
Qed.

(** C10.  [healthCheck] never throws: whatever the probe does from the
    world [w], the health check ends normally, in the world that the probe
    leaves, with a boolean that is [true] exactly when the probe returned a
    response whose text is not empty.  This holds for any probe, and so for
    the probe of the client, [generateText] with the prompt "Hello".
    [checkGeminiHealth] never throws either: it returns [false] in the world
    that [getGeminiClient] leaves when no client can be obtained, and
    otherwise what the health check of that client gives. *)
Theorem healthCheck_never_throws :
  (forall (probe : M World GeminiResponse) (w : World),
      exists b,
        healthCheckWith probe w = (Normal b, snd (probe w)) /\
        (b = true <-> exists r, fst (probe w) = Normal r /\ text r <> [])) /\
  (forall this w,
      exists b,
        healthCheck this w = (Normal b, snd (generateText this healthProbe w)) /\
        (b = true <->
         exists r, fst (generateText this healthProbe w) = Normal r /\ text r <> [])) /\
  (forall w,
      exists b,
        checkGeminiHealth w =
          (Normal b,
           match getGeminiClient w with
           | (Normal client, w1) => snd (generateText client healthProbe w1)
           | (Throw _, w1) => w1
           end) /\
        (b = true <->
         exists client w1 r,
           getGeminiClient w = (Normal client, w1) /\
           fst (generateText client healthProbe w1) = Normal r /\
           text r <> [])).
Proof.
  assert (Hany : forall (probe : M World GeminiResponse) (w : World),
             exists b,
               healthCheckWith probe w = (Normal b, snd (probe w)) /\
               (b = true <-> exists r, fst (probe w) = Normal r /\ text r <> [])).
  { intros probe w. rewrite healthCheckWith_run.
    destruct (probe w) as [[r|e] w']; cbn [fst snd].
    - exists (0 <? jslength (text r)). split; [reflexivity|].
      rewrite nonempty_length. split.
      + intros H. exists r. split; [reflexivity|exact H].
      + intros [r' [Hr H]]. injection Hr as <-. exact H.
    - exists false. split; [reflexivity|].
      split; [discriminate|]. intros [r [Hr _]]. discriminate Hr. }
  split; [exact Hany|]. split.
  - intros this w. exact (Hany (generateText this healthProbe) w).
  - intros w. unfold checkGeminiHealth, tryCatch, bind.
    destruct (getGeminiClient w) as [[client|e] w1] eqn:Hclient.
    + destruct (Hany (generateText client healthProbe) w1) as [b [Hrun Hb]].
      fold (healthCheck client) in Hrun. rewrite Hrun.
      exists b. split; [reflexivity|]. rewrite Hb. split.
      * intros [r [Hr Ht]]. exists client, w1, r. repeat split; assumption.
      * intros [client' [w1' [r [Hc [Hr Ht]]]]]. injection Hc as <- <-.
        exists r. split; assumption.
    + exists false. split; [reflexivity|].
      split; [discriminate|]. intros [client [w1' [r [Hc _]]]]. discriminate Hc.
Qed.

(* ================================================================= *)
(** ** Sanitising: the scan *)

Section Scan.
Variable matchAt : jsstring -> option nat.
Variable replacement : jsstring.

Lemma scan_skip (k : nat) (s : jsstring) :
  scan matchAt replacement k s = replaceAll matchAt replacement (skipn k s).
Proof.
  revert k. induction s as [|c rest IH]; intros [|k]; try reflexivity.
  cbn [scan skipn]. apply IH.
Qed.

Lemma replaceAll_cons (c : Z) (rest : jsstring) :
  replaceAll matchAt replacement (c :: rest) =
  match matchAt (c :: rest) with
  | Some (S n) => replacement ++ replaceAll matchAt replacement (skipn n rest)
  | _ => c :: replaceAll matchAt replacement rest
  end.
Proof.
  unfold replaceAll at 1. cbn [scan].
  destruct (matchAt (c :: rest)) as [[|n]|]; try reflexivity.
  now rewrite scan_skip.
Qed.

Lemma replaceAll_noMatch (s : jsstring) :
  noMatch matchAt s -> replaceAll matchAt replacement s = s.
Proof.
  induction s as [|c rest IH]; [reflexivity|].
  intros [Hc Hrest]. rewrite replaceAll_cons, Hc. now rewrite IH.
Qed.

Lemma scan_Forall (P : Z -> Prop) (k : nat) (s : jsstring) :
  Forall P replacement -> Forall P s -> Forall P (scan matchAt replacement k s).
Proof.
  intros Hrep. revert k.
  induction s as [|c rest IH]; intros k Hs; [constructor|].
  inversion Hs as [|? ? Hc Hrest]; subst.
  destruct k as [|k]; cbn [scan]; [|now apply IH].
  destruct (matchAt (c :: rest)) as [[|n]|].
  - constructor; [exact Hc|now apply IH].
  - apply Forall_app. split; [exact Hrep|now apply IH].
  - constructor; [exact Hc|now apply IH].
Qed.

Context {white : WhitePattern matchAt}.

Lemma replaceAll_startsClean (s : jsstring) :
  startsClean s -> startsClean (replaceAll matchAt replacement s).
Proof.
  destruct s as [|c rest]; [trivial|].
  cbn [startsClean]. intros Hc.
  rewrite replaceAll_cons, (white_head c rest Hc). exact Hc.
Qed.

Lemma scan_snoc (k : nat) (s : jsstring) (c : Z) :
  is_ws c = false ->
  (k <= length s)%nat ->
  scan matchAt replacement k (s ++ [c]) = scan matchAt replacement k s ++ [c].
Proof.
  intros Hc. revert k.
  induction s as [|a rest IH]; intros k Hk.
  - assert (k = 0%nat) by (cbn in Hk; lia). subst k.
    cbn [app scan]. now rewrite (white_head c [] Hc).
  - destruct k as [|k]; cbn [app scan].
    + change (a :: rest ++ [c]) with ((a :: rest) ++ [c]).
      rewrite (white_snoc (a :: rest) c Hc).
      destruct (matchAt (a :: rest)) as [[|n]|] eqn:Hm.
      * rewrite IH by lia. reflexivity.
      * apply white_length in Hm. cbn [length] in Hm.
        rewrite IH by lia. now rewrite app_assoc.
      * rewrite IH by lia. reflexivity.
    + apply IH. cbn [length] in Hk. lia.
Qed.

Lemma replaceAll_endsClean (s : jsstring) :
  endsClean s -> endsClean (replaceAll matchAt replacement s).
Proof.
  intros [->|[s' [c [-> Hc]]]]; [now left|].
  right. exists (replaceAll matchAt replacement s'), c.
  split; [|exact Hc]. unfold replaceAll. apply scan_snoc; [exact Hc|lia].
Qed.
End Scan.

Lemma noMatch_weaken (m1 m2 : jsstring -> option nat) (s : jsstring) :
  (forall t, m1 t = None -> m2 t = None) -> noMatch m1 s -> noMatch m2 s.
Proof.
  intros Himp. induction s as [|c rest IH]; [trivial|].
  intros [Hc Hrest]. split; [now apply Himp|now apply IH].
Qed.

(* ================================================================= *)
(** ** Sanitising: trimming *)

Lemma trimStart_startsClean (s : jsstring) : startsClean (trimStart s).
Proof.
  induction s as [|c rest IH]; [exact I|].
  unfold trimStart in *. cbn [dropWhile].
  destruct (is_ws c) eqn:Hc; [exact IH|exact Hc].
Qed.

Lemma trimStart_fixed (s : jsstring) : startsClean s -> trimStart s = s.
Proof.
  destruct s as [|c rest]; [reflexivity|].
  cbn [startsClean]. intros Hc. unfold trimStart. cbn [dropWhile]. now rewrite Hc.
Qed.

Lemma trimEnd_startsClean (s : jsstring) : startsClean s -> startsClean (trimEnd s).
Proof.
  destruct s as [|c rest]; [trivial|].
  cbn [startsClean trimEnd]. intros Hc.
  destruct (trimEnd rest); [rewrite Hc|]; exact Hc.
Qed.

Lemma trimEnd_endsClean (s : jsstring) : endsClean (trimEnd s).
Proof.
  induction s as [|c rest IH]; [now left|].
  cbn [trimEnd]. destruct (trimEnd rest) as [|k kept].
  - destruct (is_ws c) eqn:Hc; [now left|].
    right. exists [], c. split; [reflexivity|exact Hc].
  - destruct IH as [IH|[s' [d [Hs Hd]]]]; [discriminate IH|].
    right. exists (c :: s'), d. rewrite Hs. split; [reflexivity|exact Hd].
Qed.

Lemma trimEnd_snoc (s : jsstring) (c : Z) :
  is_ws c = false -> trimEnd (s ++ [c]) = s ++ [c].
Proof.
  intros Hc. induction s as [|a rest IH].
  - cbn. now rewrite Hc.
  - cbn [app trimEnd]. rewrite IH.
    destruct (rest ++ [c]) eqn:Hr; [|reflexivity].
    destruct rest; discriminate Hr.
Qed.

Lemma trimEnd_fixed (s : jsstring) : endsClean s -> trimEnd s = s.
Proof.
  intros [->|[s' [c [-> Hc]]]]; [reflexivity|now apply trimEnd_snoc].
Qed.

Lemma trim_clean (s : jsstring) : startsClean (trim s) /\ endsClean (trim s).
Proof.
  unfold trim. split.
  - apply trimEnd_startsClean, trimStart_startsClean.
  - apply trimEnd_endsClean.
Qed.

Lemma trim_fixed (s : jsstring) : startsClean s -> endsClean s -> trim s = s.
Proof.
  intros Hs He. unfold trim. rewrite (trimStart_fixed s Hs). now apply trimEnd_fixed.
Qed.

(* ================================================================= *)
(** ** Sanitising: the four patterns *)

Lemma is_ws_LF : is_ws LF = true.
Proof. reflexivity. Qed.

Lemma not_ws_not (c k : Z) : is_ws k = true -> is_ws c = false -> (c =? k) = false.
Proof.
  intros Hk Hc. apply Z.eqb_neq. intros ->. congruence.
Qed.

Lemma takeWhile_snoc (p : Z -> bool) (t : jsstring) (c : Z) :
  p c = false -> takeWhile p (t ++ [c]) = takeWhile p t.
Proof.
  intros Hc. induction t as [|a rest IH]; cbn [app takeWhile].
  - now rewrite Hc.
  - destruct (p a); [now rewrite IH|reflexivity].
Qed.

Lemma takeWhile_length (p : Z -> bool) (t : jsstring) :
  (length (takeWhile p t) <= length t)%nat.
Proof.
  induction t as [|a rest IH]; cbn [takeWhile length]; [lia|].
  destruct (p a); cbn [length]; lia.
Qed.

Lemma takeWhile_skipn (p : Z -> bool) (n : nat) (t : jsstring) :
  (n <= length (takeWhile p t))%nat ->
  takeWhile p (skipn n t) = skipn n (takeWhile p t).
Proof.
  revert t. induction n as [|n IH]; intros t Hn; [reflexivity|].
  destruct t as [|a rest]; [reflexivity|].
  cbn [takeWhile] in *. destruct (p a); cbn [length] in Hn; [|lia].
  cbn [skipn]. apply IH. lia.
Qed.

Lemma lastLineFeed_length (run : jsstring) (n : nat) :
  lastLineFeed run = Some n -> (1 <= n <= length run)%nat.
Proof.
  revert n. induction run as [|c rest IH]; intros n; cbn [lastLineFeed length].
  - discriminate.
  - destruct (lastLineFeed rest) as [k|].
    + intros H. injection H as <-. specialize (IH k eq_refl). lia.
    + destruct (c =? LF); [|discriminate].
      intros H. injection H as <-. lia.
Qed.

(** Behind the longest part that ends in a line feed there is no line
    feed. *)
Lemma lastLineFeed_skipn (run : jsstring) (n : nat) :
  lastLineFeed run = Some n -> lastLineFeed (skipn n run) = None.
Proof.
  revert n. induction run as [|c rest IH]; intros n; cbn [lastLineFeed].
  - discriminate.
  - destruct (lastLineFeed rest) as [k|] eqn:Hrest.
    + intros H. injection H as <-. cbn [skipn]. now apply IH.
    + destruct (c =? LF); [|discriminate].
      intros H. injection H as <-. exact Hrest.
Qed.

Lemma lastLineFeed_LF (run : jsstring) : lastLineFeed (LF :: run) <> None.
Proof.
  cbn [lastLineFeed]. destruct (lastLineFeed run); [discriminate|].
  rewrite Z.eqb_refl. discriminate.
Qed.

#[local] Instance white_crlf : WhitePattern match_crlf.
Proof.
  split.
  - intros c rest Hc. unfold match_crlf. destruct rest as [|b rest]; [reflexivity|].
    rewrite (not_ws_not c CR eq_refl Hc). reflexivity.
  - intros t c Hc. destruct t as [|a [|b t]]; cbn [app match_crlf].
    + reflexivity.
    + rewrite (not_ws_not c LF eq_refl Hc). now rewrite andb_false_r.
    + reflexivity.
  - intros t n. unfold match_crlf. destruct t as [|a [|b t]]; try discriminate.
    destruct ((a =? CR) && (b =? LF)); [|discriminate].
    intros H. injection H as <-. cbn [length]. lia.
Qed.

#[local] Instance white_tab : WhitePattern match_tab.
Proof.
  split.
  - intros c rest Hc. unfold match_tab. now rewrite (not_ws_not c TAB eq_refl Hc).
  - intros t c Hc. destruct t as [|a t]; cbn [app match_tab]; [|reflexivity].
    now rewrite (not_ws_not c TAB eq_refl Hc).
  - intros t n. unfold match_tab. destruct t as [|a t]; [discriminate|].
    destruct (a =? TAB); [|discriminate].
    intros H. injection H as <-. cbn [length]. lia.
Qed.

#[local] Instance white_ws_nl : WhitePattern match_ws_nl.
Proof.
  split.
  - intros c rest Hc. unfold match_ws_nl. now rewrite Hc.
  - intros t c Hc. destruct t as [|a t]; cbn [app match_ws_nl].
    + now rewrite Hc.
    + now rewrite (takeWhile_snoc is_ws t c Hc).
  - intros t n. unfold match_ws_nl. destruct t as [|a t]; [discriminate|].
    destruct (is_ws a); [|discriminate].
    destruct (lastLineFeed (takeWhile is_ws t)) as [k|] eqn:Hk; [|discriminate].
    intros H. injection H as <-.
    apply lastLineFeed_length in Hk.
    pose proof (takeWhile_length is_ws t). cbn [length]. lia.
Qed.

#[local] Instance white_nl3 : WhitePattern match_nl3.
Proof.
  split.
  - intros c rest Hc. unfold match_nl3. cbn [takeWhile].
    now rewrite (not_ws_not c LF eq_refl Hc).
  - intros t c Hc. unfold match_nl3.
    rewrite (takeWhile_snoc _ t c); [reflexivity|].
    exact (not_ws_not c LF eq_refl Hc).
  - intros t n. unfold match_nl3.
    destruct (Nat.leb 3 (length (takeWhile (fun c => c =? LF) t))); [|discriminate].
    intros H. injection H as <-. apply takeWhile_length.
Qed.

(* ================================================================= *)
(** ** Sanitising: what the line-end rule leaves *)

Lemma match_ws_nl_cons (c : Z) (rest : jsstring) :
  match_ws_nl (c :: rest) =
  if is_ws c then option_map S (lastLineFeed (takeWhile is_ws rest)) else None.
Proof. reflexivity. Qed.

(** A run of white space without a later line feed is left as it is. *)
Lemma ws_nl_keeps_run (u : jsstring) :
  lastLineFeed (takeWhile is_ws u) = None ->
  takeWhile is_ws (replaceAll match_ws_nl [LF] u) = takeWhile is_ws u.
Proof.
  induction u as [|a rest IH]; [reflexivity|].
  cbn [takeWhile]. destruct (is_ws a) eqn:Ha.
  - cbn [lastLineFeed].
    destruct (lastLineFeed (takeWhile is_ws rest)) eqn:Hrest; [discriminate|].
    intros _. rewrite replaceAll_cons, match_ws_nl_cons, Ha, Hrest.
    cbn [option_map takeWhile]. rewrite Ha. now rewrite IH.
  - intros _. rewrite replaceAll_cons, (white_head a rest Ha).
    cbn [takeWhile]. now rewrite Ha.
Qed.

(** After the line-end rule the pattern [/\s+\n/] matches nowhere. *)
Lemma ws_nl_done (k : nat) (s : jsstring) :
  noMatch match_ws_nl (scan match_ws_nl [LF] k s).
Proof.
  revert k. induction s as [|c rest IH]; intros k; [exact I|].
  destruct k as [|k]; cbn [scan]; [|apply IH].
  destruct (match_ws_nl (c :: rest)) as [[|n]|] eqn:Hm.
  - rewrite match_ws_nl_cons in Hm. destruct (is_ws c); [|discriminate Hm].
    destruct (lastLineFeed (takeWhile is_ws rest)); discriminate Hm.
  - rewrite match_ws_nl_cons in Hm. destruct (is_ws c); [|discriminate Hm].
    destruct (lastLineFeed (takeWhile is_ws rest)) as [m|] eqn:Hrun; [|discriminate Hm].
    injection Hm as ->.
    assert (Hbehind : lastLineFeed (takeWhile is_ws (skipn n rest)) = None).
    { rewrite takeWhile_skipn by (apply lastLineFeed_length in Hrun; lia).
      exact (lastLineFeed_skipn _ _ Hrun). }
    cbn [app]. split; [|apply IH].
    rewrite scan_skip, match_ws_nl_cons, is_ws_LF.
    now rewrite (ws_nl_keeps_run _ Hbehind), Hbehind.
  - split; [|apply IH].
    rewrite match_ws_nl_cons in *. destruct (is_ws c); [|reflexivity].
    destruct (lastLineFeed (takeWhile is_ws rest)) eqn:Hrun; [discriminate Hm|].
    fold (replaceAll match_ws_nl [LF] rest).
    now rewrite (ws_nl_keeps_run _ Hrun), Hrun.
Qed.

Lemma ws_nl_excludes_crlf (t : jsstring) :
  match_ws_nl t = None -> match_crlf t = None.
Proof.
  unfold match_crlf. destruct t as [|a [|b t]]; try reflexivity.
  destruct (Z.eqb_spec a CR) as [->|]; [|reflexivity].
  destruct (Z.eqb_spec b LF) as [->|]; [|reflexivity].
  intros H. exfalso. rewrite match_ws_nl_cons in H.
  change (is_ws CR) with true in H. cbn [takeWhile] in H. rewrite is_ws_LF in H.
  destruct (lastLineFeed (LF :: takeWhile is_ws t)) eqn:Hl; [discriminate H|].
  exact (lastLineFeed_LF _ Hl).
Qed.

Lemma ws_nl_excludes_nl3 (t : jsstring) :
  match_ws_nl t = None -> match_nl3 t = None.
Proof.
  unfold match_nl3. destruct t as [|a [|b t]]; try reflexivity.
  - intros _. cbn [takeWhile]. destruct (a =? LF); reflexivity.
  - cbn [takeWhile].
    destruct (Z.eqb_spec a LF) as [->|]; [|reflexivity].
    destruct (Z.eqb_spec b LF) as [->|]; [|reflexivity].
    intros H. exfalso. rewrite match_ws_nl_cons in H.
    rewrite is_ws_LF in H. cbn [takeWhile] in H. rewrite is_ws_LF in H.
    destruct (lastLineFeed (LF :: takeWhile is_ws t)) eqn:Hl; [discriminate H|].
    exact (lastLineFeed_LF _ Hl).
Qed.

Lemma tab_gone (s : jsstring) :
  Forall (fun c => c <> TAB) (replaceAll match_tab [SP; SP] s).
Proof.
  induction s as [|c rest IH]; [constructor|].
  rewrite replaceAll_cons. unfold match_tab.
  destruct (Z.eqb_spec c TAB) as [->|Hc].
  - cbn [skipn app]. repeat constructor; try discriminate. exact IH.
  - constructor; assumption.
Qed.

Lemma no_tab_noMatch (s : jsstring) :
  Forall (fun c => c <> TAB) s -> noMatch match_tab s.
Proof.
  induction 1 as [|c rest Hc Hrest IH]; [exact I|].
  split; [|exact IH]. unfold match_tab.
  destruct (Z.eqb_spec c TAB); [contradiction|reflexivity].
Qed.

(* ================================================================= *)
(** ** Sanitising: idempotence *)

Lemma substring_all (s : jsstring) (n : Z) :
  jslength s <= n -> substring s 0 n = s.
Proof.
  unfold substring, clamp, jslength. intros Hn.
  replace (Z.max 0 (Z.min 0 (Z.of_nat (length s)))) with 0 by lia.
  replace (Z.max 0 (Z.min n (Z.of_nat (length s)))) with (Z.of_nat (length s)) by lia.
  replace (Z.min 0 (Z.of_nat (length s))) with 0 by lia.
  replace (Z.max 0 (Z.of_nat (length s))) with (Z.of_nat (length s)) by lia.
  rewrite Z.sub_0_r, Nat2Z.id. cbn [Z.to_nat skipn]. apply firstn_all.
Qed.

(** The rule for three line feeds or more finds nothing to do. *)
Lemma normalizeText_lineEndsDone (text : jsstring) :
  normalizeText text = lineEndsDone text.
Proof.
  unfold normalizeText. fold (lineEndsDone text).
  apply replaceAll_noMatch.
  apply (noMatch_weaken match_ws_nl); [exact ws_nl_excludes_nl3|].
  unfold lineEndsDone. apply ws_nl_done.
Qed.

Lemma normalizeText_fixed (text : jsstring) :
  normalizeText (normalizeText text) = normalizeText text.
Proof.
  rewrite (normalizeText_lineEndsDone text).
  set (d := lineEndsDone text).
  assert (Hdone : noMatch match_ws_nl d) by (unfold d, lineEndsDone; apply ws_nl_done).
  assert (Htab : Forall (fun c => c <> TAB) d).
  { unfold d, lineEndsDone, replaceAll at 1.
    apply scan_Forall; [repeat constructor; discriminate|apply tab_gone]. }
  assert (Hstart : startsClean d).
  { unfold d, lineEndsDone. repeat apply replaceAll_startsClean; try typeclasses eauto.
    apply trim_clean. }
  assert (Hend : endsClean d).
  { unfold d, lineEndsDone. repeat apply replaceAll_endsClean; try typeclasses eauto.
    apply trim_clean. }
  unfold normalizeText.
  rewrite (trim_fixed d Hstart Hend).
  rewrite (replaceAll_noMatch match_crlf [LF] d)
    by (apply (noMatch_weaken match_ws_nl); [exact ws_nl_excludes_crlf|exact Hdone]).
  rewrite (replaceAll_noMatch match_tab [SP; SP] d) by (now apply no_tab_noMatch).
  rewrite (replaceAll_noMatch match_ws_nl [LF] d) by exact Hdone.
  apply replaceAll_noMatch.
  apply (noMatch_weaken match_ws_nl); [exact ws_nl_excludes_nl3|exact Hdone].
Qed.

Lemma jsstring_eqb_false (a b : jsstring) : jsstring_eqb a b = false -> a <> b.
Proof.
  unfold jsstring_eqb. destruct (list_eq_dec Z.eq_dec a b); [discriminate|trivial].
Qed.

Lemma jsstring_eqb_true (a b : jsstring) : jsstring_eqb a b = true <-> a = b.
Proof.
  unfold jsstring_eqb. destruct (list_eq_dec Z.eq_dec a b); split;
    try discriminate; try contradiction; trivial.
Qed.

(** C6, as stated: it fails on a text that the ceiling cuts behind a
    space.  [long_text] is 99999 letters, a space and a letter; the first
    pass keeps 100000 code units, the last a space, which the second pass
    trims. *)
Lemma sanitizeText_not_idempotent :
  sanitizeText (sanitizeText long_text) <> sanitizeText long_text.
Proof.
  apply jsstring_eqb_false. vm_compute. reflexivity.
Qed.

(** *** Behind the ceiling *)

Lemma substring_firstn (s : jsstring) (n : Z) :
  0 <= n -> substring s 0 n = firstn (Z.to_nat n) s.
Proof.
  unfold substring, clamp, jslength. intros Hn.
  replace (Z.max 0 (Z.min 0 (Z.of_nat (length s)))) with 0 by lia.
  replace (Z.min 0 (Z.max 0 (Z.min n (Z.of_nat (length s))))) with 0 by lia.
  rewrite Z.sub_0_r. cbn [Z.to_nat skipn].
  destruct (Z_le_gt_dec n (Z.of_nat (length s))) as [Hle|Hgt].
  - f_equal. lia.
  - rewrite !firstn_all2 by lia. reflexivity.
Qed.

Lemma trimEnd_prefix (s : jsstring) : exists v, s = trimEnd s ++ v.
Proof.
  induction s as [|c rest [v IH]]; [now exists []|].
  cbn [trimEnd]. destruct (trimEnd rest) as [|k kept].
  - destruct (is_ws c).
    + now exists (c :: rest).
    + exists rest. reflexivity.
  - exists v. cbn [app] in *. now f_equal.
Qed.

Lemma trimEnd_length (s : jsstring) : (length (trimEnd s) <= length s)%nat.
Proof.
  destruct (trimEnd_prefix s) as [v Hv].
  rewrite Hv at 2. rewrite length_app. lia.
Qed.

Lemma startsClean_prefix (t u : jsstring) : startsClean (t ++ u) -> startsClean t.
Proof. destruct t as [|a t]; [intros _; exact I|intros H; exact H]. Qed.

Lemma lastLineFeed_prefix (r v : jsstring) :
  lastLineFeed (r ++ v) = None -> lastLineFeed r = None.
Proof.
  induction r as [|c r IH]; [reflexivity|].
  cbn [app lastLineFeed].
  destruct (lastLineFeed (r ++ v)); [discriminate|].
  intros H. now rewrite IH.
Qed.

Lemma takeWhile_app (p : Z -> bool) (t u : jsstring) :
  exists v, takeWhile p (t ++ u) = takeWhile p t ++ v.
Proof.
  induction t as [|a t [v IH]]; cbn [app takeWhile].
  - now exists (takeWhile p u).
  - destruct (p a); [|now exists []].
    exists v. cbn [app]. now rewrite IH.
Qed.

Lemma ws_nl_prefix (t u : jsstring) :
  t <> [] -> match_ws_nl (t ++ u) = None -> match_ws_nl t = None.
Proof.
  destruct t as [|a t]; [congruence|]. intros _.
  cbn [app]. rewrite !match_ws_nl_cons.
  destruct (is_ws a); [|reflexivity].
  destruct (takeWhile_app is_ws t u) as [v Hv]. rewrite Hv.
  destruct (lastLineFeed (takeWhile is_ws t ++ v)) eqn:Hl; [discriminate|].
  intros _. now rewrite (lastLineFeed_prefix _ _ Hl).
Qed.

Lemma noMatch_ws_nl_prefix (t u : jsstring) :
  noMatch match_ws_nl (t ++ u) -> noMatch match_ws_nl t.
Proof.
  induction t as [|a t IH]; [intros _; exact I|].
  cbn [app noMatch]. intros [Ha Ht]. split; [|now apply IH].
  apply (ws_nl_prefix (a :: t) u); [discriminate|exact Ha].
Qed.

(** A text that starts clean, has no tab and no match of the line-end
    rule is normalised by trimming its end. *)
Lemma normalizeText_clean (p : jsstring) :
  startsClean p ->
  Forall (fun c => c <> TAB) p ->
  noMatch match_ws_nl p ->
  normalizeText p = trimEnd p.
Proof.
  intros Hstart Htab Hdone.
  destruct (trimEnd_prefix p) as [v Hv].
  set (q := trimEnd p) in *.
  assert (Hq : noMatch match_ws_nl q) by (apply (noMatch_ws_nl_prefix q v); now rewrite <- Hv).
  assert (Htq : Forall (fun c => c <> TAB) q).
  { rewrite Hv in Htab. now apply Forall_app in Htab. }
  unfold normalizeText, trim. rewrite (trimStart_fixed p Hstart). fold q.
  rewrite (replaceAll_noMatch match_crlf [LF] q)
    by (apply (noMatch_weaken match_ws_nl); [exact ws_nl_excludes_crlf|exact Hq]).
  rewrite (replaceAll_noMatch match_tab [SP; SP] q) by (now apply no_tab_noMatch).
  rewrite (replaceAll_noMatch match_ws_nl [LF] q) by exact Hq.
  apply replaceAll_noMatch.
  apply (noMatch_weaken match_ws_nl); [exact ws_nl_excludes_nl3|exact Hq].
Qed.

Lemma lineEndsDone_clean (text : jsstring) :
  startsClean (lineEndsDone text) /\
  endsClean (lineEndsDone text) /\
  Forall (fun c => c <> TAB) (lineEndsDone text) /\
  noMatch match_ws_nl (lineEndsDone text).
Proof.
  unfold lineEndsDone. repeat split.
  - repeat apply replaceAll_startsClean; try typeclasses eauto. apply trim_clean.
  - repeat apply replaceAll_endsClean; try typeclasses eauto. apply trim_clean.
  - unfold replaceAll at 1.
    apply scan_Forall; [repeat constructor; discriminate|apply tab_gone].
  - apply ws_nl_done.
Qed.

(** C6, amended.  A second pass of [sanitizeText] only trims the end of
    the result of the first; so [sanitizeText] is idempotent on every text
    whose normalised form, before the cut at 100000 code units, is within
    the ceiling. *)
Theorem sanitizeText_twice (x : jsstring) :
  sanitizeText (sanitizeText x) = trimEnd (sanitizeText x) /\
  (jslength (normalizeText x) <= MAX_TEXT_LENGTH ->
   sanitizeText (sanitizeText x) = sanitizeText x).
Proof.
  assert (Hcut : sanitizeText x = firstn (Z.to_nat MAX_TEXT_LENGTH) (lineEndsDone x)).
  { destruct x as [|c rest].
    - cbn [sanitizeText]. now rewrite firstn_nil.
    - cbn [sanitizeText]. rewrite normalizeText_lineEndsDone.
      apply substring_firstn. discriminate. }
  destruct (lineEndsDone_clean x) as [Hstart [Hend [Htab Hdone]]].
  set (d := lineEndsDone x) in *.
  set (p := sanitizeText x) in *.
  assert (Hd : exists behind, d = p ++ behind).
  { exists (skipn (Z.to_nat MAX_TEXT_LENGTH) d).
    rewrite Hcut. symmetry. apply firstn_skipn. }
  destruct Hd as [behind Hd].
  assert (Hshort : jslength p <= MAX_TEXT_LENGTH).
  { assert (length p <= Z.to_nat MAX_TEXT_LENGTH)%nat
      by (rewrite Hcut; apply firstn_le_length).
    assert (0 <= MAX_TEXT_LENGTH) by discriminate.
    unfold jslength. lia. }
  assert (Htwice : sanitizeText p = trimEnd p).
  { destruct p as [|c rest] eqn:Hp; [reflexivity|]. rewrite <- Hp in *.
    replace (sanitizeText p) with (substring (normalizeText p) 0 MAX_TEXT_LENGTH)
      by (rewrite Hp; reflexivity).
    rewrite normalizeText_clean.
    - apply substring_all. unfold jslength in *.
      pose proof (trimEnd_length p) as Hl. lia.
    - apply (startsClean_prefix p behind). rewrite <- Hd. exact Hstart.
    - rewrite Hd in Htab. apply Forall_app in Htab. exact (proj1 Htab).
    - apply (noMatch_ws_nl_prefix p behind). rewrite <- Hd. exact Hdone. }
  split; [exact Htwice|].
  intros Hlen. rewrite Htwice.
  rewrite normalizeText_lineEndsDone in Hlen. fold d in Hlen.
  assert (Hp : p = d).
  { rewrite Hcut. apply firstn_all2. unfold jslength in Hlen. lia. }
  rewrite Hp. now apply trimEnd_fixed.
Qed.

Lemma sanitizeText_twice_witness :
  jslength (normalizeText sample_text) <= MAX_TEXT_LENGTH /\
  sanitizeText (sanitizeText sample_text) = sanitizeText sample_text.
Proof.
  assert (H : jslength (normalizeText sample_text) <= MAX_TEXT_LENGTH)
    by (vm_compute; discriminate).
  split; [exact H|].
  exact (proj2 (sanitizeText_twice sample_text) H).
Defined.

(* ================================================================= *)
(** ** Token estimation: bounds and composition *)

Lemma koreanCount_bounds (t : jsstring) : 0 <= koreanCount t <= jslength t.
Proof.
  unfold koreanCount, jslength.
  pose proof (filter_length_le isHangulSyllable t). lia.
Qed.

Lemma koreanCount_app (t u : jsstring) :
  koreanCount (t ++ u) = koreanCount t + koreanCount u.
Proof. unfold koreanCount. rewrite filter_app, length_app. lia. Qed.

Lemma jslength_app (t u : jsstring) : jslength (t ++ u) = jslength t + jslength u.
Proof. unfold jslength. rewrite length_app. lia. Qed.

(** The estimate in closed form, also for the empty text: the floor at 1
    of the source never changes the result. *)
Lemma estimateTokens_closed (t : jsstring) :
  estimateTokens t = (3 * koreanCount t + 5 * jslength t + 19) / 20.
Proof.
  destruct t as [|c rest]; [reflexivity|].
  rewrite estimateTokens_Z by discriminate.
  pose proof (koreanCount_bounds (c :: rest)) as Hk.
  assert (Hn : 1 <= jslength (c :: rest)) by (unfold jslength; cbn [length]; lia).
  replace (8 * koreanCount (c :: rest) +
           5 * (jslength (c :: rest) - koreanCount (c :: rest)) + 19)
    with (3 * koreanCount (c :: rest) + 5 * jslength (c :: rest) + 19) by lia.
  set (m := 3 * koreanCount (c :: rest) + 5 * jslength (c :: rest) + 19) in *.
  pose proof (Z.div_mod m 20 ltac:(lia)) as H1.
  pose proof (Z.mod_pos_bound m 20 ltac:(lia)) as H2.
  lia.
Qed.

(** The estimate is 0 for the empty text only, and lies between a quarter
    and two fifths of the length, rounded up. *)
Theorem estimateTokens_bounds (t : jsstring) :
  (estimateTokens t = 0 <-> t = []) /\
  jslength t <= 4 * estimateTokens t /\
  5 * estimateTokens t <= 2 * jslength t + 4.
Proof.
  rewrite estimateTokens_closed.
  pose proof (koreanCount_bounds t) as Hk.
  set (m := 3 * koreanCount t + 5 * jslength t + 19) in *.
  pose proof (Z.div_mod m 20 ltac:(lia)) as H1.
  pose proof (Z.mod_pos_bound m 20 ltac:(lia)) as H2.
  split; [|unfold m in *; lia].
  split.
  - intros H0. destruct t as [|c rest]; [reflexivity|].
    assert (1 <= jslength (c :: rest)) by (unfold jslength; cbn [length]; lia).
    unfold m in *. lia.
  - intros ->. reflexivity.
Qed.

(** Appending text never lowers the estimate, and the estimate of a
    concatenation is at most the sum of the estimates. *)
Theorem estimateTokens_app (t u : jsstring) :
  estimateTokens t <= estimateTokens (t ++ u) /\
  estimateTokens u <= estimateTokens (t ++ u) /\
  estimateTokens (t ++ u) <= estimateTokens t + estimateTokens u.
Proof.
  rewrite !estimateTokens_closed, koreanCount_app, jslength_app.
  pose proof (koreanCount_bounds t) as Ht.
  pose proof (koreanCount_bounds u) as Hu.
  set (a := 3 * koreanCount t + 5 * jslength t) in *.
  set (b := 3 * koreanCount u + 5 * jslength u) in *.
  replace (3 * (koreanCount t + koreanCount u) + 5 * (jslength t + jslength u) + 19)
    with (a + b + 19) by (unfold a, b; lia).
  assert (0 <= a) by (unfold a; lia). assert (0 <= b) by (unfold b; lia).
  pose proof (Z.div_mod (a + 19) 20 ltac:(lia)).
  pose proof (Z.mod_pos_bound (a + 19) 20 ltac:(lia)).
  pose proof (Z.div_mod (b + 19) 20 ltac:(lia)).
  pose proof (Z.mod_pos_bound (b + 19) 20 ltac:(lia)).
  pose proof (Z.div_mod (a + b + 19) 20 ltac:(lia)).
  pose proof (Z.mod_pos_bound (a + b + 19) 20 ltac:(lia)).
  lia.
Qed.

(* ================================================================= *)
(** ** The token budget: what the adjustment guarantees *)

Lemma substring_from_0 (s : jsstring) (n : Z) :
  substring s 0 n = firstn (Z.to_nat n) s.
Proof.
  destruct (Z_le_gt_dec 0 n) as [Hn|Hn]; [now apply substring_firstn|].
  unfold substring, clamp.
  assert (0 <= jslength s) by (unfold jslength; lia).
  replace (Z.max 0 (Z.min 0 (jslength s))) with 0 by lia.
  replace (Z.max 0 (Z.min n (jslength s))) with 0 by lia.
  replace (Z.to_nat n) with 0%nat by lia. reflexivity.
Qed.

Lemma estimate_lower (t : jsstring) : jslength t <= 4 * estimateTokens t.
Proof.
  rewrite estimateTokens_closed.
  pose proof (koreanCount_bounds t) as Hk.
  set (m := 3 * koreanCount t + 5 * jslength t + 19) in *.
  pose proof (Z.div_mod m 20 ltac:(lia)) as H1.
  pose proof (Z.mod_pos_bound m 20 ltac:(lia)) as H2.
  unfold m in *. lia.
Qed.

Lemma estimate_positive (t : jsstring) : t <> [] -> 1 <= estimateTokens t.
Proof.
  intros Hne. pose proof (estimate_lower t) as Hlow.
  assert (0 < jslength t).
  { unfold jslength. destruct t; [congruence|cbn [length]; lia]. }
  lia.
Qed.

(** [validateAndAdjustTokens] agrees with [validateTokenLimit]; a text
    within the budget is left alone; a text over it is replaced by a
    proper prefix of itself followed by the marker, and the estimate that
    is reported is the one of that adjusted text. *)
Theorem validateAndAdjustTokens_shape (t : jsstring) (maxTokens : Z) :
  let v := validateAndAdjustTokens t maxTokens in
  isValid v = validateTokenLimit (estimateTokens t) maxTokens 2000 /\
  (isValid v = true ->
   adjustedText v = None /\ estimatedTokens v = estimateTokens t) /\
  (isValid v = false ->
   exists kept dropped,
     t = kept ++ dropped /\
     (t <> [] -> dropped <> []) /\
     adjustedText v = Some (kept ++ js "...") /\
     estimatedTokens v = estimateTokens (kept ++ js "...")).
Proof.
  intros v. unfold v, validateAndAdjustTokens, validateTokenLimit.
  destruct (Z.leb_spec (estimateTokens t) (maxTokens - 2000)) as [Hle|Hgt];
    cbn [isValid adjustedText estimatedTokens].
  - split; [reflexivity|]. split; [intros _; split; reflexivity|discriminate].
  - split; [reflexivity|]. split; [discriminate|]. intros _.
    rewrite substring_from_0.
    set (q := jslength t * (maxTokens - 2000) / estimateTokens t).
    exists (firstn (Z.to_nat q) t), (skipn (Z.to_nat q) t).
    split; [symmetry; apply firstn_skipn|].
    split; [|split; reflexivity].
    intros Hne Hdrop.
    assert (Hlen : (length (skipn (Z.to_nat q) t) = 0)%nat) by now rewrite Hdrop.
    rewrite length_skipn in Hlen.
    pose proof (estimate_positive t Hne) as Hpos.
    assert (Hn : 0 < jslength t).
    { unfold jslength. destruct t; [congruence|cbn [length]; lia]. }
    assert (Hq : q < jslength t).
    { destruct (Z_lt_le_dec (maxTokens - 2000) 0) as [Hneg|Hnon].
      - assert (q < 0); [|lia].
        apply Z.div_lt_upper_bound; [lia|]. nia.
      - apply Z.div_lt_upper_bound; [lia|]. nia. }
    unfold jslength in Hq, Hn. lia.
Qed.

Lemma validateAndAdjustTokens_shape_witness :
  exists kept dropped,
    js "aaaaaaaa" = kept ++ dropped /\
    adjustedText (validateAndAdjustTokens (js "aaaaaaaa") 2001) = Some (kept ++ js "...").
Proof.
  destruct (validateAndAdjustTokens_shape (js "aaaaaaaa") 2001) as [_ [_ H]].
  destruct (H eq_refl) as [kept [dropped [Ht [_ [Ha _]]]]].
  exists kept, dropped. split; [exact Ht|exact Ha].
Defined.

(** With a budget that is not negative, the adjusted text has at most four
    code units for each token of the budget, and the marker; its estimate
    exceeds the budget by one token at most when the text has no Hangul
    syllable, and stays below 1.6 times the budget plus 1.7 in general. *)
Theorem adjusted_estimate_bound (t : jsstring) (maxTokens : Z) :
  0 <= maxTokens - 2000 ->
  estimateTokens t > maxTokens - 2000 ->
  let v := validateAndAdjustTokens t maxTokens in
  exists adjusted,
    adjustedText v = Some adjusted /\
    jslength adjusted <= 4 * (maxTokens - 2000) + 3 /\
    20 * estimatedTokens v <= 32 * (maxTokens - 2000) + 34 /\
    (koreanCount t = 0 -> estimatedTokens v <= maxTokens - 2000 + 1).
Proof.
  intros Hbudget Hover v. unfold v, validateAndAdjustTokens.
  destruct (Z.leb_spec (estimateTokens t) (maxTokens - 2000)) as [Hle|_]; [lia|].
  cbn [adjustedText estimatedTokens]. rewrite substring_from_0.
  set (M := maxTokens - 2000) in *.
  set (q := jslength t * M / estimateTokens t).
  set (kept := firstn (Z.to_nat q) t).
  exists (kept ++ js "..."). split; [reflexivity|].
  pose proof (estimate_lower t) as Hlow.
  assert (Hq : q <= 4 * M).
  { apply Z.div_le_upper_bound; [lia|].
    assert (0 <= jslength t) by (unfold jslength; lia). nia. }
  assert (Hkept : jslength kept <= 4 * M).
  { unfold kept, jslength. pose proof (firstn_le_length (Z.to_nat q) t).
    rewrite length_firstn. lia. }
  assert (Hk : 0 <= koreanCount kept <= koreanCount t).
  { pose proof (koreanCount_bounds kept).
    pose proof (koreanCount_bounds (skipn (Z.to_nat q) t)).
    assert (Ht : koreanCount t =
                 koreanCount kept + koreanCount (skipn (Z.to_nat q) t))
      by (rewrite <- koreanCount_app; unfold kept; now rewrite firstn_skipn).
    lia. }
  pose proof (koreanCount_bounds kept) as Hkb.
  rewrite estimateTokens_closed, koreanCount_app, !jslength_app.
  change (koreanCount (js "...")) with 0. change (jslength (js "...")) with 3.
  set (m := 3 * (koreanCount kept + 0) + 5 * (jslength kept + 3) + 19).
  pose proof (Z.div_mod m 20 ltac:(lia)) as H1.
  pose proof (Z.mod_pos_bound m 20 ltac:(lia)) as H2.
  unfold m in *. repeat split; lia.
Qed.

Lemma adjusted_estimate_bound_witness :
  exists adjusted,
    adjustedText (validateAndAdjustTokens (js "aaaaaaaa") 2001) = Some adjusted /\
    jslength adjusted <= 7 /\
    estimatedTokens (validateAndAdjustTokens (js "aaaaaaaa") 2001) <= 2.
Proof.
  destruct (adjusted_estimate_bound (js "aaaaaaaa") 2001) as [adjusted [Ha [Hl [_ He]]]].
  - vm_compute. discriminate.
  - vm_compute. reflexivity.
  - exists adjusted. split; [exact Ha|]. split; [exact Hl|].
    exact (He eq_refl).
Defined.

(** A request whose token limit is 2000 or less has no input budget: every
    prompt that is not blank is replaced by the marker, and that is the
    text of the request that is sent. *)
Theorem small_limit_sends_marker (this : GeminiClient) (options : GeminiRequestOptions) :
  orNumber (optMaxTokens options) (maxTokens (config this)) <= 2000 ->
  sanitizeText (prompt options) <> [] ->
  finalPromptOf this options = js "..." /\
  reqText (buildRequest this (finalPromptOf this options) options) = js "...".
Proof.
  intros Hlimit Hprompt.
  assert (Hfinal : finalPromptOf this options = js "...").
  { unfold finalPromptOf.
    pose proof (estimate_positive _ Hprompt) as Hpos.
    destruct (no_budget_marker_only (sanitizeText (prompt options))
                (orNumber (optMaxTokens options) (maxTokens (config this)))
                Hlimit ltac:(lia)) as [Ha _].
    rewrite Ha. reflexivity. }
  split; [exact Hfinal|]. rewrite Hfinal. reflexivity.
Qed.

Lemma small_limit_sends_marker_witness :
  finalPromptOf readyClient healthProbe = js "..." /\
  reqText (buildRequest readyClient (finalPromptOf readyClient healthProbe) healthProbe)
  = js "...".
Proof.
  apply (small_limit_sends_marker readyClient healthProbe).
  - vm_compute. discriminate.
  - vm_compute. discriminate.
Defined.

(* ================================================================= *)
(** ** Sanitising: the result *)

Lemma sanitizeText_cut (x : jsstring) :
  sanitizeText x = firstn (Z.to_nat MAX_TEXT_LENGTH) (lineEndsDone x).
Proof.
  destruct x as [|c rest].
  - cbn [sanitizeText]. now rewrite firstn_nil.
  - cbn [sanitizeText]. rewrite normalizeText_lineEndsDone.
    apply substring_firstn. discriminate.
Qed.

Lemma sanitizeText_length (x : jsstring) : jslength (sanitizeText x) <= MAX_TEXT_LENGTH.
Proof.
  rewrite sanitizeText_cut. unfold jslength.
  pose proof (firstn_le_length (Z.to_nat MAX_TEXT_LENGTH) (lineEndsDone x)) as H.
  assert (0 <= MAX_TEXT_LENGTH) by discriminate. lia.
Qed.

(** A text that starts clean, has no tab, no match of the line-end rule
    and fits the ceiling is sanitised by trimming its end. *)
Lemma sanitizeText_clean (p : jsstring) :
  startsClean p ->
  Forall (fun c => c <> TAB) p ->
  noMatch match_ws_nl p ->
  jslength p <= MAX_TEXT_LENGTH ->
  sanitizeText p = trimEnd p.
Proof.
  intros Hstart Htab Hdone Hlen.
  destruct p as [|c rest] eqn:Hp; [reflexivity|]. rewrite <- Hp in *.
  replace (sanitizeText p) with (substring (normalizeText p) 0 MAX_TEXT_LENGTH)
    by (rewrite Hp; reflexivity).
  rewrite (normalizeText_clean p Hstart Htab Hdone).
  apply substring_all. unfold jslength in *.
  pose proof (trimEnd_length p). lia.
Qed.

Lemma noMatch_suffix (m : jsstring -> option nat) (pre t : jsstring) :
  noMatch m (pre ++ t) -> noMatch m t.
Proof.
  induction pre as [|a pre IH]; [trivial|].
  cbn [app noMatch]. intros [_ H]. now apply IH.
Qed.

Lemma takeWhile_split (p : Z -> bool) (s : jsstring) :
  exists behind, s = takeWhile p s ++ behind /\ Forall (fun c => p c = true) (takeWhile p s).
Proof.
  induction s as [|a s [behind [Hs Hall]]]; [exists []; split; [reflexivity|constructor]|].
  cbn [takeWhile]. destruct (p a) eqn:Ha.
  - exists behind. split; [cbn [app]; now f_equal|now constructor].
  - exists (a :: s). split; [reflexivity|constructor].
Qed.

Lemma lastLineFeed_split (run : jsstring) (n : nat) :
  lastLineFeed run = Some n -> exists before behind, run = before ++ LF :: behind.
Proof.
  revert n. induction run as [|c run IH]; intros n; cbn [lastLineFeed]; [discriminate|].
  destruct (lastLineFeed run) as [k|].
  - intros _. destruct (IH k eq_refl) as [before [behind ->]].
    now exists (c :: before), behind.
  - destruct (Z.eqb_spec c LF) as [->|]; [|discriminate].
    intros _. now exists [], run.
Qed.

(** The line-end rule matches nowhere exactly when no line feed comes
    directly behind a code unit of white space. *)
Lemma noMatch_ws_nl_iff (s : jsstring) :
  noMatch match_ws_nl s <->
  (forall pre c post, s = pre ++ c :: LF :: post -> is_ws c = false).
Proof.
  split.
  - intros Hdone pre c post ->.
    apply noMatch_suffix in Hdone. destruct Hdone as [Hc _].
    rewrite match_ws_nl_cons in Hc.
    destruct (is_ws c); [|reflexivity].
    cbn [takeWhile] in Hc. rewrite is_ws_LF in Hc.
    destruct (lastLineFeed (LF :: takeWhile is_ws post)) eqn:Hl; [discriminate Hc|].
    exfalso. exact (lastLineFeed_LF _ Hl).
  - induction s as [|a rest IH]; [intros _; exact I|].
    intros Hno. split.
    + rewrite match_ws_nl_cons. destruct (is_ws a) eqn:Ha; [|reflexivity].
      destruct (lastLineFeed (takeWhile is_ws rest)) as [n|] eqn:Hl; [|reflexivity].
      exfalso.
      destruct (lastLineFeed_split _ _ Hl) as [before [behind Hrun]].
      destruct (takeWhile_split is_ws rest) as [tail [Hrest Hall]].
      rewrite Hrun in Hrest, Hall.
      induction before as [|d before' _] using rev_ind.
      * specialize (Hno [] a (behind ++ tail)).
        assert (Heq : a :: rest = [] ++ a :: LF :: behind ++ tail)
          by (rewrite Hrest; reflexivity).
        specialize (Hno Heq). congruence.
      * apply Forall_app in Hall. destruct Hall as [Hbefore _].
        apply Forall_app in Hbefore. destruct Hbefore as [_ Hd].
        apply Forall_inv in Hd.
        specialize (Hno (a :: before') d (behind ++ tail)).
        assert (Heq : a :: rest = (a :: before') ++ d :: LF :: behind ++ tail).
        { rewrite Hrest. cbn [app]. f_equal.
          rewrite <- !app_assoc. reflexivity. }
        specialize (Hno Heq). congruence.
    + apply IH. intros pre c post ->.
      apply (Hno (a :: pre) c post). reflexivity.
Qed.

Lemma no_tab_iff (s : jsstring) : Forall (fun c => c <> TAB) s <-> ~ In TAB s.
Proof.
  rewrite Forall_forall. split.
  - intros H Hin. exact (H TAB Hin eq_refl).
  - intros H c Hin ->. exact (H Hin).
Qed.

Lemma sanitizeText_kept_clean (x : jsstring) :
  startsClean (sanitizeText x) /\
  Forall (fun c => c <> TAB) (sanitizeText x) /\
  noMatch match_ws_nl (sanitizeText x).
Proof.
  destruct (lineEndsDone_clean x) as [Hstart [_ [Htab Hdone]]].
  rewrite sanitizeText_cut.
  set (d := lineEndsDone x) in *.
  set (n := Z.to_nat MAX_TEXT_LENGTH).
  assert (Hd : d = firstn n d ++ skipn n d) by (symmetry; apply firstn_skipn).
  split; [|split].
  - apply (startsClean_prefix _ (skipn n d)). rewrite <- Hd. exact Hstart.
  - rewrite Hd in Htab. apply Forall_app in Htab. exact (proj1 Htab).
  - apply (noMatch_ws_nl_prefix _ (skipn n d)). rewrite <- Hd. exact Hdone.
Qed.

(** The result of [sanitizeText] has at most 100000 code units, starts
    with a code unit that is not white space, contains no tab, and no line
    feed in it comes directly behind white space: no CR LF, no blank before
    a line feed and no two line feeds in a row. *)
Theorem sanitizeText_result (x : jsstring) :
  let out := sanitizeText x in
  jslength out <= MAX_TEXT_LENGTH /\
  startsClean out /\
  ~ In TAB out /\
  (forall pre c post, out = pre ++ c :: LF :: post -> is_ws c = false).
Proof.
  intros out. unfold out.
  destruct (sanitizeText_kept_clean x) as [Hstart [Htab Hdone]].
  split; [apply sanitizeText_length|]. split; [exact Hstart|]. split.
  - now apply no_tab_iff.
  - now apply noMatch_ws_nl_iff.
Qed.

Lemma trimStart_nil_iff (x : jsstring) :
  trimStart x = [] <-> Forall (fun c => is_ws c = true) x.
Proof.
  unfold trimStart. induction x as [|c rest IH]; cbn [dropWhile].
  - split; [constructor|reflexivity].
  - destruct (is_ws c) eqn:Hc.
    + rewrite IH. split; [now constructor|]. intros H. now inversion H.
    + split; [discriminate|]. intros H. inversion H; congruence.
Qed.

Lemma trimEnd_head (c : Z) (rest : jsstring) :
  is_ws c = false -> exists kept, trimEnd (c :: rest) = c :: kept.
Proof.
  intros Hc. cbn [trimEnd]. destruct (trimEnd rest) as [|k kept].
  - rewrite Hc. now exists [].
  - now exists (k :: kept).
Qed.

Lemma replaceAll_head (m : jsstring -> option nat) (rep : jsstring)
      {white : WhitePattern m} (c : Z) (rest : jsstring) :
  is_ws c = false -> replaceAll m rep (c :: rest) = c :: replaceAll m rep rest.
Proof. intros Hc. now rewrite replaceAll_cons, (white_head c rest Hc). Qed.

(** [sanitizeText] returns the empty text exactly for the texts that
    consist of white space only (the empty text among them). *)
Theorem sanitizeText_empty_iff (x : jsstring) :
  sanitizeText x = [] <-> Forall (fun c => is_ws c = true) x.
Proof.
  rewrite sanitizeText_cut. unfold lineEndsDone, trim. split.
  - intros Hout. apply trimStart_nil_iff.
    pose proof (trimStart_startsClean x) as Hstart.
    destruct (trimStart x) as [|c rest]; [reflexivity|].
    cbn [startsClean] in Hstart.
    destruct (trimEnd_head c rest Hstart) as [kept Hkept].
    rewrite Hkept in Hout.
    rewrite (replaceAll_head match_crlf [LF] c _ Hstart) in Hout.
    rewrite (replaceAll_head match_tab [SP; SP] c _ Hstart) in Hout.
    rewrite (replaceAll_head match_ws_nl [LF] c _ Hstart) in Hout.
    destruct (Z.to_nat MAX_TEXT_LENGTH) as [|n] eqn:Hn; [discriminate Hn|].
    discriminate Hout.
  - intros Hblank. apply trimStart_nil_iff in Hblank. rewrite Hblank.
    now rewrite firstn_nil.
Qed.

(** The texts that [sanitizeText] leaves as they are: those within the
    ceiling that neither start nor end with white space, have no tab, and
    in which no line feed comes directly behind white space. *)
Theorem sanitizeText_fixed_iff (x : jsstring) :
  sanitizeText x = x <->
  (startsClean x /\ endsClean x /\ ~ In TAB x /\
   (forall pre c post, x = pre ++ c :: LF :: post -> is_ws c = false) /\
   jslength x <= MAX_TEXT_LENGTH).
Proof.
  split.
  - intros Hfix.
    destruct (sanitizeText_kept_clean x) as [Hstart [Htab Hdone]].
    pose proof (sanitizeText_length x) as Hlen.
    rewrite Hfix in Hlen, Hstart, Htab, Hdone.
    assert (Hend : endsClean x).
    { assert (Htrim : sanitizeText x = trimEnd x)
        by (apply sanitizeText_clean; assumption).
      rewrite Hfix in Htrim. rewrite Htrim. apply trimEnd_endsClean. }
    split; [exact Hstart|]. split; [exact Hend|]. split; [now apply no_tab_iff|].
    split; [now apply noMatch_ws_nl_iff|exact Hlen].
  - intros [Hstart [Hend [Htab [Hlf Hlen]]]].
    rewrite sanitizeText_clean; try assumption.
    + now apply trimEnd_fixed.
    + now apply no_tab_iff.
    + now apply noMatch_ws_nl_iff.
Qed.

(* ================================================================= *)
(** ** The retry executor: which invocation decides *)

Lemma nullish_retried (e : thrown) :
  isNullish e = true -> isNonRetryableError e = false.
Proof. destruct e; try discriminate. reflexivity. Qed.

Lemma not_retried_not_nullish (e : thrown) :
  isNonRetryableError e = true -> isNullish e = false.
Proof.
  intros H. destruct (isNullish e) eqn:Hn; [|reflexivity].
  apply nullish_retried in Hn. congruence.
Qed.

Lemma settled_normal {T : Type} (lastAttempt : bool) (outcome : completion T) (v : T) :
  settled lastAttempt outcome = Normal v -> outcome = Normal v.
Proof.
  destruct outcome as [v0|e]; cbn [settled]; [trivial|].
  destruct (negb lastAttempt && isNullish e); discriminate.
Qed.

Section RetryShape.
Context {St T : Type}.
Variable operation : M St T.
Variable maxRetries : Z.
Variable baseBackoffMs : Z.

Lemma retryLoop_shape (fuel : nat) (attempt : Z) (lastError : thrown) (s : St) :
  Z.of_nat fuel = maxRetries - attempt + 1 ->
  (1 <= fuel)%nat ->
  exists j,
    (j < fuel)%nat /\
    retryLoop operation maxRetries baseBackoffMs fuel attempt lastError s =
      (settled (S j =? fuel)%nat (fst (operation (stateBefore operation j s))),
       snd (operation (stateBefore operation j s))) /\
    (forall i, (i < j)%nat ->
       exists e, fst (operation (stateBefore operation i s)) = Throw e /\
                 isNonRetryableError e = false /\ isNullish e = false) /\
    match fst (operation (stateBefore operation j s)) with
    | Normal _ => True
    | Throw e => isNonRetryableError e = true \/ S j = fuel \/ isNullish e = true
    end.
Proof.
  revert attempt lastError s.
  induction fuel as [|fuel IH]; intros attempt lastError s Hfuel Hone; [lia|].
  rewrite retryLoop_step by lia.
  destruct (operation s) as [[v|e] s'] eqn:Hop; cbn [fst snd].
  - exists 0%nat. cbn [stateBefore]. rewrite Hop. cbn [fst snd settled].
    repeat split; [lia|intros i Hi; lia].
  - destruct (isNonRetryableError e) eqn:Hnr.
    + exists 0%nat. cbn [stateBefore]. rewrite Hop. cbn [fst snd settled].
      rewrite (not_retried_not_nullish e Hnr), andb_false_r.
      repeat split; [lia|intros i Hi; lia|now left].
    + destruct (Z.geb_spec attempt maxRetries) as [Hge|Hlt].
      * assert (fuel = 0%nat) by lia. subst fuel.
        exists 0%nat. cbn [stateBefore]. rewrite Hop. cbn [fst snd settled Nat.eqb negb andb].
        repeat split; [lia|intros i Hi; lia|right; now left].
      * destruct (isNullish e) eqn:Hnull.
        -- exists 0%nat. cbn [stateBefore]. rewrite Hop. cbn [fst snd settled].
           rewrite Hnull.
           destruct fuel as [|fuel']; [lia|]. cbn [Nat.eqb negb andb].
           repeat split; [lia|intros i Hi; lia|right; now right].
        -- destruct (IH (attempt + 1) e s' ltac:(lia) ltac:(lia))
             as [j [Hj [Hrun [Hbefore Hlast]]]].
           exists (S j). cbn [stateBefore]. rewrite Hop. cbn [snd].
           split; [lia|]. split; [exact Hrun|]. split.
           ++ intros [|i] Hi.
              ** exists e. cbn [stateBefore]. rewrite Hop.
                 split; [reflexivity|]. split; [exact Hnr|exact Hnull].
              ** cbn [stateBefore]. rewrite Hop. cbn [snd]. apply Hbefore. lia.
           ++ destruct (fst (operation (stateBefore operation j s'))); [exact I|].
              destruct Hlast as [Hl|[Hl|Hl]];
                [now left|right; left; lia|right; now right].
Qed.
End RetryShape.

(** The state that [withRetry] leaves is the one of the last invocation it
    made, and its outcome is the outcome of that invocation, with one
    exception: when the invocation was not the last attempt and threw
    [undefined] or [null], the outcome is the [TypeError] of the warning.
    Every earlier invocation threw an error that may be retried and is not
    [undefined] or [null]; the last one returned, threw an error that must
    not be retried, used the last attempt, or threw [undefined] or [null].
    With no attempt allowed the operation is not invoked and the value
    [undefined] is thrown. *)
Theorem withRetry_last_invocation {St T : Type} (operation : M St T)
        (maxRetries baseBackoffMs : Z) (s : St) :
  (maxRetries <= 0 ->
   withRetry operation maxRetries baseBackoffMs s = (Throw (Falsy (js "undefined")), s)) /\
  (1 <= maxRetries ->
   exists j,
     (j < Z.to_nat maxRetries)%nat /\
     withRetry operation maxRetries baseBackoffMs s =
       (settled (S j =? Z.to_nat maxRetries)%nat
                (fst (operation (stateBefore operation j s))),
        snd (operation (stateBefore operation j s))) /\
     (forall i, (i < j)%nat ->
        exists e, fst (operation (stateBefore operation i s)) = Throw e /\
                  isNonRetryableError e = false /\ isNullish e = false) /\
     match fst (operation (stateBefore operation j s)) with
     | Normal _ => True
     | Throw e =>
         isNonRetryableError e = true \/ S j = Z.to_nat maxRetries \/
         isNullish e = true
     end).
Proof.
  unfold withRetry. split.
  - intros Hnone. apply retryLoop_exit. lia.
  - intros Hone. apply retryLoop_shape; lia.
Qed.

Lemma withRetry_last_invocation_witness :
  exists j,
    (j < Z.to_nat 3)%nat /\
    withRetry rejecting 3 1000 0%nat =
      (settled (S j =? Z.to_nat 3)%nat (fst (rejecting (stateBefore rejecting j 0%nat))),
       snd (rejecting (stateBefore rejecting j 0%nat))).
Proof.
  destruct (proj2 (withRetry_last_invocation rejecting 3 1000 0%nat) ltac:(lia))
    as [j [Hj [Hrun _]]].
  exists j. split; [exact Hj|exact Hrun].
Defined.

(* ================================================================= *)
(** ** Which errors are retried *)

Lemma kind_retried_iff (k : GeminiErrorType) :
  kindIn [API_KEY_INVALID; CONTENT_FILTERED; TOKEN_LIMIT_EXCEEDED; INVALID_REQUEST] k = false <->
  In k [QUOTA_EXCEEDED; TIMEOUT; NETWORK_ERROR; RATE_LIMIT_EXCEEDED;
        SERVICE_UNAVAILABLE; UNKNOWN].
Proof.
  destruct k; cbn; split; try discriminate; try (intros _; tauto);
    intros Hin; try reflexivity;
    repeat (destruct Hin as [Hin|Hin]; [discriminate Hin|]); contradiction.
Qed.

Lemma flagged_retried_iff (type : GeminiErrorType) (flag : bool) :
  isRetryable type flag = true <->
  flag = true /\ In type [TIMEOUT; NETWORK_ERROR; SERVICE_UNAVAILABLE].
Proof.
  destruct type, flag; cbn; split;
    try discriminate; try (intros _; split; [reflexivity|tauto]);
    intros [Hf Hin]; try discriminate Hf; try reflexivity;
    repeat (destruct Hin as [Hin|Hin]; [discriminate Hin|]); contradiction.
Qed.

Lemma retriedAgain_iff (e : thrown) :
  retriedAgain e <-> isNonRetryableError e = false /\ isNullish e = false.
Proof.
  destruct e as [shown|shown message status statusCode|name message status statusCode|
                 type message cause flag]; cbn [retriedAgain isNullish].
  - rewrite orb_false_iff. split.
    + intros [Hu Hn]. split; [reflexivity|]. split.
      * destruct (jsstring_eqb shown (js "undefined")) eqn:H; [|reflexivity].
        apply jsstring_eqb_true in H. contradiction.
      * destruct (jsstring_eqb shown (js "null")) eqn:H; [|reflexivity].
        apply jsstring_eqb_true in H. contradiction.
    + intros [_ [Hu Hn]]. split; apply jsstring_eqb_false; assumption.
  - rewrite <- kind_retried_iff. cbn [isNonRetryableError]. tauto.
  - rewrite <- kind_retried_iff. cbn [isNonRetryableError]. tauto.
  - rewrite <- flagged_retried_iff. cbn [isNonRetryableError].
    destruct (isRetryable type flag); cbn [negb]; split;
      try tauto; try discriminate; intros [H _]; discriminate H.
Qed.

(** An iteration that starts with an attempt left invokes the operation. *)
Lemma retryLoop_calls_first {St T : Type} (operation : M St T)
      (maxRetries baseBackoffMs : Z) (fuel : nat) (attempt : Z)
      (lastError : thrown) (s : St) (n : nat) :
  attempt <= maxRetries ->
  (S n <= callsOf (retryLoop (counted operation) maxRetries baseBackoffMs
                             (S fuel) attempt lastError (s, n)))%nat.
Proof.
  intros Hle. rewrite retryLoop_step by exact Hle. rewrite counted_step. cbn [fst snd].
  destruct (fst (operation s)) as [v|e]; [unfold callsOf; cbn; lia|].
  destruct (isNonRetryableError e); [unfold callsOf; cbn; lia|].
  destruct (attempt >=? maxRetries); [unfold callsOf; cbn; lia|].
  destruct (isNullish e); [unfold callsOf; cbn; lia|].
  pose proof (retryLoop_calls_bound operation maxRetries baseBackoffMs fuel
                (attempt + 1) e (snd (operation s)) (S n)).
  lia.
Qed.

(** Which errors are retried.  When at least two attempts are allowed and
    the first invocation throws [e], the operation is invoked again exactly
    when [e] is a [GeminiError] whose flag is set and whose kind is
    [TIMEOUT], [NETWORK_ERROR] or [SERVICE_UNAVAILABLE], or a thrown falsy
    value other than [undefined] and [null], or another value that is not
    classified as [API_KEY_INVALID], [CONTENT_FILTERED],
    [TOKEN_LIMIT_EXCEEDED] or [INVALID_REQUEST].  When it is not invoked
    again, [e] itself is thrown, except for [undefined] and [null], for
    which a [TypeError] is thrown. *)
Theorem retry_eligibility {St T : Type} (operation : M St T)
        (maxRetries baseBackoffMs : Z) (s : St) (e : thrown) :
  2 <= maxRetries ->
  fst (operation s) = Throw e ->
  let run := withRetry (counted operation) maxRetries baseBackoffMs (s, 0%nat) in
  ((2 <= callsOf run)%nat <-> retriedAgain e) /\
  (~ retriedAgain e ->
   callsOf run = 1%nat /\
   fst run = Throw (if isNullish e then cannotReadMessage e else e)).
Proof.
  intros Hmax He run.
  assert (Hstep : run =
            if isNonRetryableError e then (Throw e, (snd (operation s), 1%nat))
            else if isNullish e
                 then (Throw (cannotReadMessage e), (snd (operation s), 1%nat))
                 else retryLoop (counted operation) maxRetries baseBackoffMs
                                (Z.to_nat maxRetries - 1) 2 e (snd (operation s), 1%nat)).
  { unfold run, withRetry.
    destruct (Z.to_nat maxRetries) as [|fuel] eqn:Hfuel; [lia|].
    rewrite retryLoop_step by lia. rewrite counted_step. cbn [fst snd]. rewrite He.
    destruct (Z.geb_spec 1 maxRetries) as [Hge|_]; [lia|].
    replace (S fuel - 1)%nat with fuel by lia. reflexivity. }
  rewrite retriedAgain_iff.
  destruct (isNonRetryableError e) eqn:Hnr.
  - rewrite (not_retried_not_nullish e Hnr) in *. rewrite Hstep.
    unfold callsOf. cbn [fst snd]. split.
    + split; [lia|intros [H _]; discriminate H].
    + intros _. split; reflexivity.
  - destruct (isNullish e) eqn:Hnull.
    + rewrite Hstep. unfold callsOf. cbn [fst snd]. split.
      * split; [lia|intros [_ H]; discriminate H].
      * intros _. split; reflexivity.
    + split.
      * split; [intros _; split; reflexivity|intros _].
        rewrite Hstep.
        destruct (Z.to_nat maxRetries - 1)%nat as [|fuel] eqn:Hfuel; [lia|].
        pose proof (retryLoop_calls_first operation maxRetries baseBackoffMs fuel 2 e
                      (snd (operation s)) 1 ltac:(lia)).
        lia.
      * intros Hnot. exfalso. apply Hnot. split; reflexivity.
Qed.

Lemma retry_eligibility_witness :
  let run := withRetry (counted failing) 3 1000 (0%nat, 0%nat) in
  (2 <= callsOf run)%nat <-> retriedAgain networkDown.
Proof.
  intros run.
  apply (proj1 (retry_eligibility failing 3 1000 0%nat networkDown
                  ltac:(lia) eq_refl)).
Defined.

(* ================================================================= *)
(** ** Classification: what it looks at *)

Lemma codePoints_ascii (s : jsstring) : isAscii s -> codePoints s = s.
Proof.
  induction s as [|a tl IH]; intros Hs; [reflexivity|].
  pose proof (Forall_inv Hs) as Ha. cbn beta in Ha. apply Forall_inv_tail in Hs.
  cbn [codePoints]. destruct tl as [|b rest]; [reflexivity|].
  replace (isLeadSurrogate a) with false
    by (symmetry; unfold isLeadSurrogate; apply andb_false_iff; left;
        apply Z.leb_gt; lia).
  cbn [andb]. f_equal. exact (IH Hs).
Qed.

Lemma lowerPoints_ascii (before s : list Z) :
  isAscii s -> lowerPoints before s = map lowerAscii s.
Proof.
  revert before. induction s as [|c after IH]; intros before Hs; [reflexivity|].
  pose proof (Forall_inv Hs) as Hc. cbn beta in Hc. apply Forall_inv_tail in Hs.
  cbn [lowerPoints map].
  replace (c =? 0x3A3) with false by (symmetry; apply Z.eqb_neq; lia).
  replace (c =? 0x130) with false by (symmetry; apply Z.eqb_neq; lia).
  unfold lowerPoint.
  replace (c <? 0x80) with true by (symmetry; apply Z.ltb_lt; lia).
  cbn [app]. f_equal. exact (IH _ Hs).
Qed.

Lemma lowerAscii_bound (c : Z) : 0 <= c < 128 -> 0 <= lowerAscii c < 128.
Proof.
  intros Hc. unfold lowerAscii.
  destruct ((0x41 <=? c) && (c <=? 0x5A)) eqn:H; [|exact Hc].
  apply andb_true_iff in H. destruct H as [H1 H2].
  apply Z.leb_le in H1. apply Z.leb_le in H2. lia.
Qed.

(** On a text of ASCII characters, [toLowerCase] maps the letters A-Z and
    nothing else. *)
Lemma toLowerCase_ascii (s : jsstring) :
  isAscii s -> toLowerCase s = map lowerAscii s.
Proof.
  intros Hs. unfold toLowerCase.
  rewrite (codePoints_ascii s Hs), (lowerPoints_ascii [] s Hs).
  induction s as [|c s IH]; [reflexivity|].
  pose proof (lowerAscii_bound c (Forall_inv Hs)) as Hc.
  cbn [map flat_map]. unfold codeUnits at 1.
  replace (lowerAscii c <? 0x10000) with true by (symmetry; apply Z.ltb_lt; lia).
  cbn [app]. f_equal. apply IH. exact (Forall_inv_tail Hs).
Qed.

(** Classification does not tell upper case from lower case: two messages
    of ASCII characters that differ in the case of letters only get the
    same kind, whatever the name of the error and whether the value is an
    [Error] or not.  Letters outside ASCII count as [toLowerCase] maps them:
    the Kelvin sign is a "k", and a message that spells "API KEY" with it is
    classified as [API_KEY_INVALID], although mapping the letters A-Z alone
    finds no "api key" in it. *)
Theorem inferErrorType_insensitive :
  (forall shown name message message' status statusCode,
      isAscii message -> isAscii message' ->
      map lowerAscii message = map lowerAscii message' ->
      inferErrorType (ErrorObj name message status statusCode) =
      inferErrorType (Value shown (Some message') status statusCode)) /\
  (forall name status statusCode,
      inferErrorType (ErrorObj name kelvinKey status statusCode) = API_KEY_INVALID /\
      includes (map lowerAscii kelvinKey) (js "api key") = false).
Proof.
  split.
  - intros shown name message message' status statusCode Hm Hm' Heq.
    unfold inferErrorType. cbn [truthy negb messageOf statusOf].
    rewrite (toLowerCase_ascii message Hm), (toLowerCase_ascii message' Hm'), Heq.
    destruct status; reflexivity.
  - intros name status statusCode. split; [|vm_compute; reflexivity].
    unfold inferErrorType. cbn [truthy negb messageOf].
    assert (Hkey : includes (toLowerCase kelvinKey) (js "api key") = true)
      by (vm_compute; reflexivity).
    cbv zeta. rewrite Hkey. rewrite orb_true_r. reflexivity.
Qed.

Lemma inferErrorType_insensitive_witness :
  inferErrorType (ErrorObj (js "Error") (js "REQUEST TIMEOUT") None None) =
  inferErrorType (Value (js "[object Object]") (Some (js "Request timeout")) None None).
Proof.
  apply (proj1 inferErrorType_insensitive).
  - repeat constructor; lia.
  - repeat constructor; lia.
  - reflexivity.
Defined.

(** An error is classified as [API_KEY_INVALID] exactly when it is a truthy
    value whose status is 401 or whose message mentions "unauthorized" or
    "api key": no later rule gives that kind and nothing overrides the
    first. *)
Theorem api_key_invalid_iff (e : thrown) :
  inferErrorType e = API_KEY_INVALID <->
  truthy e = true /\
  (statusOf e = Some 401 \/
   includes (toLowerCase (messageOf e)) (js "unauthorized") = true \/
   includes (toLowerCase (messageOf e)) (js "api key") = true).
Proof.
  unfold inferErrorType.
  destruct (truthy e); cbn [negb]; [|split; [discriminate|intros [H _]; discriminate H]].
  set (m := toLowerCase (messageOf e)).
  assert (H401 : statusIs (statusOf e) 401 = true <-> statusOf e = Some 401).
  { unfold statusIs. destruct (statusOf e) as [s|]; [|split; discriminate].
    rewrite Z.eqb_eq. split; [now intros ->|congruence]. }
  destruct (statusIs (statusOf e) 401) eqn:Hs; cbn [orb].
  - split; [intros _|reflexivity]. split; [reflexivity|]. left. now apply H401.
  - destruct (includes m (js "unauthorized")) eqn:Hu; cbn [orb].
    + split; [intros _|reflexivity]. split; [reflexivity|]. right. now left.
    + destruct (includes m (js "api key")) eqn:Ha.
      * split; [intros _|reflexivity]. split; [reflexivity|]. right. now right.
      * split.
        -- repeat match goal with
                  | |- context [if ?b then _ else _] => destruct b
                  end; discriminate.
        -- intros [_ [H|[H|H]]]; [|discriminate H|discriminate H].
           apply H401 in H. discriminate H.
Qed.

(* ================================================================= *)
(** ** The request client: one request *)

Lemma generateText_run (this : GeminiClient) (options : GeminiRequestOptions) (w : World) :
  initialized this = true ->
  generateText this options w =
  match withRetry (makeAPICall this (finalPromptOf this options) options) 3 1000 w with
  | (Normal response, w1) =>
      (Normal (successResponse this options response),
       withUsage (successLog this options w1 response :: usage w1) w1)
  | (Throw e, w1) =>
      (Throw (wrapError e),
       withUsage (failureLog this options w1 e :: usage w1) w1)
  end.
Proof.
  intros Hinit. unfold generateText. rewrite Hinit. cbn [negb].
  unfold tryCatch at 1. unfold bind at 1.
  destruct (withRetry _ 3 1000 w) as [[response|e] w1]; [reflexivity|].
  unfold wrapError. cbn. destruct (instanceofGeminiError e); reflexivity.
Qed.

Lemma generateText_uninitialized (this : GeminiClient) (options : GeminiRequestOptions)
      (w : World) :
  initialized this = false ->
  generateText this options w =
  (Throw (newGeminiError2 API_KEY_INVALID (js "Client not initialized")), w).
Proof. intros Hinit. unfold generateText. now rewrite Hinit. Qed.

Lemma callOutcome_retried (this : GeminiClient) (outcome : TransportOutcome) (e : thrown) :
  callOutcome this outcome = Throw e ->
  isNonRetryableError e = false ->
  isNullish e = false ->
  retriedRejection outcome.
Proof.
  unfold callOutcome. destruct outcome as [responseText|reason].
  - destruct (isEmptyText responseText); [|discriminate].
    intros H. injection H as <-. discriminate.
  - destruct (isAbortError reason) eqn:Habort.
    + intros H. injection H as <-. discriminate.
    + intros H Hre Hnn. injection H as <-. now exists reason.
Qed.

(** A transport that rejects its first call with [undefined] and would
    answer the second: the request makes one call and fails with a
    [GeminiError] of kind [UNKNOWN] around the [TypeError] of the retry
    executor. *)
Example undefined_rejection_unknown :
  let w := freshWorld (fun k _ =>
                         match k with
                         | O => Rejected (Falsy (js "undefined"))
                         | _ => Resolved (Some hello)
                         end) in
  let run := generateText readyClient (promptOnly hello) w in
  fst run =
    Throw (newGeminiError3 UNKNOWN
             (js "API call failed: TypeError: Cannot read properties of undefined (reading 'message')")
             (cannotReadMessage (Falsy (js "undefined")))) /\
  length (sent (snd run)) = 1%nat.
Proof. vm_compute. split; reflexivity. Qed.

(** The calls that the retry executor makes for one request. *)
Lemma withRetry_calls (this : GeminiClient) (options : GeminiRequestOptions) (w : World) :
  exists j,
    (j < 3)%nat /\
    withRetry (makeAPICall this (finalPromptOf this options) options) 3 1000 w =
      (settled (S j =? 3)%nat
         (callOutcome this (remote w (j + length (sent w)) (requestOf this options))),
       withSent (repeat (requestOf this options) (S j) ++ sent w) w) /\
    (forall i, (i < j)%nat ->
       retriedRejection (remote w (i + length (sent w)) (requestOf this options))).
Proof.
  unfold withRetry. change (Z.to_nat 3) with 3%nat.
  destruct (retryLoop_shape (makeAPICall this (finalPromptOf this options) options)
              3 1000 3 1 (Falsy (js "undefined")) w eq_refl ltac:(lia))
    as [j [Hj [Hrun [Hbefore _]]]].
  exists j. split; [exact Hj|]. split.
  - rewrite Hrun, makeAPICall_attempt. reflexivity.
  - intros i Hi. destruct (Hbefore i Hi) as [e [He [Hre Hnn]]].
    rewrite makeAPICall_attempt in He. cbn [fst] in He.
    exact (callOutcome_retried this _ e He Hre Hnn).
Qed.

Lemma wrapError_typed (e : thrown) : instanceofGeminiError (wrapError e) = true.
Proof.
  unfold wrapError. destruct (instanceofGeminiError e) eqn:He; [exact He|reflexivity].
Qed.

(** Whatever [generateText] throws is a [GeminiError]. *)
Theorem generateText_throws_typed (this : GeminiClient) (options : GeminiRequestOptions)
        (w w' : World) (e : thrown) :
  generateText this options w = (Throw e, w') ->
  instanceofGeminiError e = true.
Proof.
  destruct (initialized this) eqn:Hinit.
  - rewrite (generateText_run this options w Hinit).
    destruct (withRetry _ 3 1000 w) as [[response|e0] w1]; [discriminate|].
    intros H. injection H as <- _. apply wrapError_typed.
  - rewrite (generateText_uninitialized this options w Hinit).
    intros H. injection H as <- _. reflexivity.
Qed.

Lemma generateText_throws_typed_witness :
  instanceofGeminiError (newGeminiError2 CONTENT_FILTERED noTextMessage) = true.
Proof.
  apply (generateText_throws_typed readyClient (promptOnly hello) alwaysSilent
           (snd (generateText readyClient (promptOnly hello) alwaysSilent))).
  vm_compute. reflexivity.
Defined.

(** An initialised client hands over exactly one usage log for each
    request, after the retries: its [success] flag tells whether the
    request returned, its input tokens are the estimate of the prompt that
    was sent, and it carries an error message exactly for a failure.  A
    client that is not initialised logs nothing and sends nothing. *)
Theorem one_log_per_request (this : GeminiClient) (options : GeminiRequestOptions)
        (w : World) :
  let run := generateText this options w in
  (initialized this = true ->
   exists log,
     usage (snd run) = log :: usage w /\
     logModel log = model (config this) /\
     inputTokens log = estimateTokens (finalPromptOf this options) /\
     match fst run with
     | Normal r =>
         success log = true /\ error log = None /\
         outputTokens log = estimateTokens (text r)
     | Throw e =>
         success log = false /\ error log <> None /\ outputTokens log = 0
     end) /\
  (initialized this = false -> snd run = w).
Proof.
  intros run. unfold run. split.
  - intros Hinit. rewrite (generateText_run this options w Hinit).
    destruct (withRetry_calls this options w) as [j [_ [Hrun _]]].
    rewrite Hrun.
    destruct (settled _ _) as [response|e]; cbn [fst snd].
    + eexists. split; [reflexivity|]. repeat split.
    + eexists. split; [reflexivity|]. repeat split. discriminate.
  - intros Hinit. now rewrite (generateText_uninitialized this options w Hinit).
Qed.

Lemma one_log_per_request_witness :
  exists log,
    usage (snd (generateText readyClient (promptOnly hello) alwaysSilent)) = [log] /\
    success log = false.
Proof.
  destruct (proj1 (one_log_per_request readyClient (promptOnly hello) alwaysSilent) eq_refl)
    as [log [Hu [_ [_ Hout]]]].
  exists log. split; [exact Hu|].
  assert (Hfst : fst (generateText readyClient (promptOnly hello) alwaysSilent) =
                 Throw (newGeminiError2 CONTENT_FILTERED noTextMessage))
    by (vm_compute; reflexivity).
  rewrite Hfst in Hout. exact (proj1 Hout).
Defined.

(** A response that [generateText] returns carries the text of a call that
    resolved, counts as input tokens the estimate of the prompt that was
    sent and as output tokens the estimate of the text, which is 1 at least,
    totals the two, and always has the finish reason "STOP" and no safety
    ratings. *)
Theorem generateText_response (this : GeminiClient) (options : GeminiRequestOptions)
        (w w' : World) (r : GeminiResponse) :
  generateText this options w = (Normal r, w') ->
  (exists j, (j < 3)%nat /\
     remote w (j + length (sent w)) (requestOf this options) = Resolved (Some (text r))) /\
  input (tokens r) = estimateTokens (finalPromptOf this options) /\
  output (tokens r) = estimateTokens (text r) /\
  1 <= output (tokens r) /\
  total (tokens r) = input (tokens r) + output (tokens r) /\
  finishReason r = js "STOP" /\
  safetyRatings r = None.
Proof.
  destruct (initialized this) eqn:Hinit;
    [|rewrite (generateText_uninitialized this options w Hinit); discriminate].
  rewrite (generateText_run this options w Hinit).
  destruct (withRetry_calls this options w) as [j [Hj [Hrun _]]].
  rewrite Hrun.
  destruct (settled _ _) as [response|e] eqn:Hsettled; [|discriminate].
  apply settled_normal in Hsettled. unfold callOutcome in Hsettled.
  destruct (remote w (j + length (sent w)) (requestOf this options))
    as [[[|c t]|]|reason] eqn:Hremote; cbn [isEmptyText] in Hsettled;
    try discriminate Hsettled.
  - injection Hsettled as <-. intros H. injection H as <- _.
    cbn [successResponse text tokens input output total finishReason safetyRatings
         resText resFinishReason resSafetyRatings orString].
    split; [exists j; split; [exact Hj|exact Hremote]|].
    repeat split. apply estimate_positive. discriminate.
  - destruct (isAbortError reason); discriminate Hsettled.
Qed.

Lemma generateText_response_witness :
  exists r w',
    generateText readyClient (promptOnly hello)
                 (freshWorld (fun _ _ => Resolved (Some hello))) = (Normal r, w') /\
    finishReason r = js "STOP" /\
    total (tokens r) = input (tokens r) + output (tokens r).
Proof.
  destruct (generateText readyClient (promptOnly hello)
              (freshWorld (fun _ _ => Resolved (Some hello)))) as [[r|e] w'] eqn:Hrun.
  - exists r, w'. split; [reflexivity|].
    destruct (generateText_response _ _ _ _ _ Hrun) as [_ [_ [_ [_ [Ht [Hf _]]]]]].
    split; [exact Hf|exact Ht].
  - vm_compute in Hrun. discriminate Hrun.
Defined.

(** One request of an initialised client makes one, two or three calls of
    the transport, all with the same request, and changes nothing else in
    the world but the usage log. *)
Theorem generateText_calls (this : GeminiClient) (options : GeminiRequestOptions)
        (w : World) :
  initialized this = true ->
  let w' := snd (generateText this options w) in
  (exists k, (1 <= k <= 3)%nat /\
     sent w' = repeat (requestOf this options) k ++ sent w) /\
  remote w' = remote w /\
  environment w' = environment w /\
  clientInstance w' = clientInstance w /\
  timerReading w' = timerReading w.
Proof.
  intros Hinit w'. unfold w'. rewrite (generateText_run this options w Hinit).
  destruct (withRetry_calls this options w) as [j [Hj [Hrun _]]].
  rewrite Hrun.
  destruct (settled _ _) as [response|e]; cbn [snd];
    (split; [exists (S j); split; [lia|reflexivity]|repeat split]).
Qed.

Lemma generateText_calls_witness :
  exists k, (1 <= k <= 3)%nat /\
    sent (snd (generateText readyClient (promptOnly hello) alwaysSilent)) =
    repeat (requestOf readyClient (promptOnly hello)) k ++ sent alwaysSilent.
Proof.
  exact (proj1 (generateText_calls readyClient (promptOnly hello) alwaysSilent eq_refl)).
Defined.

(** A request of an initialised client returns exactly when, among at most
    three calls, one resolves with a text that is not empty and all calls
    before it were rejected with errors that are passed on and retried; the
    health check returns [true] in exactly that case. *)
Theorem generateText_succeeds_iff (this : GeminiClient) (options : GeminiRequestOptions)
        (w : World) :
  initialized this = true ->
  let served :=
    exists j c t,
      (j < 3)%nat /\
      remote w (j + length (sent w)) (requestOf this options) = Resolved (Some (c :: t)) /\
      (forall i, (i < j)%nat ->
         retriedRejection (remote w (i + length (sent w)) (requestOf this options))) in
  ((exists r, fst (generateText this options w) = Normal r) <-> served) /\
  (options = healthProbe ->
   (fst (healthCheck this w) = Normal true <-> served)).
Proof.
  intros Hinit served.
  assert (Hiff : (exists r, fst (generateText this options w) = Normal r) <-> served).
  { rewrite (generateText_run this options w Hinit). split.
    - intros [r Hr].
      destruct (withRetry_calls this options w) as [j [Hj [Hrun Hbefore]]].
      rewrite Hrun in Hr.
      destruct (settled _ _) as [response|e] eqn:Hsettled; [|discriminate Hr].
      apply settled_normal in Hsettled. unfold callOutcome in Hsettled.
      destruct (remote w (j + length (sent w)) (requestOf this options))
        as [[[|c t]|]|reason] eqn:Hremote; cbn [isEmptyText] in Hsettled;
        try discriminate Hsettled.
      + exists j, c, t. repeat split; assumption.
      + destruct (isAbortError reason); discriminate Hsettled.
    - intros [j [c [t [Hj [Hremote Hbefore]]]]].
      assert (Hrun : withRetry (makeAPICall this (finalPromptOf this options) options)
                       3 1000 w =
                     makeAPICall this (finalPromptOf this options) options
                       (stateBefore (makeAPICall this (finalPromptOf this options) options)
                          j w)).
      { unfold withRetry. change (Z.to_nat 3) with 3%nat.
        apply retryLoop_decisive; [reflexivity|exact Hj| |].
        - intros k Hk. destruct (Hbefore k Hk) as [e [He [Hab Hre]]].
          exists e. rewrite makeAPICall_attempt. cbn [fst].
          unfold requestOf in He. rewrite He. cbn [callOutcome]. rewrite Hab.
          split; [reflexivity|exact Hre].
        - rewrite makeAPICall_attempt. cbn [fst].
          unfold requestOf in Hremote. rewrite Hremote. exact I. }
      rewrite Hrun, makeAPICall_attempt.
      unfold requestOf in Hremote. rewrite Hremote. cbn [callOutcome isEmptyText].
      eexists. reflexivity. }
  split; [exact Hiff|].
  intros ->. rewrite <- Hiff.
  unfold healthCheck. rewrite healthCheckWith_run.
  destruct (generateText this healthProbe w) as [[r|e] w1] eqn:Hrun; cbn [fst].
  - pose proof (generateText_text _ _ _ _ _ Hrun) as Hne.
    apply nonempty_length in Hne. rewrite Hne.
    split; [intros _; now exists r|reflexivity].
  - split; [discriminate|]. intros [r Hr]. discriminate Hr.
Qed.

Lemma generateText_succeeds_iff_witness :
  let w := freshWorld (fun _ _ => Resolved (Some hello)) in
  exists r, fst (generateText readyClient healthProbe w) = Normal r.
Proof.
  intros w.
  apply (proj1 (generateText_succeeds_iff readyClient healthProbe w eq_refl)).
  exists 0%nat, 72, (js "ello"). split; [lia|]. split; [reflexivity|].
  intros i Hi. lia.
Defined.

(* ================================================================= *)
(** ** Configuration and the client singleton *)

Lemma out_of_range_iff (lo hi x : Z) :
  (x <=? lo) || (hi <? x) = true <-> ~ (lo < x <= hi).
Proof.
  rewrite orb_true_iff, Z.leb_le, Z.ltb_lt. lia.
Qed.

Lemma line_if (b : bool) (line x : jsstring) :
  In x (if b then [line] else []) <-> b = true /\ x = line.
Proof.
  destruct b; cbn [In].
  - split; [intros [H|[]]; now split|intros [_ ->]; now left].
  - split; [contradiction|intros [H _]; discriminate H].
Qed.

Lemma key_line (key x : jsstring) :
  In x (match key with [] => [js "GEMINI_API_KEY is required"] | _ => [] end) <->
  key = [] /\ x = js "GEMINI_API_KEY is required".
Proof.
  destruct key; cbn [In].
  - split; [intros [H|[]]; now split|intros [_ ->]; now left].
  - split; [contradiction|intros [H _]; discriminate H].
Qed.

Lemma configErrors_In (c : AIConfig) (x : jsstring) :
  In x (configErrors c) <->
  (apiKey c = [] /\ x = js "GEMINI_API_KEY is required") \/
  (~ (0 < maxTokens c <= 50000) /\
   x = js "GEMINI_MAX_TOKENS must be between 1 and 50000") \/
  (~ (0 < timeout c <= 60000) /\
   x = js "GEMINI_TIMEOUT_MS must be between 1 and 60000") \/
  (~ (0 < rateLimitPerMinute c <= 1000) /\
   x = js "GEMINI_RATE_LIMIT must be between 1 and 1000").
Proof.
  unfold configErrors.
  rewrite !in_app_iff, key_line, !line_if, !out_of_range_iff. reflexivity.
Qed.

Lemma configErrors_nil_iff (c : AIConfig) : configErrors c = [] <-> configValid c.
Proof.
  unfold configValid. split.
  - intros Hnil.
    assert (Hno : forall x, ~ In x (configErrors c)) by (intros x; rewrite Hnil; exact (fun H => H)).
    repeat split.
    + intros Hkey. apply (Hno (js "GEMINI_API_KEY is required")).
      apply configErrors_In. left. now split.
    + destruct (Z_lt_le_dec 0 (maxTokens c)) as [H|H]; [exact H|].
      exfalso. apply (Hno (js "GEMINI_MAX_TOKENS must be between 1 and 50000")).
      apply configErrors_In. right. left. split; [lia|reflexivity].
    + destruct (Z_le_gt_dec (maxTokens c) 50000) as [H|H]; [exact H|].
      exfalso. apply (Hno (js "GEMINI_MAX_TOKENS must be between 1 and 50000")).
      apply configErrors_In. right. left. split; [lia|reflexivity].
    + destruct (Z_lt_le_dec 0 (timeout c)) as [H|H]; [exact H|].
      exfalso. apply (Hno (js "GEMINI_TIMEOUT_MS must be between 1 and 60000")).
      apply configErrors_In. right. right. left. split; [lia|reflexivity].
    + destruct (Z_le_gt_dec (timeout c) 60000) as [H|H]; [exact H|].
      exfalso. apply (Hno (js "GEMINI_TIMEOUT_MS must be between 1 and 60000")).
      apply configErrors_In. right. right. left. split; [lia|reflexivity].
    + destruct (Z_lt_le_dec 0 (rateLimitPerMinute c)) as [H|H]; [exact H|].
      exfalso. apply (Hno (js "GEMINI_RATE_LIMIT must be between 1 and 1000")).
      apply configErrors_In. right. right. right. split; [lia|reflexivity].
    + destruct (Z_le_gt_dec (rateLimitPerMinute c) 1000) as [H|H]; [exact H|].
      exfalso. apply (Hno (js "GEMINI_RATE_LIMIT must be between 1 and 1000")).
      apply configErrors_In. right. right. right. split; [lia|reflexivity].
  - intros [Hkey [Htok [Htime Hrate]]].
    destruct (configErrors c) as [|x rest] eqn:Herr; [reflexivity|].
    exfalso.
    assert (Hin : In x (configErrors c)) by (rewrite Herr; now left).
    apply configErrors_In in Hin.
    destruct Hin as [[H _]|[[H _]|[[H _]|[H _]]]]; [congruence|tauto|tauto|tauto].
Qed.

(** [getGeminiConfig] returns the configuration of the environment, and
    leaves the world as it is, exactly when the API key is not empty and
    the three numbers are within their ranges.  Otherwise it throws a plain
    [Error] whose message lists every violated condition, not the first
    one only. *)
Theorem getGeminiConfig_checks (w : World) :
  let c := environment w in
  (configValid c -> getGeminiConfig w = (Normal c, w)) /\
  (~ configValid c ->
   exists first others,
     configErrors c = first :: others /\
     getGeminiConfig w =
       (Throw (ErrorObj (js "Error")
                 (js "Gemini configuration errors:" ++ [LF] ++ join [LF] (first :: others))
                 None None), w)) /\
  (In (js "GEMINI_API_KEY is required") (configErrors c) <-> apiKey c = []) /\
  (In (js "GEMINI_MAX_TOKENS must be between 1 and 50000") (configErrors c) <->
   ~ (0 < maxTokens c <= 50000)) /\
  (In (js "GEMINI_TIMEOUT_MS must be between 1 and 60000") (configErrors c) <->
   ~ (0 < timeout c <= 60000)) /\
  (In (js "GEMINI_RATE_LIMIT must be between 1 and 1000") (configErrors c) <->
   ~ (0 < rateLimitPerMinute c <= 1000)).
Proof.
  intros c. split; [|split].
  - intros Hvalid. apply configErrors_nil_iff in Hvalid.
    unfold getGeminiConfig. fold c. now rewrite Hvalid.
  - intros Hbad. unfold getGeminiConfig. fold c.
    destruct (configErrors c) as [|first others] eqn:Herr.
    + exfalso. apply Hbad. now apply configErrors_nil_iff.
    + exists first, others. split; reflexivity.
  - rewrite !configErrors_In. repeat split.
    + intros [[H _]|[[_ H]|[[_ H]|[_ H]]]]; [exact H|other_line H..].
    + intros H. left. now split.
    + intros [[_ H]|[[H _]|[[_ H]|[_ H]]]]; [other_line H|exact H|other_line H..].
    + intros H. right. left. now split.
    + intros [[_ H]|[[_ H]|[[H _]|[_ H]]]]; [other_line H..|exact H|other_line H].
    + intros H. right. right. left. now split.
    + intros [[_ H]|[[_ H]|[[_ H]|[H _]]]]; [other_line H..|exact H].
    + intros H. right. right. right. now split.
Qed.

Lemma getGeminiConfig_checks_witness :
  getGeminiConfig alwaysSilent = (Normal defaultConfig, alwaysSilent) /\
  exists first others,
    configErrors (environment keylessWorld) = first :: others /\
    getGeminiConfig keylessWorld =
      (Throw (ErrorObj (js "Error")
                (js "Gemini configuration errors:" ++ [LF] ++ join [LF] (first :: others))
                None None), keylessWorld).
Proof.
  split.
  - apply (proj1 (getGeminiConfig_checks alwaysSilent)).
    unfold configValid. cbn. repeat split; try discriminate; lia.
  - apply (proj1 (proj2 (getGeminiConfig_checks keylessWorld))).
    intros [Hkey _]. apply Hkey. reflexivity.
Defined.

Lemma newGeminiClient_run (w : World) :
  newGeminiClient w =
  match getGeminiConfig w with
  | (Normal c, w') => (Normal {| config := c; initialized := true |}, w')
  | (Throw e, w') => (Throw e, w')
  end.
Proof.
  unfold newGeminiClient, bind at 1.
  destruct (getGeminiConfig w) as [[c|e] w']; reflexivity.
Qed.

Lemma getGeminiClient_fresh (w : World) :
  clientInstance w = None ->
  getGeminiClient w =
  match configErrors (environment w) with
  | [] => (Normal {| config := environment w; initialized := true |},
           withClient {| config := environment w; initialized := true |} w)
  | errors =>
      (Throw (ErrorObj (js "Error")
                (js "Gemini configuration errors:" ++ [LF] ++ join [LF] errors)
                None None), w)
  end.
Proof.
  intros Hnone. unfold getGeminiClient. rewrite Hnone, newGeminiClient_run.
  unfold getGeminiConfig. destruct (configErrors (environment w)); reflexivity.
Qed.

(** The client is created once.  From a world without a client,
    [getGeminiClient] creates one exactly when the configuration is valid;
    it is initialised and holds the configuration of the environment.  Once
    a client has been returned, every later call returns that same client
    without reading the environment again, whatever it has become; a
    failed creation stores nothing. *)
Theorem getGeminiClient_singleton :
  (forall w,
      clientInstance w = None ->
      configValid (environment w) ->
      getGeminiClient w =
        (Normal {| config := environment w; initialized := true |},
         withClient {| config := environment w; initialized := true |} w)) /\
  (forall w,
      clientInstance w = None ->
      ~ configValid (environment w) ->
      exists e, getGeminiClient w = (Throw e, w) /\ instanceofGeminiError e = false) /\
  (forall w client w',
      getGeminiClient w = (Normal client, w') ->
      clientInstance w' = Some client /\
      forall env,
        getGeminiClient (withEnvironment env w') = (Normal client, withEnvironment env w')).
Proof.
  split; [|split].
  - intros w Hnone Hvalid. rewrite (getGeminiClient_fresh w Hnone).
    apply configErrors_nil_iff in Hvalid. now rewrite Hvalid.
  - intros w Hnone Hbad. rewrite (getGeminiClient_fresh w Hnone).
    destruct (configErrors (environment w)) as [|first others] eqn:Herr.
    + exfalso. apply Hbad. now apply configErrors_nil_iff.
    + eexists. split; reflexivity.
  - intros w client w' Hget.
    assert (Hinst : clientInstance w' = Some client).
    { destruct (clientInstance w) as [cached|] eqn:Hc.
      - unfold getGeminiClient in Hget. rewrite Hc in Hget.
        injection Hget as <- <-. exact Hc.
      - rewrite (getGeminiClient_fresh w Hc) in Hget.
        destruct (configErrors (environment w)); [|discriminate Hget].
        injection Hget as <- <-. reflexivity. }
    split; [exact Hinst|].
    intros env. unfold getGeminiClient.
    cbn [withEnvironment clientInstance]. now rewrite Hinst.
Qed.

Lemma getGeminiClient_singleton_witness :
  getGeminiClient alwaysSilent =
    (Normal readyClient, withClient readyClient alwaysSilent) /\
  exists e, getGeminiClient keylessWorld = (Throw e, keylessWorld) /\
            instanceofGeminiError e = false.
Proof.
  split.
  - apply (proj1 getGeminiClient_singleton alwaysSilent); [reflexivity|].
    unfold configValid. cbn. repeat split; try discriminate; lia.
  - apply (proj1 (proj2 getGeminiClient_singleton) keylessWorld); [reflexivity|].
    intros [Hkey _]. apply Hkey. reflexivity.
Defined.

(** Without a client and with a configuration that is not valid,
    [checkGeminiHealth] returns [false] and leaves the world as it is: no
    request is sent, nothing is logged and no client is stored. *)
Theorem checkGeminiHealth_invalid_config (w : World) :
  clientInstance w = None ->
  ~ configValid (environment w) ->
  checkGeminiHealth w = (Normal false, w).
Proof.
  intros Hnone Hbad. unfold checkGeminiHealth, tryCatch, bind.
  rewrite (getGeminiClient_fresh w Hnone).
  destruct (configErrors (environment w)) as [|first others] eqn:Herr; [|reflexivity].
  exfalso. apply Hbad. now apply configErrors_nil_iff.
Qed.

Lemma checkGeminiHealth_invalid_config_witness :
  checkGeminiHealth keylessWorld = (Normal false, keylessWorld).
Proof.
  apply checkGeminiHealth_invalid_config; [reflexivity|].
  intros [Hkey _]. apply Hkey. reflexivity.
Defined.

(** The module-level [generateText] returns a text that is not empty, or
    throws.  What it throws is a [GeminiError], unless no client could be
    created: then it is the plain [Error] of the configuration, and nothing
    has been sent or logged. *)
Theorem generateTextOf_outcomes (prompt : jsstring) (maxTokens : option Z) (w : World) :
  (forall t w', generateTextOf prompt maxTokens w = (Normal t, w') -> t <> []) /\
  (forall e w',
      generateTextOf prompt maxTokens w = (Throw e, w') ->
      instanceofGeminiError e = true \/
      (w' = w /\ clientInstance w = None /\ ~ configValid (environment w))).
Proof.
  unfold generateTextOf, bind.
  destruct (getGeminiClient w) as [[client|e0] w1] eqn:Hclient.
  - split.
    + intros t w'.
      destruct (generateText client _ w1) as [[r|e] w2] eqn:Hrun; [|discriminate].
      intros H. injection H as <- _. exact (generateText_text _ _ _ _ _ Hrun).
    + intros e w'.
      destruct (generateText client _ w1) as [[r|e1] w2] eqn:Hrun; [discriminate|].
      intros H. injection H as <- _. left.
      destruct (initialized client) eqn:Hinit.
      * rewrite (generateText_run client _ w1 Hinit) in Hrun.
        destruct (withRetry _ 3 1000 w1) as [[response|e2] w3]; [discriminate Hrun|].
        injection Hrun as <- _. apply wrapError_typed.
      * rewrite (generateText_uninitialized client _ w1 Hinit) in Hrun.
        injection Hrun as <- _. reflexivity.
  - split; [discriminate|].
    intros e w' H. injection H as <- <-. right.
    destruct (clientInstance w) as [cached|] eqn:Hc.
    + unfold getGeminiClient in Hclient. rewrite Hc in Hclient. discriminate Hclient.
    + rewrite (getGeminiClient_fresh w Hc) in Hclient.
      destruct (configErrors (environment w)) as [|first others] eqn:Herr;
        [discriminate Hclient|].
      injection Hclient as _ <-. split; [reflexivity|]. split; [reflexivity|].
      intros Hvalid. apply configErrors_nil_iff in Hvalid. congruence.
Qed.

Lemma generateTextOf_outcomes_witness :
  exists e w',
    generateTextOf hello None keylessWorld = (Throw e, w') /\
    (instanceofGeminiError e = true \/
     (w' = keylessWorld /\ clientInstance keylessWorld = None /\
      ~ configValid (environment keylessWorld))).
Proof.
  destruct (generateTextOf hello None keylessWorld) as [[t|e] w'] eqn:Hrun.
  - vm_compute in Hrun. discriminate Hrun.
  - exists e, w'. split; [reflexivity|].
    exact (proj2 (generateTextOf_outcomes hello None keylessWorld) e w' Hrun).
Defined.

(* ================================================================= *)
(** ** Usage statistics: beyond the empty sequence *)

Lemma totalTokens_sum (logs : list APIUsageLog) (start : Z) :
  fold_left (fun sum log => sum + inputTokens log + outputTokens log) logs start =
  start + fold_right Z.add 0 (map (fun log => inputTokens log + outputTokens log) logs).
Proof.
  revert start. induction logs as [|log logs IH]; intros start; cbn [fold_left map fold_right].
  - lia.
  - rewrite IH. lia.
Qed.

Lemma totalLatency_sum (logs : list APIUsageLog) (start : Z) :
  fold_left (fun sum log => sum + latencyMs log) logs start =
  start + fold_right Z.add 0 (map latencyMs logs).
Proof.
  revert start. induction logs as [|log logs IH]; intros start; cbn [fold_left map fold_right].
  - lia.
  - rewrite IH. lia.
Qed.

Lemma sum_permutation (xs ys : list Z) :
  Permutation xs ys -> fold_right Z.add 0 xs = fold_right Z.add 0 ys.
Proof.
  induction 1; cbn [fold_right]; lia.
Qed.

Lemma filter_length_permutation {A : Type} (f : A -> bool) (xs ys : list A) :
  Permutation xs ys -> length (filter f xs) = length (filter f ys).
Proof.
  induction 1 as [|x xs ys _ IH|x y xs|xs ys zs _ IH1 _ IH2]; cbn [filter].
  - reflexivity.
  - destruct (f x); cbn [length]; now rewrite IH.
  - destruct (f x), (f y); reflexivity.
  - now rewrite IH1.
Qed.

Lemma calculateUsageStats_nonempty (logs : list APIUsageLog) :
  logs <> [] ->
  calculateUsageStats logs =
  {| totalRequests := Z.of_nat (length logs);
     successRate :=
       (inject_Z (Z.of_nat (length (filter success logs))) /
        inject_Z (Z.of_nat (length logs))) * inject_Z 100;
     averageLatency :=
       inject_Z (fold_right Z.add 0 (map latencyMs logs)) /
       inject_Z (Z.of_nat (length logs));
     totalTokens :=
       fold_right Z.add 0 (map (fun log => inputTokens log + outputTokens log) logs);
     averageTokensPerRequest :=
       inject_Z (fold_right Z.add 0
                   (map (fun log => inputTokens log + outputTokens log) logs)) /
       inject_Z (Z.of_nat (length logs)) |}.
Proof.
  intros Hne. destruct logs as [|log logs]; [congruence|].
  unfold calculateUsageStats. rewrite totalTokens_sum, totalLatency_sum.
  rewrite !Z.add_0_l. reflexivity.
Qed.

(** The statistics do not depend on the order of the logs. *)
Theorem calculateUsageStats_permutation (logs logs' : list APIUsageLog) :
  Permutation logs logs' ->
  calculateUsageStats logs = calculateUsageStats logs'.
Proof.
  intros Hperm.
  destruct logs as [|log rest].
  - apply Permutation_nil in Hperm. now subst.
  - assert (Hne' : logs' <> []).
    { intros ->. apply Permutation_sym, Permutation_nil in Hperm. discriminate Hperm. }
    rewrite (calculateUsageStats_nonempty (log :: rest)) by discriminate.
    rewrite (calculateUsageStats_nonempty logs' Hne').
    rewrite (Permutation_length Hperm).
    rewrite (filter_length_permutation success _ _ Hperm).
    rewrite (sum_permutation _ _ (Permutation_map latencyMs Hperm)).
    rewrite (sum_permutation _ _
               (Permutation_map (fun l => inputTokens l + outputTokens l) Hperm)).
    reflexivity.
Qed.

Lemma calculateUsageStats_permutation_witness :
  calculateUsageStats [okLog; koLog] = calculateUsageStats [koLog; okLog].
Proof.
  apply calculateUsageStats_permutation. apply perm_swap.
Defined.

(** For a sequence that is not empty, the total is the sum of the input
    and output tokens of the logs, and the success rate lies between 0 and
    100: it is 100 exactly when every request succeeded and 0 exactly when
    none did. *)
Theorem calculateUsageStats_rates (logs : list APIUsageLog) :
  logs <> [] ->
  let stats := calculateUsageStats logs in
  totalTokens stats =
    fold_right Z.add 0 (map (fun log => inputTokens log + outputTokens log) logs) /\
  (0 <= successRate stats)%Q /\
  (successRate stats <= 100)%Q /\
  ((successRate stats == 100)%Q <-> Forall (fun log => success log = true) logs) /\
  ((successRate stats == 0)%Q <-> Forall (fun log => success log = false) logs).
Proof.
  intros Hne stats. unfold stats.
  rewrite (calculateUsageStats_nonempty logs Hne). cbn [totalTokens successRate].
  split; [reflexivity|].
  set (k := length (filter success logs)).
  set (n := length logs).
  assert (Hk : (k <= n)%nat) by apply filter_length_le.
  assert (Hn : (0 < n)%nat) by (unfold n; destruct logs; [congruence|cbn [length]; lia]).
  assert (Hall : k = n <-> Forall (fun log => success log = true) logs).
  { unfold k, n. split.
    - intros H. apply filter_length_forallb in H.
      rewrite forallb_forall in H. now apply Forall_forall.
    - intros H. f_equal. apply forallb_filter_id.
      apply forallb_forall. now apply Forall_forall. }
  assert (Hnone : k = 0%nat <-> Forall (fun log => success log = false) logs).
  { unfold k. clear. induction logs as [|log logs IH]; cbn [filter].
    - split; [constructor|reflexivity].
    - destruct (success log) eqn:Hs; cbn [length].
      + split; [discriminate|]. intros H. inversion H; congruence.
      + rewrite IH. split; [now constructor|]. intros H. now inversion H. }
  rewrite <- Hall, <- Hnone.
  assert (Hrate : (inject_Z (Z.of_nat k) / inject_Z (Z.of_nat n) * inject_Z 100 ==
                   (100 * Z.of_nat k) # (Pos.of_nat n))%Q).
  { destruct n as [|n']; [lia|].
    change (Z.of_nat (S n')) with (Z.pos (Pos.of_succ_nat n')).
    replace (Pos.of_nat (S n')) with (Pos.of_succ_nat n')
      by apply Pos.of_nat_succ.
    generalize (Pos.of_succ_nat n') as p. generalize (Z.of_nat k) as kz.
    intros kz p. unfold Qeq, Qdiv, Qmult, Qinv, inject_Z. cbn [Qnum Qden].
    rewrite ?Pos.mul_1_l, ?Pos.mul_1_r. lia. }
  rewrite Hrate. unfold Qle, Qeq. cbn [Qnum Qden inject_Z].
  assert (Hp : Z.pos (Pos.of_nat n) = Z.of_nat n).
  { destruct n as [|n']; [lia|]. rewrite <- Pos.of_nat_succ. lia. }
  change (Qnum 100) with 100. change (QDen 100) with 1.
  change (Qnum 0) with 0. change (QDen 0) with 1.
  rewrite Hp. repeat split; lia.
Qed.

Lemma calculateUsageStats_rates_witness :
  totalTokens (calculateUsageStats [okLog; koLog]) = 15 /\
  (successRate (calculateUsageStats [okLog; koLog]) <= 100)%Q.
Proof.
  destruct (calculateUsageStats_rates [okLog; koLog] ltac:(discriminate))
    as [Htotal [_ [Hle _]]].
  split; [exact Htotal|exact Hle].
Defined.

(* ================================================================= *)
(** ** Messages for the user *)

Example ko_annyeong : ko "안녕하세요" = annyeong.
Proof. reflexivity. Qed.

Lemma messageOfKind_generic (type : GeminiErrorType) :
  jsstring_eqb (messageOfKind type) genericMessage =
  kindIn [NETWORK_ERROR; INVALID_REQUEST; UNKNOWN] type.
Proof. destruct type; vm_compute; reflexivity. Qed.

(** The message for the user depends on the kind of a [GeminiError] only,
    never on its technical message.  Seven kinds have a message of their
    own, different from each other; [NETWORK_ERROR], [INVALID_REQUEST] and
    [UNKNOWN] share the generic message with every value that is not a
    [GeminiError]. *)
Theorem getErrorMessage_table :
  (forall e, instanceofGeminiError e = false -> getErrorMessage e = genericMessage) /\
  (forall type message cause flag message' cause' flag',
      getErrorMessage (GeminiErr type message cause flag) =
      getErrorMessage (GeminiErr type message' cause' flag')) /\
  (forall type message cause flag,
      getErrorMessage (GeminiErr type message cause flag) = genericMessage <->
      In type [NETWORK_ERROR; INVALID_REQUEST; UNKNOWN]) /\
  (forall type type' message cause flag,
      ~ In type [NETWORK_ERROR; INVALID_REQUEST; UNKNOWN] ->
      getErrorMessage (GeminiErr type message cause flag) =
      getErrorMessage (GeminiErr type' message cause flag) ->
      type = type').
Proof.
  split; [|split; [|split]].
  - intros e He. destruct e; [reflexivity..|discriminate He].
  - intros. reflexivity.
  - intros type message cause flag.
    rewrite <- jsstring_eqb_true.
    change (getErrorMessage (GeminiErr type message cause flag)) with (messageOfKind type).
    rewrite messageOfKind_generic. unfold kindIn. cbn [existsb].
    destruct type; cbn; split; try discriminate; try tauto;
      intros Hin; try reflexivity;
      repeat (destruct Hin as [Hin|Hin]; [discriminate Hin|]); contradiction.
  - intros type type' message cause flag Hown H.
    change (getErrorMessage (GeminiErr type message cause flag))
      with (messageOfKind type) in H.
    change (getErrorMessage (GeminiErr type' message cause flag))
      with (messageOfKind type') in H.
    apply jsstring_eqb_true in H.
    destruct type; try (exfalso; apply Hown; cbn [In]; tauto);
      destruct type'; try reflexivity;
      vm_compute in H; discriminate H.
Qed.

Lemma getErrorMessage_table_witness :
  getErrorMessage networkDown = genericMessage /\
  (getErrorMessage (GeminiErr NETWORK_ERROR (js "x") None true) = genericMessage <->
   In NETWORK_ERROR [NETWORK_ERROR; INVALID_REQUEST; UNKNOWN]).
Proof.
  split.
  - apply (proj1 getErrorMessage_table). reflexivity.
  - apply (proj1 (proj2 (proj2 getErrorMessage_table))).
Defined.

(* ================================================================= *)
(** ** The groups of a batch *)

Section Batches.
Context {A : Type}.
Variable requests : list A.

Lemma slice_group (i : Z) :
  0 <= i ->
  slice requests i (i + 5) = firstn 5 (skipn (Z.to_nat i) requests).
Proof.
  intros Hi. unfold slice. replace (Z.to_nat (i + 5 - i)) with 5%nat by lia.
  reflexivity.
Qed.

Lemma batchesFrom_done (fuel : nat) (i : Z) :
  Z.of_nat (length requests) <= i -> batchesFrom fuel requests i = [].
Proof.
  intros Hi. destruct fuel as [|fuel]; [reflexivity|].
  cbn [batchesFrom]. apply Z.ltb_ge in Hi. now rewrite Hi.
Qed.

Lemma batchesFrom_step (fuel : nat) (i : Z) :
  0 <= i < Z.of_nat (length requests) ->
  batchesFrom (S fuel) requests i =
  firstn 5 (skipn (Z.to_nat i) requests) :: batchesFrom fuel requests (i + 5).
Proof.
  intros Hi. cbn [batchesFrom].
  replace (i <? Z.of_nat (length requests)) with true by (symmetry; apply Z.ltb_lt; lia).
  now rewrite slice_group by lia.
Qed.

Lemma batchesFrom_concat (fuel : nat) (i : Z) :
  0 <= i ->
  Z.of_nat (length requests) - i <= Z.of_nat fuel ->
  concat (batchesFrom fuel requests i) = skipn (Z.to_nat i) requests.
Proof.
  revert i. induction fuel as [|fuel IH]; intros i Hi Hfuel.
  - rewrite batchesFrom_done by lia. cbn [concat].
    symmetry. apply skipn_all2. lia.
  - destruct (Z_lt_le_dec i (Z.of_nat (length requests))) as [Hlt|Hge].
    + rewrite batchesFrom_step by lia. cbn [concat]. rewrite IH by lia.
      replace (Z.to_nat (i + 5)) with (5 + Z.to_nat i)%nat by lia.
      rewrite <- skipn_skipn. apply firstn_skipn.
    + rewrite batchesFrom_done by lia. cbn [concat].
      symmetry. apply skipn_all2. lia.
Qed.

Lemma batchesFrom_nth (fuel : nat) (i : Z) (k : nat) :
  0 <= i ->
  (k < length (batchesFrom fuel requests i))%nat ->
  nth k (batchesFrom fuel requests i) [] =
  firstn 5 (skipn (Z.to_nat i + 5 * k) requests).
Proof.
  revert i k. induction fuel as [|fuel IH]; intros i k Hi Hk; [cbn in Hk; lia|].
  destruct (Z_lt_le_dec i (Z.of_nat (length requests))) as [Hlt|Hge].
  - rewrite batchesFrom_step in * by lia.
    destruct k as [|k]; cbn [nth].
    + now rewrite Nat.mul_0_r, Nat.add_0_r.
    + cbn [length] in Hk. rewrite IH by lia.
      f_equal. f_equal. lia.
  - rewrite batchesFrom_done in Hk by lia. cbn in Hk. lia.
Qed.

Lemma batchesFrom_count (fuel : nat) (i : Z) :
  0 <= i <= Z.of_nat (length requests) ->
  Z.of_nat (length requests) - i <= Z.of_nat fuel ->
  Z.of_nat (length (batchesFrom fuel requests i)) =
  (Z.of_nat (length requests) - i + 4) / 5.
Proof.
  revert i. induction fuel as [|fuel IH]; intros i Hi Hfuel.
  - rewrite batchesFrom_done by lia. cbn [length].
    replace (Z.of_nat (length requests) - i + 4) with 4 by lia. reflexivity.
  - destruct (Z_lt_le_dec i (Z.of_nat (length requests))) as [Hlt|Hge].
    + rewrite batchesFrom_step by lia. cbn [length].
      set (n := Z.of_nat (length requests)) in *.
      pose proof (Z.div_mod (n - i + 4) 5 ltac:(lia)) as H1.
      pose proof (Z.mod_pos_bound (n - i + 4) 5 ltac:(lia)) as H2.
      destruct (Z_le_gt_dec (i + 5) n) as [Hmore|Hlast].
      * rewrite Nat2Z.inj_succ, IH by lia.
        pose proof (Z.div_mod (n - (i + 5) + 4) 5 ltac:(lia)) as H3.
        pose proof (Z.mod_pos_bound (n - (i + 5) + 4) 5 ltac:(lia)) as H4.
        lia.
      * rewrite batchesFrom_done by (fold n; lia). cbn [length]. lia.
    + rewrite batchesFrom_done by lia. cbn [length].
      replace (Z.of_nat (length requests) - i + 4) with 4 by lia. reflexivity.
Qed.

Lemma batchesFrom_sizes (fuel : nat) (i : Z) :
  0 <= i ->
  Forall (fun group => (1 <= length group <= 5)%nat) (batchesFrom fuel requests i).
Proof.
  revert i. induction fuel as [|fuel IH]; intros i Hi; [constructor|].
  destruct (Z_lt_le_dec i (Z.of_nat (length requests))) as [Hlt|Hge].
  - rewrite batchesFrom_step by lia. constructor; [|apply IH; lia].
    rewrite length_firstn, length_skipn. lia.
  - rewrite batchesFrom_done by lia. constructor.
Qed.
End Batches.

(** The groups of a batch are consecutive pieces of the list of requests:
    put together they give the list back, each has between one and five
    requests, the [k]-th is the five requests from position [5 k] on (fewer
    in the last group), and their number is the length divided by five,
    rounded up. *)
Theorem batchesOf_groups {A : Type} (requests : list A) :
  concat (batchesOf requests) = requests /\
  Forall (fun group => (1 <= length group <= 5)%nat) (batchesOf requests) /\
  Z.of_nat (length (batchesOf requests)) = (Z.of_nat (length requests) + 4) / 5 /\
  (forall k, (k < length (batchesOf requests))%nat ->
     nth k (batchesOf requests) [] = firstn 5 (skipn (5 * k) requests)).
Proof.
  unfold batchesOf. split; [|split; [|split]].
  - rewrite batchesFrom_concat by lia. reflexivity.
  - apply batchesFrom_sizes. lia.
  - rewrite batchesFrom_count by lia. f_equal. lia.
  - intros k Hk. rewrite batchesFrom_nth by (try lia; exact Hk). reflexivity.
Qed.

Example seven_requests :
  batchesOf [1; 2; 3; 4; 5; 6; 7] = [[1; 2; 3; 4; 5]; [6; 7]].
Proof. reflexivity. Qed.
